(** * Frame placement of Zgoubidoo beamline elements

    A shallow embedding of the placement code of
    [zgoubidoo/commands/patchable.py] and [zgoubidoo/commands/magnetique.py]:
    the lazily cached frames of [Patchable], their Cartesian and polar
    specialisations, the defaulting of the per-slot azimuths of the
    multi-dipole commands, and the re-projection of tracks.

    Conventions of the embedding.
    - A pint quantity is a real number in a fixed unit system (lengths in
      metres, angles in radians); floating point is idealised by [R].
    - A Python attribute that may hold [None] is an [option].
    - A Python object with identity (a frame) lives in a heap and is named
      by its location; methods that mutate it update the heap in place.
    - Python code runs in a state-and-exception monad: a raised exception
      keeps every mutation made before it. *)

From Stdlib Require Import Reals Lra ZArith.
From stdpp Require Import base list strings gmap.

Local Open Scope R_scope.

(** ** Python exceptions and the state-and-exception monad *)

Inductive exn : Type :=
| ZgoubidooException   (* the library's own (configuration) error *)
| TypeError
| AttributeError
| KeyError
| IndexError.

Inductive result (A : Type) : Type :=
| Ok (a : A)
| Raise (e : exn).
Arguments Ok {A} a.
Arguments Raise {A} e.

Definition M (S A : Type) : Type := S -> S * result A.

Definition ret {S A : Type} (a : A) : M S A := fun s => (s, Ok a).

Definition raise {S A : Type} (e : exn) : M S A := fun s => (s, Raise e).

Definition bind {S A B : Type} (m : M S A) (k : A -> M S B) : M S B :=
  fun s =>
    match m s with
    | (s', Ok a) => k a s'
    | (s', Raise e) => (s', Raise e)
    end.

Definition gets {S A : Type} (f : S -> A) : M S A := fun s => (s, Ok (f s)).

Definition modify {S : Type} (f : S -> S) : M S unit := fun s => (f s, Ok tt).

Definition lift {S A : Type} (r : result A) : M S A := fun s => (s, r).

#[global] Instance exn_eq_dec : EqDecision exn.
Proof. solve_decision. Defined.

(** Python's [try: m except e: handler]. *)
Definition try_except {S A : Type} (m : M S A) (e : exn) (handler : M S A)
  : M S A :=
  fun s =>
    match m s with
    | (s', Raise e') =>
        if bool_decide (e' = e) then handler s' else (s', Raise e')
    | r => r
    end.

Notation "'do' x <- m ; k" := (bind m (fun x => k))
  (at level 10, x name, m at level 100, k at level 200,
   format "'[v' 'do'  x  <-  m ; '/' k ']'").
Notation "'run' m ; k" := (bind m (fun _ => k))
  (at level 10, m at level 100, k at level 200,
   format "'[v' 'run'  m ; '/' k ']'").

(** ** Python values *)

(** [x or d] on an attribute that is [None] or a quantity: a quantity is
    falsy when its magnitude is zero. *)
Definition py_or (x : option R) (d : R) : R :=
  match x with
  | Some v => if Req_dec_T v 0 then d else v
  | None => d
  end.

(** The value of an attribute, read as zero when the attribute is [None]. *)
Definition val (x : option R) : R :=
  match x with
  | Some v => v
  | None => 0
  end.

(** Arithmetic on attributes: an operand that is [None] is a [TypeError]. *)
Definition py_neg (x : option R) : result R :=
  match x with
  | Some v => Ok (- v)
  | None => Raise TypeError
  end.

Definition py_add (x : option R) (y : R) : result R :=
  match x with
  | Some v => Ok (v + y)
  | None => Raise TypeError
  end.

Definition py_mul (x y : option R) : result R :=
  match x, y with
  | Some a, Some b => Ok (a * b)
  | _, _ => Raise TypeError
  end.

Definition py_div (x y : option R) : result R :=
  match x, y with
  | Some a, Some b => Ok (a / b)
  | _, _ => Raise TypeError
  end.

(** ** Frames

    Modelled from the spec: the class [Frame] comes from the external
    package [georges_core] and is not part of the sources.  The spec gives
    its contract: a rigid-body reference frame "supporting translation along
    its own axes and rotation about its own axes, and construction as a copy
    of another frame".  The three moves used by the placement code are kept
    abstract; constructing a frame from another one allocates a new object
    holding the same value. *)

Class Frame (F : Type) : Type := {
  translate_x : R -> F -> F;
  translate_y : R -> F -> F;
  rotate_z : R -> F -> F
}.

Definition loc : Type := nat.

(** The attributes set by [Patchable.__init__]. *)
Record Patchable : Type := {
  LABEL1 : option string;
  _entry : option loc;
  _entry_patched : option loc;
  _exit : option loc;
  _exit_patched : option loc;
  _frenet : option loc;
  _center : option loc;
  _reference_trajectory : option (list R)   (* the column S of the table *)
}.

Definition Patchable__init__ : Patchable :=
  {| LABEL1 := None;
     _entry := None;
     _entry_patched := None;
     _exit := None;
     _exit_patched := None;
     _frenet := None;
     _center := None;
     _reference_trajectory := None |}.

Definition with_entry (v : option loc) (p : Patchable) : Patchable :=
  {| LABEL1 := LABEL1 p; _entry := v; _entry_patched := _entry_patched p;
     _exit := _exit p; _exit_patched := _exit_patched p;
     _frenet := _frenet p; _center := _center p;
     _reference_trajectory := _reference_trajectory p |}.

Definition with_entry_patched (v : option loc) (p : Patchable) : Patchable :=
  {| LABEL1 := LABEL1 p; _entry := _entry p; _entry_patched := v;
     _exit := _exit p; _exit_patched := _exit_patched p;
     _frenet := _frenet p; _center := _center p;
     _reference_trajectory := _reference_trajectory p |}.

Definition with_exit (v : option loc) (p : Patchable) : Patchable :=
  {| LABEL1 := LABEL1 p; _entry := _entry p;
     _entry_patched := _entry_patched p;
     _exit := v; _exit_patched := _exit_patched p;
     _frenet := _frenet p; _center := _center p;
     _reference_trajectory := _reference_trajectory p |}.

Definition with_exit_patched (v : option loc) (p : Patchable) : Patchable :=
  {| LABEL1 := LABEL1 p; _entry := _entry p;
     _entry_patched := _entry_patched p;
     _exit := _exit p; _exit_patched := v;
     _frenet := _frenet p; _center := _center p;
     _reference_trajectory := _reference_trajectory p |}.

Definition with_frenet (v : option loc) (p : Patchable) : Patchable :=
  {| LABEL1 := LABEL1 p; _entry := _entry p;
     _entry_patched := _entry_patched p;
     _exit := _exit p; _exit_patched := _exit_patched p;
     _frenet := v; _center := _center p;
     _reference_trajectory := _reference_trajectory p |}.

Definition with_center (v : option loc) (p : Patchable) : Patchable :=
  {| LABEL1 := LABEL1 p; _entry := _entry p;
     _entry_patched := _entry_patched p;
     _exit := _exit p; _exit_patched := _exit_patched p;
     _frenet := _frenet p; _center := v;
     _reference_trajectory := _reference_trajectory p |}.

(** The parameters read by [CartesianMagnet]; [None] when the command does
    not declare the parameter. *)
Record Kinematics : Type := { brho : R }.

Record CartesianMagnet : Type := {
  KPOS : option Z;
  XL : option R;
  X_E : option R;
  X_S : option R;
  XCE : option R;
  YCE : option R;
  ALE : option R;
  B0 : option R;
  B1 : option R;
  KINEMATICS : option Kinematics;
  LENGTH_IS_ARC_LENGTH : bool
}.

(** The parameters read by [PolarMagnet]. *)
Record PolarMagnet : Type := {
  AT : option R;
  RM : option R;
  ACENT : option R;
  RE : option R;
  TE : option R;
  RS : option R;
  TS : option R
}.

(** ** The placement code *)

(** The objects an element's methods work on: the frames allocated so far
    and the element's own frame slots. *)
Record World (F : Type) : Type := {
  heap : list F;
  self : Patchable
}.
Arguments Build_World {F} heap self.
Arguments heap {F} w.
Arguments self {F} w.

Section Placement.

Context {F : Type} `{Frame F}.

Definition getattr {A : Type} (f : Patchable -> A) : M (World F) A :=
  gets (fun w => f (self w)).

Definition setattr (f : Patchable -> Patchable) : M (World F) unit :=
  modify (fun w => {| heap := heap w; self := f (self w) |}).

(** [x.__class__(x)]: on a frame, a new frame object constructed from [x],
    which by the contract above holds the value of [x]; on [None],
    [NoneType(None)], which is a [TypeError].  (A location that names no
    object cannot arise; it is rejected like any non-frame.) *)
Definition construct (x : option loc) : M (World F) loc :=
  fun w =>
    match x with
    | None => (w, Raise TypeError)
    | Some l =>
        match heap w !! l with
        | Some v =>
            ({| heap := heap w ++ [v]; self := self w |},
             Ok (length (heap w)))
        | None => (w, Raise TypeError)
        end
    end.

(** [o.move(arg)]: the bound method is fetched first ([AttributeError] on
    [None]), then the argument is evaluated, then the frame object is
    changed in place. *)
Definition call (o : option loc) (move : R -> F -> F) (arg : result R)
  : M (World F) unit :=
  match o with
  | None => raise AttributeError
  | Some l =>
      do d <- lift arg;
      modify (fun w => {| heap := alter (move d) l (heap w); self := self w |})
  end.

(** *** [Patchable] *)

Definition Patchable_clear_placement : M (World F) unit :=
  run setattr (with_entry None);
  run setattr (with_entry_patched None);
  run setattr (with_exit None);
  run setattr (with_exit_patched None);
  setattr (with_center None).

Definition Patchable_place (frame : option loc) : M (World F) unit :=
  run Patchable_clear_placement;
  do e <- construct frame;
  setattr (with_entry (Some e)).

Definition Patchable_length : R := 0.

Definition Patchable_entry : M (World F) (option loc) :=
  getattr _entry.

Definition Patchable_entry_patched : M (World F) (option loc) :=
  do c <- getattr _entry_patched;
  run (match c with
       | None =>
           do e <- Patchable_entry;
           do l <- construct e;
           setattr (with_entry_patched (Some l))
       | Some _ => ret tt
       end);
  getattr _entry_patched.

Definition Patchable_exit : M (World F) (option loc) :=
  do c <- getattr _exit;
  run (match c with
       | None =>
           do e <- Patchable_entry_patched;
           do l <- construct e;
           setattr (with_exit (Some l))
       | Some _ => ret tt
       end);
  getattr _exit.

Definition Patchable_exit_patched : M (World F) (option loc) :=
  do c <- getattr _exit_patched;
  run (match c with
       | None =>
           do e <- Patchable_exit;
           do l <- construct e;
           setattr (with_exit_patched (Some l))
       | Some _ => ret tt
       end);
  getattr _exit_patched.

Definition Patchable_frenet_orientation : M (World F) (option loc) :=
  do c <- getattr _frenet;
  run (match c with
       | None =>
           do e <- Patchable_entry_patched;
           do l <- construct e;
           setattr (with_frenet (Some l))
       | Some _ => ret tt
       end);
  getattr _frenet.

Definition Patchable_center : M (World F) (option loc) :=
  do c <- getattr _center;
  run (match c with
       | None =>
           do e <- Patchable_entry;
           do l <- construct e;
           setattr (with_center (Some l))
       | Some _ => ret tt
       end);
  getattr _center.

(** *** [CartesianMagnet] *)

Definition CartesianMagnet_post_init (s : CartesianMagnet)
  : result CartesianMagnet :=
  if LENGTH_IS_ARC_LENGTH s then
    match KINEMATICS s with
    | None => Raise ZgoubidooException
    | Some k =>
        let arc_length := XL s in
        let field := match B1 s with None => B0 s | Some b => Some b end in
        match py_div (Some (brho k)) field with
        | Raise e => Raise e
        | Ok rho =>
            match py_div arc_length (Some rho) with
            | Raise e => Raise e
            | Ok phi =>
                Ok {| KPOS := KPOS s; XL := Some (2 * rho * sin (phi / 2));
                      X_E := X_E s; X_S := X_S s; XCE := XCE s;
                      YCE := YCE s; ALE := ALE s; B0 := B0 s; B1 := B1 s;
                      KINEMATICS := KINEMATICS s;
                      LENGTH_IS_ARC_LENGTH := LENGTH_IS_ARC_LENGTH s |}
            end
        end
    end
  else Ok s.

Definition CartesianMagnet_rotation (s : CartesianMagnet) : R :=
  py_or (ALE s) 0.

Definition CartesianMagnet_length (s : CartesianMagnet) : option R :=
  XL s.

Definition CartesianMagnet_x_offset (s : CartesianMagnet) : R :=
  py_or (XCE s) 0.

Definition CartesianMagnet_y_offset (s : CartesianMagnet) : R :=
  py_or (YCE s) 0.

(** [self.KPOS in ks] and [self.KPOS == k]; both are false on [None]. *)
Definition KPOS_in (s : CartesianMagnet) (ks : list Z) : bool :=
  match KPOS s with
  | Some k => bool_decide (k ∈ ks)
  | None => false
  end.

Definition KPOS_eq (s : CartesianMagnet) (k : Z) : bool :=
  KPOS_in s [k].

(** [-_np.arcsin((self.XL * self.B1) / (2 * self.KINEMATICS.brho))]: the
    product is formed first, then [brho] is fetched from [KINEMATICS]. *)
Definition arcsin_correction (s : CartesianMagnet) : result R :=
  match py_mul (XL s) (B1 s) with
  | Raise e => Raise e
  | Ok num =>
      match KINEMATICS s with
      | None => Raise AttributeError
      | Some k => Ok (- asin (num / (2 * brho k)))
      end
  end.

Definition CartesianMagnet_entry_patched (s : CartesianMagnet)
  : M (World F) (option loc) :=
  do c <- getattr _entry_patched;
  run (match c with
       | None =>
           do e <- Patchable_entry;
           do l <- construct e;
           run setattr (with_entry_patched (Some l));
           if KPOS_in s [0; 1; 2]%Z then
             do o <- getattr _entry_patched;
             run call o translate_x (Ok (- py_or (X_E s) 0));
             do o <- getattr _entry_patched;
             run call o translate_x (Ok (CartesianMagnet_x_offset s));
             do o <- getattr _entry_patched;
             run call o translate_y (Ok (CartesianMagnet_y_offset s));
             do o <- getattr _entry_patched;
             call o rotate_z (Ok (- CartesianMagnet_rotation s))
           else if KPOS_eq s 3 then
             do o <- getattr _entry_patched;
             run call o translate_x (Ok (- py_or (X_E s) 0));
             do o <- getattr _entry_patched;
             call o rotate_z (arcsin_correction s)
           else ret tt
       | Some _ => ret tt
       end);
  getattr _entry_patched.

Definition CartesianMagnet_exit (s : CartesianMagnet)
  : M (World F) (option loc) :=
  do c <- getattr _exit;
  run (match c with
       | None =>
           do e <- CartesianMagnet_entry_patched s;
           do l <- construct e;
           run setattr (with_exit (Some l));
           do o <- getattr _exit;
           call o translate_x
             (py_add (CartesianMagnet_length s) (py_or (X_E s) 0))
       | Some _ => ret tt
       end);
  getattr _exit.

Definition CartesianMagnet_exit_patched (s : CartesianMagnet)
  : M (World F) (option loc) :=
  do c <- getattr _exit_patched;
  run (match c with
       | None =>
           if match KPOS s with None => true | Some _ => KPOS_eq s 1 end then
             do e <- CartesianMagnet_exit s;
             do l <- construct e;
             run setattr (with_exit_patched (Some l));
             do o <- getattr _exit_patched;
             call o translate_x (Ok (- py_or (X_S s) 0))
           else if KPOS_eq s 0 || KPOS_eq s 2 then
             do e <- Patchable_entry;
             do l <- construct e;
             run setattr (with_exit_patched (Some l));
             do o <- getattr _exit_patched;
             run call o translate_x (Ok (py_or (XL s) 0));
             do o <- getattr _exit_patched;
             call o translate_x (Ok (- py_or (X_S s) 0))
           else if KPOS_eq s 3 then
             do e <- CartesianMagnet_exit s;
             do l <- construct e;
             run setattr (with_exit_patched (Some l));
             do o <- getattr _exit_patched;
             call o rotate_z (arcsin_correction s)
           else ret tt
       | Some _ => ret tt
       end);
  getattr _exit_patched.

(** *** [PolarMagnet] *)

Definition PolarMagnet_angular_opening (s : PolarMagnet) : R :=
  py_or (AT s) 0.

Definition PolarMagnet_radius (s : PolarMagnet) : R :=
  py_or (RM s) 0.

Definition PolarMagnet_length (s : PolarMagnet) : R :=
  PolarMagnet_angular_opening s * PolarMagnet_radius s.

(** [-self.TE or 0 * _ureg.degree] parses as [(-self.TE) or 0]: the
    negation comes first and fails on [None]. *)
Definition neg_TE_or_0 (s : PolarMagnet) : result R :=
  match py_neg (TE s) with
  | Ok v => Ok (py_or (Some v) 0)
  | Raise e => Raise e
  end.

Definition PolarMagnet_entry_patched (s : PolarMagnet)
  : M (World F) (option loc) :=
  do c <- getattr _entry_patched;
  run (match c with
       | None =>
           do e <- Patchable_entry;
           do l <- construct e;
           run setattr (with_entry_patched (Some l));
           do o <- getattr _entry_patched;
           run call o translate_y
             (Ok (PolarMagnet_radius s - py_or (RE s) 0));
           do o <- getattr _entry_patched;
           call o rotate_z (neg_TE_or_0 s)
       | Some _ => ret tt
       end);
  getattr _entry_patched.

Definition PolarMagnet_center (s : PolarMagnet)
  : M (World F) (option loc) :=
  do c <- getattr _center;
  run (match c with
       | None =>
           do e <- PolarMagnet_entry_patched s;
           do l <- construct e;
           run setattr (with_center (Some l));
           do o <- getattr _center;
           call o translate_y (Ok (- PolarMagnet_radius s))
       | Some _ => ret tt
       end);
  getattr _center.

Definition PolarMagnet_exit (s : PolarMagnet)
  : M (World F) (option loc) :=
  do c <- getattr _exit;
  run (match c with
       | None =>
           do e <- PolarMagnet_center s;
           do l <- construct e;
           run setattr (with_exit (Some l));
           do o <- getattr _exit;
           run call o translate_y (Ok (PolarMagnet_radius s));
           do o <- getattr _exit;
           call o rotate_z (Ok (- PolarMagnet_angular_opening s))
       | Some _ => ret tt
       end);
  getattr _exit.

Definition PolarMagnet_exit_patched (s : PolarMagnet)
  : M (World F) (option loc) :=
  do c <- getattr _exit_patched;
  run (match c with
       | None =>
           do e <- PolarMagnet_exit s;
           do l <- construct e;
           run setattr (with_exit_patched (Some l));
           do o <- getattr _exit_patched;
           run call o translate_y
             (Ok (py_or (RS s) 0 - PolarMagnet_radius s));
           do o <- getattr _exit_patched;
           call o rotate_z (Ok (py_or (TS s) 0))
       | Some _ => ret tt
       end);
  getattr _exit_patched.

(** *** Method resolution

    An element is an instance of [Patchable] itself (a point-like element),
    of a subclass of [CartesianMagnet] or of a subclass of [PolarMagnet];
    [place], [clear_placement] and [entry] are inherited unchanged. *)

Inductive Element : Type :=
| PointLike
| Cartesian (s : CartesianMagnet)
| Polar (s : PolarMagnet).

Definition place (el : Element) : option loc -> M (World F) unit :=
  Patchable_place.

Definition clear_placement (el : Element) : M (World F) unit :=
  Patchable_clear_placement.

Definition entry (el : Element) : M (World F) (option loc) :=
  Patchable_entry.

Definition entry_patched (el : Element) : M (World F) (option loc) :=
  match el with
  | PointLike => Patchable_entry_patched
  | Cartesian s => CartesianMagnet_entry_patched s
  | Polar s => PolarMagnet_entry_patched s
  end.

Definition center (el : Element) : M (World F) (option loc) :=
  match el with
  | PointLike => Patchable_center
  | Cartesian s => Patchable_center
  | Polar s => PolarMagnet_center s
  end.

Definition exit (el : Element) : M (World F) (option loc) :=
  match el with
  | PointLike => Patchable_exit
  | Cartesian s => CartesianMagnet_exit s
  | Polar s => PolarMagnet_exit s
  end.

Definition exit_patched (el : Element) : M (World F) (option loc) :=
  match el with
  | PointLike => Patchable_exit_patched
  | Cartesian s => CartesianMagnet_exit_patched s
  | Polar s => PolarMagnet_exit_patched s
  end.

End Placement.

(** ** Multi-dipole commands ([Dipoles], [FFAG]) *)

Fixpoint for_each {S A : Type} (xs : list A) (body : A -> M S unit)
  : M S unit :=
  match xs with
  | [] => ret tt
  | x :: xs' => run body x; for_each xs' body
  end.

(** [range(n)] *)
Definition range (n : Z) : list nat := seq 0 (Z.to_nat n).

(** [a[i]] on an array: out of range is an [IndexError]. *)
Definition getitem (a : list R) (i : nat) : result R :=
  match a !! i with
  | Some v => Ok v
  | None => Raise IndexError
  end.

Module PolarMulti.

(** The parameters of a multi-dipole command read by [post_init], and
    [DRM], one of the per-dipole arrays it does not read.  The scalar
    parameters are declared with defaults by both classes. *)
Record t : Type := {
  N : Z;
  AT : R;
  RM : R;
  ACN : list R;
  DRM : list R;
  OMEGA_E : list R;
  OMEGA_S : list R;
  RE : R;
  RS : R
}.

Definition with_ACN (v : list R) (d : t) : t :=
  {| N := N d; AT := AT d; RM := RM d; ACN := v; DRM := DRM d;
     OMEGA_E := OMEGA_E d; OMEGA_S := OMEGA_S d; RE := RE d; RS := RS d |}.

Definition with_OMEGA_E (v : list R) (d : t) : t :=
  {| N := N d; AT := AT d; RM := RM d; ACN := ACN d; DRM := DRM d;
     OMEGA_E := v; OMEGA_S := OMEGA_S d; RE := RE d; RS := RS d |}.

Definition with_OMEGA_S (v : list R) (d : t) : t :=
  {| N := N d; AT := AT d; RM := RM d; ACN := ACN d; DRM := DRM d;
     OMEGA_E := OMEGA_E d; OMEGA_S := v; RE := RE d; RS := RS d |}.

Definition with_RE (v : R) (d : t) : t :=
  {| N := N d; AT := AT d; RM := RM d; ACN := ACN d; DRM := DRM d;
     OMEGA_E := OMEGA_E d; OMEGA_S := OMEGA_S d; RE := v; RS := RS d |}.

Definition with_RS (v : R) (d : t) : t :=
  {| N := N d; AT := AT d; RM := RM d; ACN := ACN d; DRM := DRM d;
     OMEGA_E := OMEGA_E d; OMEGA_S := OMEGA_S d; RE := RE d; RS := v |}.

(** [self.AT / (2 * self.N) + i * self.AT / self.N] *)
Definition slot_azimuth (d : t) (i : nat) : R :=
  AT d / (2 * IZR (N d)) + INR i * AT d / IZR (N d).

(** [self.AT - self.AT / (2 * self.N) - i * self.AT / self.N] *)
Definition slot_complement (d : t) (i : nat) : R :=
  AT d - AT d / (2 * IZR (N d)) - INR i * AT d / IZR (N d).

End PolarMulti.

(** The body of the loop of [Dipoles.post_init], for the slot [i]. *)
Definition Dipoles_post_init_slot (i : nat) : M PolarMulti.t unit :=
  do a <- gets PolarMulti.OMEGA_E;
  do x <- lift (getitem a i);
  run (if Req_dec_T x 0 then
         modify (fun d =>
           PolarMulti.with_OMEGA_E
             (<[i := PolarMulti.slot_azimuth d i]> (PolarMulti.OMEGA_E d)) d)
       else ret tt);
  do a <- gets PolarMulti.OMEGA_S;
  do x <- lift (getitem a i);
  run (if Req_dec_T x 0 then
         modify (fun d =>
           PolarMulti.with_OMEGA_S
             (<[i := x - PolarMulti.slot_complement d i]>
                (PolarMulti.OMEGA_S d)) d)
       else ret tt);
  do a <- gets PolarMulti.ACN;
  do x <- lift (getitem a i);
  run (if Req_dec_T x 0 then
         modify (fun d =>
           PolarMulti.with_ACN
             (<[i := PolarMulti.slot_azimuth d i]> (PolarMulti.ACN d)) d)
       else ret tt);
  do re <- gets PolarMulti.RE;
  run (if Req_dec_T re 0 then
         modify (fun d => PolarMulti.with_RE (PolarMulti.RM d) d)
       else ret tt);
  do rs <- gets PolarMulti.RS;
  if Req_dec_T rs 0 then
    modify (fun d => PolarMulti.with_RS (PolarMulti.RM d) d)
  else ret tt.

Definition Dipoles_post_init : M PolarMulti.t unit :=
  do n <- gets PolarMulti.N;
  for_each (range n) Dipoles_post_init_slot.

(** The body of the loop of [FFAG.post_init], for the slot [i]. *)
Definition FFAG_post_init_slot (i : nat) : M PolarMulti.t unit :=
  do a <- gets PolarMulti.OMEGA_E;
  do x <- lift (getitem a i);
  run (if Req_dec_T x 0 then
         modify (fun d =>
           PolarMulti.with_OMEGA_E
             (<[i := PolarMulti.slot_azimuth d i]> (PolarMulti.OMEGA_E d)) d)
       else ret tt);
  do a <- gets PolarMulti.OMEGA_S;
  do x <- lift (getitem a i);
  run (if Req_dec_T x 0 then
         modify (fun d =>
           PolarMulti.with_OMEGA_S
             (<[i := x - PolarMulti.slot_complement d i]>
                (PolarMulti.OMEGA_S d)) d)
       else ret tt);
  do a <- gets PolarMulti.ACN;
  do x <- lift (getitem a i);
  run (if Req_dec_T x 0 then
         modify (fun d =>
           PolarMulti.with_ACN
             (<[i := PolarMulti.slot_azimuth d i]> (PolarMulti.ACN d)) d)
       else ret tt);
  do re <- gets PolarMulti.RE;
  run (if Req_dec_T re 0 then
         modify (fun d => PolarMulti.with_RE (PolarMulti.RM d) d)
       else ret tt);
  do rs <- gets PolarMulti.RS;
  if Req_dec_T rs 0 then
    modify (fun d => PolarMulti.with_RS (PolarMulti.RM d) d)
  else ret tt.

Definition FFAG_post_init : M PolarMulti.t unit :=
  do n <- gets PolarMulti.N;
  for_each (range n) FFAG_post_init_slot.

(** [PolarMagnet.reference_angles] and its override in
    [PolarMultiMagnet]. *)
Definition PolarMagnet_reference_angles (s : PolarMagnet) : list R :=
  [py_or (ACENT s) 0].


(** ** Tracks

    A pandas table of tracks: the string column [LABEL1] and numeric
    columns.  A cell that is absent from a row of an existing column is a
    [NaN].  A [Series] is kept at the full length of the table, aligned with
    its rows by position (pandas aligns on the index); [t = tracks[mask]]
    is a copy, so the series built from [t] read the table as it was on
    entry, and only their entries at rows inside the mask are ever used. *)

Module DataFrame.

Record Row : Type := {
  LABEL1 : string;
  cells : gmap string R
}.

Record t : Type := {
  columns : list string;
  rows : list Row
}.

Definition Series : Type := list (option R).

(** [df[c]]: a missing column is a [KeyError]. *)
Definition getitem (df : t) (c : string) : result Series :=
  if bool_decide (c ∈ columns df) then
    Ok (map (fun r => cells r !! c) (rows df))
  else Raise KeyError.

(** [df.LABEL1 == label] *)
Definition mask (label : option string) (df : t) : list bool :=
  map (fun r => bool_decide (Some (LABEL1 r) = label)) (rows df).

Definition set_cell (c : string) (v : option R) (r : Row) : Row :=
  {| LABEL1 := LABEL1 r;
     cells := match v with
              | Some x => <[c := x]> (cells r)
              | None => delete c (cells r)
              end |}.

Fixpoint set_rows (m : list bool) (c : string) (s : Series) (rs : list Row)
  : list Row :=
  match rs, m, s with
  | r :: rs', b :: m', v :: s' =>
      (if b then set_cell c v r else r) :: set_rows m' c s' rs'
  | _, _, _ => rs
  end.

(** Assigning to a column that does not exist creates it. *)
Definition add_column (c : string) (cols : list string) : list string :=
  if bool_decide (c ∈ cols) then cols else cols ++ [c].

(** [df.loc[m, c] = s] *)
Definition loc_set (m : list bool) (c : string) (s : Series) (df : t) : t :=
  {| columns := add_column c (columns df);
     rows := set_rows m c s (rows df) |}.

Definition smap (f : R -> R) (s : Series) : Series :=
  map (fmap f) s.

Definition szip (f : R -> R -> R) (a b : Series) : Series :=
  zip_with (fun x y =>
              match x, y with
              | Some u, Some v => Some (f u v)
              | _, _ => None
              end) a b.

(** Arithmetic of a series with a scalar that may be [NaN]. *)
Definition sadd (s : Series) (k : option R) : Series :=
  map (fun x =>
         match x, k with
         | Some u, Some v => Some (u + v)
         | _, _ => None
         end) s.

End DataFrame.

(** [tracks.loc[tracks.LABEL1 == label, c] = rhs]: the right-hand side is
    evaluated first. *)
Definition assign (label : option string) (c : string)
    (rhs : result DataFrame.Series) : M DataFrame.t unit :=
  do s <- lift rhs;
  do m <- gets (DataFrame.mask label);
  modify (DataFrame.loc_set m c s).

Definition on_series (f : DataFrame.Series -> DataFrame.Series)
    (r : result DataFrame.Series) : result DataFrame.Series :=
  match r with
  | Ok s => Ok (f s)
  | Raise e => Raise e
  end.

Definition on_series2
    (f : DataFrame.Series -> DataFrame.Series -> DataFrame.Series)
    (a b : result DataFrame.Series) : result DataFrame.Series :=
  match a, b with
  | Ok x, Ok y => Ok (f x y)
  | Raise e, _ => Raise e
  | _, Raise e => Raise e
  end.

(** [min] and [max] of a column; [NaN] on an empty column. *)
Definition column_min (xs : list R) : option R :=
  match xs with
  | [] => None
  | x :: xs' => Some (fold_right Rmin x xs')
  end.


Definition Patchable_entry_s (p : Patchable) : option R :=
  match _reference_trajectory p with
  | Some col => column_min col
  | None => Some 0
  end.


Definition Patchable_adjust_tracks_variables (p : Patchable)
  : M DataFrame.t unit :=
  do t <- gets (fun tracks : DataFrame.t => tracks);
  run assign (LABEL1 p) "SREF"
        (on_series (fun x => DataFrame.sadd x (Patchable_entry_s p))
           (DataFrame.getitem t "X"));
  run assign (LABEL1 p) "YT" (DataFrame.getitem t "Y");
  run try_except
        (assign (LABEL1 p) "YT0" (DataFrame.getitem t "Yo"))
        KeyError (ret tt);
  run assign (LABEL1 p) "ZT" (DataFrame.getitem t "Z");
  try_except
    (assign (LABEL1 p) "ZT0" (DataFrame.getitem t "Zo"))
    KeyError (ret tt).

Definition PolarMagnet_adjust_tracks_variables (p : Patchable)
    (s : PolarMagnet) : M DataFrame.t unit :=
  do t <- gets (fun tracks : DataFrame.t => tracks);
  do radius <- lift (match RM s with
                     | Some r => Ok r
                     | None => Raise AttributeError
                     end);
  let angles := on_series (DataFrame.smap (fun x => 100 * x))
                  (DataFrame.getitem t "X") in
  let sub_radius := DataFrame.smap (fun y => y - radius) in
  let times f a b := on_series2 (DataFrame.szip (fun u v => u * f v)) a b in
  run assign (LABEL1 p) "ANGLE" angles;
  run assign (LABEL1 p) "R" (DataFrame.getitem t "Y");
  run assign (LABEL1 p) "R0" (DataFrame.getitem t "Yo");
  run assign (LABEL1 p) "SREF"
        (on_series (fun a => DataFrame.sadd
                               (DataFrame.smap (fun x => radius * x) a)
                               (Patchable_entry_s p)) angles);
  run assign (LABEL1 p) "YT"
        (on_series sub_radius (DataFrame.getitem t "Y"));
  run assign (LABEL1 p) "YT0"
        (on_series sub_radius (DataFrame.getitem t "Yo"));
  run assign (LABEL1 p) "ZT" (DataFrame.getitem t "Z");
  run assign (LABEL1 p) "ZT0" (DataFrame.getitem t "Zo");
  run assign (LABEL1 p) "X" (times sin (DataFrame.getitem t "Y") angles);
  run assign (LABEL1 p) "X0" (times sin (DataFrame.getitem t "Yo") angles);
  run assign (LABEL1 p) "Y"
        (on_series sub_radius (times cos (DataFrame.getitem t "Y") angles));
  assign (LABEL1 p) "Y0"
    (on_series sub_radius (times cos (DataFrame.getitem t "Yo") angles)).

(** ** A concrete frame type

    Modelled from the spec: an instance of the [Frame] contract that records
    the moves applied to a frame since the global reference frame; it is
    used to run the placement code on concrete inputs. *)

Inductive Move : Type :=
| TranslateX (d : R)
| TranslateY (d : R)
| RotateZ (a : R).

Definition Moves : Type := list Move.

#[global] Instance Moves_Frame : Frame Moves := {|
  translate_x d f := f ++ [TranslateX d];
  translate_y d f := f ++ [TranslateY d];
  rotate_z a f := f ++ [RotateZ a]
|}.

(** A world holding one frame object, the global reference frame, and an
    element that was just instantiated. *)
Definition World0 : World Moves :=
  {| heap := [[]]; self := Patchable__init__ |}.

(** * Specification predicates and sample inputs *)




(** The element has no entry frame and no derived frame. *)
Definition unplaced {F : Type} (w : World F) : Prop :=
  _entry (self w) = None /\ _entry_patched (self w) = None /\
  _exit (self w) = None /\ _exit_patched (self w) = None /\
  _center (self w) = None.

(** The alignment mode of a Cartesian element is unset or one of 0..3. *)
Definition KPOS_supported (el : Element) : Prop :=
  match el with
  | Cartesian s => KPOS_in s [0; 1; 2; 3]%Z = true \/ KPOS s = None
  | _ => True
  end.

(** The value [post_init] leaves in [ACN[i]], given the value [x] it
    found there. *)
Definition defaulted (d : PolarMulti.t) (i : nat) (x : R) : R :=
  if Req_dec_T x 0 then PolarMulti.slot_azimuth d i else x.

(** What the first [i] rounds of the loop keep and establish. *)
Definition slots_done (d : PolarMulti.t) (i : nat) (d' : PolarMulti.t)
  : Prop :=
  PolarMulti.N d' = PolarMulti.N d /\ PolarMulti.AT d' = PolarMulti.AT d /\
  length (PolarMulti.OMEGA_E d') = length (PolarMulti.OMEGA_E d) /\
  length (PolarMulti.OMEGA_S d') = length (PolarMulti.OMEGA_S d) /\
  length (PolarMulti.ACN d') = length (PolarMulti.ACN d) /\
  PolarMulti.DRM d' = PolarMulti.DRM d /\
  forall j : nat,
    PolarMulti.ACN d' !! j =
      if bool_decide (j < i)%nat then defaulted d j <$> PolarMulti.ACN d !! j
      else PolarMulti.ACN d !! j.




(** A three-slot element left at the defaults of the class. *)
Definition three_slots_defaults : PolarMulti.t :=
  {| PolarMulti.N := 3;
     PolarMulti.AT := 1;
     PolarMulti.RM := 1;
     PolarMulti.ACN := [0; 0; 0; 0; 0];
     PolarMulti.DRM := [0; 0; 0; 0; 0];
     PolarMulti.OMEGA_E := [0; 0; 0; 0; 0];
     PolarMulti.OMEGA_S := [0; 0; 0; 0; 0];
     PolarMulti.RE := 0;
     PolarMulti.RS := 0 |}.

(** The world after [place] of the element on the global reference frame:
    the entry frame is the object 1, a copy of the object 0. *)
Definition Placed0 : World Moves :=
  {| heap := [[]; []]; self := with_entry (Some 1%nat) Patchable__init__ |}.

(** A quadrupole-like Cartesian element aligned with [KPOS = 1]. *)
Definition sample_quadrupole : CartesianMagnet :=
  {| KPOS := Some 1%Z; XL := Some 2; X_E := Some 1; X_S := Some 1;
     XCE := Some 0; YCE := Some 0; ALE := Some 0; B0 := None; B1 := None;
     KINEMATICS := None; LENGTH_IS_ARC_LENGTH := false |}.

(** A bend aligned with [KPOS = 2]. *)
Definition sample_bend : CartesianMagnet :=
  {| KPOS := Some 2%Z; XL := Some 2; X_E := Some 1; X_S := Some 1;
     XCE := Some 0; YCE := Some 0; ALE := Some 0; B0 := None; B1 := Some 1;
     KINEMATICS := None; LENGTH_IS_ARC_LENGTH := false |}.

(** A bend aligned with [KPOS = 3] that was given no [KINEMATICS]. *)
Definition bend_without_kinematics : CartesianMagnet :=
  {| KPOS := Some 3%Z; XL := Some 1; X_E := None; X_S := None;
     XCE := None; YCE := None; ALE := None; B0 := None; B1 := Some 1;
     KINEMATICS := None; LENGTH_IS_ARC_LENGTH := false |}.


(** A Cartesian element whose alignment mode is none of 0..3. *)
Definition sample_KPOS5 : CartesianMagnet :=
  {| KPOS := Some 5%Z; XL := Some 2; X_E := None; X_S := None;
     XCE := None; YCE := None; ALE := None; B0 := None; B1 := None;
     KINEMATICS := None; LENGTH_IS_ARC_LENGTH := false |}.

(** A polar element. *)
Definition sample_dipole : PolarMagnet :=
  {| AT := Some 1; RM := Some 2; ACENT := None; RE := Some 3;
     TE := Some 4; RS := Some 5; TS := Some 6 |}.

(** The slots of an unplaced element labelled [D1], and a table of two
    tracks, the first one recorded in [D1], the second one in [Q1]. *)
Definition sample_D1 : Patchable :=
  {| LABEL1 := Some "D1"; _entry := None; _entry_patched := None;
     _exit := None; _exit_patched := None; _frenet := None;
     _center := None; _reference_trajectory := None |}.

Definition sample_row (label : string) : DataFrame.Row :=
  {| DataFrame.LABEL1 := label;
     DataFrame.cells :=
       <["X" := 1]> (<["Y" := 2]> (<["Z" := 0]>
         (<["Yo" := 2]> (<["Zo" := 0]> (∅ : gmap string R))))) |}.

Definition sample_tracks : DataFrame.t :=
  {| DataFrame.columns := ["X"; "Y"; "Z"; "Yo"; "Zo"];
     DataFrame.rows := [sample_row "D1"; sample_row "Q1"] |}.

(** The frames the spec gives to a placed element, from the value [v] of
    its entry frame: the formulas of the spec's sections 4.1 (point-like),
    4.2 (Cartesian, modes 0, 1, 2; with the mode unset the entrance patch
    is not applied and the exit side is that of mode 1) and 4.3 (polar). *)
Record Expected (F : Type) : Type := {
  exp_entry_patched : F;
  exp_center : F;
  exp_exit : F;
  exp_exit_patched : F
}.
Arguments exp_entry_patched {F} e.
Arguments exp_center {F} e.
Arguments exp_exit {F} e.
Arguments exp_exit_patched {F} e.

Definition expected {F : Type} `{Frame F} (el : Element) (v : F)
  : Expected F :=
  match el with
  | PointLike =>
      {| exp_entry_patched := v; exp_center := v; exp_exit := v;
         exp_exit_patched := v |}
  | Cartesian s =>
      let ep :=
        if KPOS_in s [0; 1; 2]%Z then
          rotate_z (- val (ALE s))
            (translate_y (val (YCE s))
               (translate_x (val (XCE s))
                  (translate_x (- val (X_E s)) v)))
        else v in
      let x := translate_x (val (XL s) + val (X_E s)) ep in
      {| exp_entry_patched := ep;
         exp_center := v;
         exp_exit := x;
         exp_exit_patched :=
           if KPOS_in s [0; 2]%Z then
             translate_x (- val (X_S s)) (translate_x (val (XL s)) v)
           else translate_x (- val (X_S s)) x |}
  | Polar s =>
      let ep :=
        rotate_z (- val (TE s))
          (translate_y (val (RM s) - val (RE s)) v) in
      let c := translate_y (- val (RM s)) ep in
      let x := rotate_z (- val (AT s)) (translate_y (val (RM s)) c) in
      {| exp_entry_patched := ep;
         exp_center := c;
         exp_exit := x;
         exp_exit_patched :=
           rotate_z (val (TS s))
             (translate_y (val (RS s) - val (RM s)) x) |}
  end.

(** The elements these formulas cover: a Cartesian element has a length
    and its mode is unset or one of 0, 1, 2; a polar element declares
    [TE]. *)
Definition regular (el : Element) : Prop :=
  match el with
  | PointLike => True
  | Cartesian s =>
      XL s <> None /\ (KPOS s = None \/ KPOS_in s [0; 1; 2]%Z = true)
  | Polar s => TE s <> None
  end.

(** The slot [o] is unset or names a frame of value [x]. *)
Definition holds {F : Type} (o : option loc) (x : F) (h : list F) : Prop :=
  forall l : loc, o = Some l -> h !! l = Some x.

(** The element is placed on a frame of value [v] and every frame it has
    cached is the expected one. *)
Definition consistent {F : Type} `{Frame F} (el : Element) (v : F)
    (w : World F) : Prop :=
  (exists l : loc, _entry (self w) = Some l /\ heap w !! l = Some v) /\
  holds (_entry_patched (self w)) (exp_entry_patched (expected el v))
    (heap w) /\
  holds (_center (self w)) (exp_center (expected el v)) (heap w) /\
  holds (_exit (self w)) (exp_exit (expected el v)) (heap w) /\
  holds (_exit_patched (self w)) (exp_exit_patched (expected el v)) (heap w).

(** The four derived-frame accessors. *)
Inductive Accessor : Type :=
| A_entry_patched
| A_center
| A_exit
| A_exit_patched.

Definition access {F : Type} `{Frame F} (a : Accessor) (el : Element)
  : M (World F) (option loc) :=
  match a with
  | A_entry_patched => entry_patched el
  | A_center => center el
  | A_exit => exit el
  | A_exit_patched => exit_patched el
  end.

Definition expected_of {F : Type} (a : Accessor) (e : Expected F) : F :=
  match a with
  | A_entry_patched => exp_entry_patched e
  | A_center => exp_center e
  | A_exit => exp_exit e
  | A_exit_patched => exp_exit_patched e
  end.

(** The states of an element reached from [w0] by reading its derived
    frames, in any order and any number of times. *)
Inductive reachable {F : Type} `{Frame F} (el : Element) (w0 : World F)
  : World F -> Prop :=
| reachable_start : reachable el w0 w0
| reachable_access (w : World F) (a : Accessor) :
    reachable el w0 w -> reachable el w0 (fst (access a el w)).

(** What one assignment does to the row that was [r] on entry, [g r] being
    the row as it is now and [f r] the entry of the series for it. *)
Definition assigned (label : option string) (c : string)
    (f : DataFrame.Row -> option R) (g : DataFrame.Row -> DataFrame.Row)
    (r : DataFrame.Row) : DataFrame.Row :=
  if bool_decide (Some (DataFrame.LABEL1 r) = label)
  then DataFrame.set_cell c (f r) (g r)
  else g r.

Definition lift2 (f : R -> R -> R) (x y : option R) : option R :=
  match x, y with
  | Some u, Some v => Some (f u v)
  | _, _ => None
  end.

(** *** [Patchable.frenet_orientation]

    The accessor reads [self.entry_patched], which resolves to the
    accessor of the element's class. *)
Definition frenet_orientation {F : Type} `{Frame F} (el : Element)
  : M (World F) (option loc) :=
  do c <- getattr _frenet;
  run (match c with
       | None =>
           do e <- entry_patched el;
           do l <- construct e;
           setattr (with_frenet (Some l))
       | Some _ => ret tt
       end);
  getattr _frenet.

(** The slot an accessor caches its frame in. *)
Definition slot_of (a : Accessor) : Patchable -> option loc :=
  match a with
  | A_entry_patched => _entry_patched
  | A_center => _center
  | A_exit => _exit
  | A_exit_patched => _exit_patched
  end.

(** The frames of [w] are all in [w'], unchanged, and the entry slot is
    the same. *)
Definition extends {F : Type} (w w' : World F) : Prop :=
  (exists extra : list F, heap w' = heap w ++ extra) /\
  _entry (self w') = _entry (self w).

(** The state reached from [base] holds one more frame, and the slot read
    by [f] names it. *)
Definition top {F : Type} (base : World F) (f : Patchable -> option loc)
    (w : World F) : Prop :=
  (exists x : F, heap w = heap base ++ [x]) /\
  f (self w) = Some (length (heap base)) /\
  _entry (self w) = _entry (self base).

(** A computation that only adds frames. *)
Definition extending {F A : Type} (m : M (World F) A) : Prop :=
  forall w : World F, extends w (fst (m w)).

(** A computation that only moves the frame named by the slot on top. *)
Definition keeps_top {F A : Type} (f : Patchable -> option loc)
    (m : M (World F) A) : Prop :=
  forall base w : World F, top base f w -> top base f (fst (m w)).

(** A slot and its setter. *)
Definition slot_setter (f : Patchable -> option loc)
    (g : option loc -> Patchable -> Patchable) : Prop :=
  forall (v : option loc) (p : Patchable),
    f (g v p) = v /\ _entry (g v p) = _entry p.

(** ** Output of a run ([zgoubi.py])

    [find_labeled_output(out, label)] collects, from the lines of the
    result file, the block printed for the element labelled [label]. *)

(** [sub in l] on strings. *)
Fixpoint contains (sub l : string) : bool :=
  String.prefix sub l ||
  match l with
  | EmptyString => false
  | String _ l' => contains sub l'
  end.

(** [str(label)]: the label of an element is a string or [None]. *)
Definition str (label : option string) : string :=
  match label with
  | Some s => s
  | None => "None"
  end.

(** [str(label) in l and 'Keyword' in l] *)
Definition is_header (label : option string) (l : string) : bool :=
  contains (str label) l && contains "Keyword" l.

(** The [for] loop, from the lines still to read and [data]; the [break]
    returns [data] as it is. *)
Fixpoint find_labeled_output_loop (label : option string)
    (out data : list string) : list string :=
  match out with
  | [] => data
  | l :: out' =>
      if is_header label l then
        find_labeled_output_loop label out' (data ++ [l])
      else if bool_decide (0 < length data)%nat then
        if contains "****" l then data
        else find_labeled_output_loop label out' (data ++ [l])
      else find_labeled_output_loop label out' data
  end.

Definition find_labeled_output (out : list string) (label : option string)
  : list string :=
  List.filter (fun l => negb (String.length l =? 0)%nat)
    (find_labeled_output_loop label out []).

(** The block of an element, said directly: the lines from the first
    header of the element on, up to the first later line that holds
    ['****'] and is no header of the element. *)
Fixpoint block_body (label : option string) (out : list string)
  : list string :=
  match out with
  | [] => []
  | l :: out' =>
      if is_header label l || negb (contains "****" l)
      then l :: block_body label out'
      else []
  end.

Fixpoint block (label : option string) (out : list string) : list string :=
  match out with
  | [] => []
  | l :: out' =>
      if is_header label l then l :: block_body label out'
      else block label out'
  end.

(** The value [post_init] leaves in [OMEGA_S[i]], given the value [x] it
    found there, and in [RE] and [RS]. *)
Definition defaulted_exit (d : PolarMulti.t) (i : nat) (x : R) : R :=
  if Req_dec_T x 0 then PolarMulti.slot_azimuth d i - PolarMulti.AT d
  else x.

Definition defaulted_radius (d : PolarMulti.t) (x : R) : R :=
  if Req_dec_T x 0 then PolarMulti.RM d else x.

(** An array whose first [i] entries went through [g]. *)
Definition upto (i : nat) (g : nat -> R -> R) (a : list R) : list R :=
  imap (fun j x => if bool_decide (j < i)%nat then g j x else x) a.

(** The element after [i] rounds of the loop of [post_init]. *)
Definition defaults_upto (d : PolarMulti.t) (i : nat) : PolarMulti.t :=
  {| PolarMulti.N := PolarMulti.N d;
     PolarMulti.AT := PolarMulti.AT d;
     PolarMulti.RM := PolarMulti.RM d;
     PolarMulti.ACN := upto i (defaulted d) (PolarMulti.ACN d);
     PolarMulti.DRM := PolarMulti.DRM d;
     PolarMulti.OMEGA_E := upto i (defaulted d) (PolarMulti.OMEGA_E d);
     PolarMulti.OMEGA_S := upto i (defaulted_exit d) (PolarMulti.OMEGA_S d);
     PolarMulti.RE :=
       if bool_decide (0 < i)%nat
       then defaulted_radius d (PolarMulti.RE d) else PolarMulti.RE d;
     PolarMulti.RS :=
       if bool_decide (0 < i)%nat
       then defaulted_radius d (PolarMulti.RS d) else PolarMulti.RS d |}.

(** ** [Dipole]

    The parameters read by [Dipole.post_init]; the class declares a
    default for each. *)
Module Dipole.

Record t : Type := {
  AT : R;
  RM : R;
  ACENT : R;
  OMEGA_E : R;
  OMEGA_S : R;
  RE : R;
  RS : R
}.

Definition with_OMEGA_E (v : R) (d : t) : t :=
  {| AT := AT d; RM := RM d; ACENT := ACENT d; OMEGA_E := v;
     OMEGA_S := OMEGA_S d; RE := RE d; RS := RS d |}.

Definition with_OMEGA_S (v : R) (d : t) : t :=
  {| AT := AT d; RM := RM d; ACENT := ACENT d; OMEGA_E := OMEGA_E d;
     OMEGA_S := v; RE := RE d; RS := RS d |}.

Definition with_ACENT (v : R) (d : t) : t :=
  {| AT := AT d; RM := RM d; ACENT := v; OMEGA_E := OMEGA_E d;
     OMEGA_S := OMEGA_S d; RE := RE d; RS := RS d |}.

Definition with_RE (v : R) (d : t) : t :=
  {| AT := AT d; RM := RM d; ACENT := ACENT d; OMEGA_E := OMEGA_E d;
     OMEGA_S := OMEGA_S d; RE := v; RS := RS d |}.

Definition with_RS (v : R) (d : t) : t :=
  {| AT := AT d; RM := RM d; ACENT := ACENT d; OMEGA_E := OMEGA_E d;
     OMEGA_S := OMEGA_S d; RE := RE d; RS := v |}.

End Dipole.

Definition Dipole_post_init (d : Dipole.t) : Dipole.t :=
  let d :=
    if Req_dec_T (Dipole.OMEGA_E d) 0
    then Dipole.with_OMEGA_E (Dipole.AT d / 2) d else d in
  let d :=
    if Req_dec_T (Dipole.OMEGA_S d) 0
    then Dipole.with_OMEGA_S (Dipole.OMEGA_S d - Dipole.AT d / 2) d
    else d in
  let d :=
    if Req_dec_T (Dipole.ACENT d) 0
    then Dipole.with_ACENT (Dipole.AT d / 2) d else d in
  let d :=
    if Req_dec_T (Dipole.RE d) 0
    then Dipole.with_RE (Dipole.RM d) d else d in
  if Req_dec_T (Dipole.RS d) 0
  then Dipole.with_RS (Dipole.RM d) d else d.

(** A [Dipole] written as a [Dipoles] of one magnet. *)
Definition one_dipole (d : Dipole.t) : PolarMulti.t :=
  {| PolarMulti.N := 1;
     PolarMulti.AT := Dipole.AT d;
     PolarMulti.RM := Dipole.RM d;
     PolarMulti.ACN := [Dipole.ACENT d];
     PolarMulti.DRM := [];
     PolarMulti.OMEGA_E := [Dipole.OMEGA_E d];
     PolarMulti.OMEGA_S := [Dipole.OMEGA_S d];
     PolarMulti.RE := Dipole.RE d;
     PolarMulti.RS := Dipole.RS d |}.

(** ** [Quadrupole] and [Octupole]

    The two classes have the same [post_init] and the same [gradient]
    property; the parameters these read are declared with defaults. *)
Module Quadrupole.

Record t : Type := {
  R0 : R;
  B0 : R;
  X_E : R;
  LAM_E : R;
  X_S : R;
  LAM_S : R
}.

Definition with_X_E (v : R) (q : t) : t :=
  {| R0 := R0 q; B0 := B0 q; X_E := v; LAM_E := LAM_E q;
     X_S := X_S q; LAM_S := LAM_S q |}.

Definition with_X_S (v : R) (q : t) : t :=
  {| R0 := R0 q; B0 := B0 q; X_E := X_E q; LAM_E := LAM_E q;
     X_S := v; LAM_S := LAM_S q |}.

Definition with_B0 (v : R) (q : t) : t :=
  {| R0 := R0 q; B0 := v; X_E := X_E q; LAM_E := LAM_E q;
     X_S := X_S q; LAM_S := LAM_S q |}.

End Quadrupole.

Definition Quadrupole_post_init (q : Quadrupole.t) : Quadrupole.t :=
  let q :=
    if Req_dec_T (Quadrupole.X_E q) 0 then
      if Req_dec_T (Quadrupole.R0 q) 0 then q
      else if Req_dec_T (Quadrupole.LAM_E q) 0 then q
      else Quadrupole.with_X_E (2 * Quadrupole.R0 q) q
    else q in
  if Req_dec_T (Quadrupole.X_S q) 0 then
    if Req_dec_T (Quadrupole.R0 q) 0 then q
    else if Req_dec_T (Quadrupole.LAM_S q) 0 then q
    else Quadrupole.with_X_S (2 * Quadrupole.R0 q) q
  else q.

(** The getter of [gradient]: [self.B0 / self.R0]; the division by a zero
    radius raises ([None]). *)
Definition Quadrupole_gradient (q : Quadrupole.t) : option R :=
  if Req_dec_T (Quadrupole.R0 q) 0 then None
  else Some (Quadrupole.B0 q / Quadrupole.R0 q).

(** The setter of [gradient]: [self.B0 = g * self.R0]. *)
Definition Quadrupole_set_gradient (g : R) (q : Quadrupole.t)
  : Quadrupole.t :=
  Quadrupole.with_B0 (g * Quadrupole.R0 q) q.

(** ** Geometry of a polar magnet: the static methods of [PolarMagnet] *)

Definition drift_length_from_polar (radius magnet_angle poles_angle : R)
  : R :=
  radius * tan ((magnet_angle - poles_angle) / 2).

Definition efb_offset_from_polar (radius magnet_angle poles_angle : R)
  : R :=
  radius / cos ((magnet_angle - poles_angle) / 2).

Definition efb_angle_from_polar (magnet_angle poles_angle : R) : R :=
  - (magnet_angle - poles_angle) / 2.

(** A Cartesian magnet whose length is given along the arc. *)
Definition sample_arc_bend : CartesianMagnet :=
  {| KPOS := Some 1%Z; XL := Some 1; X_E := None; X_S := None;
     XCE := None; YCE := None; ALE := None; B0 := None; B1 := Some 1;
     KINEMATICS := Some {| brho := 1 |}; LENGTH_IS_ARC_LENGTH := true |}.

Definition sample_Q : Quadrupole.t :=
  {| Quadrupole.R0 := 1; Quadrupole.B0 := 0; Quadrupole.X_E := 0;
     Quadrupole.LAM_E := 0; Quadrupole.X_S := 0; Quadrupole.LAM_S := 0 |}.

(** ** Path lengths ([Patchable.optical_length], [Drift.entry_s]) *)


(** [r.iloc[i]]: out of range is an [IndexError]. *)
Definition iloc (r : list R) (i : nat) : result R :=
  match r !! i with
  | Some v => Ok v
  | None => Raise IndexError
  end.

(** [Drift.entry_s]: [r.min() - (r.iloc[1] - r.iloc[0])]. *)
Definition Drift_entry_s (p : Patchable) : result (option R) :=
  match _reference_trajectory p with
  | Some r =>
      let m := column_min r in
      match iloc r 1 with
      | Raise e => Raise e
      | Ok s1 =>
          match iloc r 0 with
          | Raise e => Raise e
          | Ok s0 => Ok ((fun x => x - (s1 - s0)) <$> m)
          end
      end
  | None => Ok (Some 0)
  end.

(** ** Tracks in a drift ([Drift.adjust_tracks_variables]) *)

(** [tracks.loc[tracks.LABEL1 == label, c] = v] with a scalar [v]. *)
Definition assign_scalar (label : option string) (c : string) (v : R)
  : M DataFrame.t unit :=
  do m <- gets (DataFrame.mask label);
  modify (DataFrame.loc_set m c (map (fun _ => Some v) m)).

Definition Drift_adjust_tracks_variables (p : Patchable)
  : M DataFrame.t unit :=
  do t <- gets (fun tracks : DataFrame.t => tracks);
  run assign (LABEL1 p) "SREF"
        (match DataFrame.getitem t "X" with
         | Raise e => Raise e
         | Ok x =>
             match Drift_entry_s p with
             | Raise e => Raise e
             | Ok s => Ok (DataFrame.sadd x s)
             end
         end);
  run assign (LABEL1 p) "YT" (DataFrame.getitem t "Y");
  run assign (LABEL1 p) "YT0" (DataFrame.getitem t "Yo");
  run assign (LABEL1 p) "ZT" (DataFrame.getitem t "Z");
  run assign (LABEL1 p) "ZT0" (DataFrame.getitem t "Zo");
  run assign_scalar (LABEL1 p) "BX" 0;
  run assign_scalar (LABEL1 p) "BY" 0;
  run assign_scalar (LABEL1 p) "BZ" 0;
  run assign_scalar (LABEL1 p) "EX" 0;
  run assign_scalar (LABEL1 p) "EY" 0;
  assign_scalar (LABEL1 p) "EZ" 0.

(** ** Tracks in a spiral FFAG ([FFAGSpirale.adjust_tracks_variables])

    The override of the polar re-projection: the angle of a track is
    counted from the middle of the magnet. *)
Definition FFAGSpirale_adjust_tracks_variables (p : Patchable)
    (d : PolarMulti.t) : M DataFrame.t unit :=
  do t <- gets (fun tracks : DataFrame.t => tracks);
  let radius := PolarMulti.RM d in
  let angles :=
    on_series (DataFrame.smap (fun x => 100 * x + PolarMulti.AT d / 2))
      (DataFrame.getitem t "X") in
  let sub_radius := DataFrame.smap (fun y => y - radius) in
  let times f a b := on_series2 (DataFrame.szip (fun u v => u * f v)) a b in
  run assign (LABEL1 p) "ANGLE" angles;
  run assign (LABEL1 p) "R" (DataFrame.getitem t "Y");
  run assign (LABEL1 p) "R0" (DataFrame.getitem t "Yo");
  run assign (LABEL1 p) "SREF"
        (on_series (fun a => DataFrame.sadd
                               (DataFrame.smap (fun x => radius * x) a)
                               (Patchable_entry_s p)) angles);
  run assign (LABEL1 p) "YT"
        (on_series sub_radius (DataFrame.getitem t "Y"));
  run assign (LABEL1 p) "YT0"
        (on_series sub_radius (DataFrame.getitem t "Yo"));
  run assign (LABEL1 p) "ZT" (DataFrame.getitem t "Z");
  run assign (LABEL1 p) "ZT0" (DataFrame.getitem t "Zo");
  run assign (LABEL1 p) "X" (times sin (DataFrame.getitem t "Y") angles);
  run assign (LABEL1 p) "X0" (times sin (DataFrame.getitem t "Yo") angles);
  run assign (LABEL1 p) "Y"
        (on_series sub_radius (times cos (DataFrame.getitem t "Y") angles));
  assign (LABEL1 p) "Y0"
    (on_series sub_radius (times cos (DataFrame.getitem t "Yo") angles)).

(** A drift with a reference trajectory of three samples. *)
Definition sample_drift : Patchable :=
  {| LABEL1 := Some "D1"; _entry := None; _entry_patched := None;
     _exit := None; _exit_patched := None; _frenet := None;
     _center := None; _reference_trajectory := Some [1; 3; 2] |}.

(** A table of tracks without the columns [Yo] and [Zo]. *)
Definition sample_tracks_XYZ : DataFrame.t :=
  {| DataFrame.columns := ["X"; "Y"; "Z"];
     DataFrame.rows := [sample_row "D1"; sample_row "Q1"] |}.


(** * Properties *)

(** ** The frames of an element *)

Ltac unfold_accessors :=
  unfold entry_patched, center, exit, exit_patched, entry,
    CartesianMagnet_exit_patched, CartesianMagnet_exit,
    CartesianMagnet_entry_patched,
    PolarMagnet_exit_patched, PolarMagnet_exit, PolarMagnet_center,
    PolarMagnet_entry_patched,
    Patchable_exit_patched, Patchable_exit, Patchable_center,
    Patchable_entry_patched, Patchable_entry.

Ltac unfold_monad :=
  unfold call, construct, getattr, setattr, bind, gets, modify, ret, raise,
    lift.

Section Properties.

Context {F : Type} `{Frame F}.

(** *** Symbolic execution *)

Lemma bind_Ok {S A B : Type} (m : M S A) (k : A -> M S B) s s' a :
  m s = (s', Ok a) -> bind m k s = k a s'.
Proof. intros E. unfold bind. now rewrite E. Qed.

Lemma bind_Raise {S A B : Type} (m : M S A) (k : A -> M S B) s s' e :
  m s = (s', Raise e) -> bind m k s = (s', Raise e).
Proof. intros E. unfold bind. now rewrite E. Qed.

Lemma alter_last (g : F -> F) (h : list F) (v : F) :
  alter g (length h) (h ++ [v]) = h ++ [g v].
Proof.
  induction h as [|x h IH]; simpl; [reflexivity|].
  f_equal. exact IH.
Qed.

Lemma lookup_last (h : list F) (v : F) : (h ++ [v]) !! length h = Some v.
Proof. induction h as [|x h IH]; simpl; auto. Qed.

Lemma construct_Some (w : World F) (l : loc) (v : F) :
  heap w !! l = Some v ->
  construct (Some l) w =
    ({| heap := heap w ++ [v]; self := self w |}, Ok (length (heap w))).
Proof. intros E. unfold construct. now rewrite E. Qed.

(** *** Computations that depend on the placement only *)
















(** *** [clear_placement], [place] and [entry] *)

Lemma clear_placement_run (el : Element) (w : World F) :
  clear_placement el w =
    ({| heap := heap w;
        self := with_center None (with_exit_patched None (with_exit None
                  (with_entry_patched None (with_entry None (self w))))) |},
     Ok tt).
Proof. reflexivity. Qed.

Lemma clear_placement_unplaced (el : Element) (w : World F) :
  unplaced (fst (clear_placement el w)).
Proof. rewrite clear_placement_run. repeat split. Qed.

Lemma init_unplaced (h : list F) :
  unplaced {| heap := h; self := Patchable__init__ |}.
Proof. repeat split. Qed.

Lemma place_run (el : Element) (w : World F) (f : loc) (v : F) :
  heap w !! f = Some v ->
  place el (Some f) w =
    ({| heap := heap w ++ [v];
        self := with_entry (Some (length (heap w)))
                  (self (fst (clear_placement el w))) |},
     Ok tt).
Proof.
  intros Hf. unfold place, Patchable_place.
  rewrite (bind_Ok _ _ _ _ _ (clear_placement_run el w)).
  erewrite bind_Ok; [|apply construct_Some; exact Hf].
  reflexivity.
Qed.

(** C10. On an element that was never placed, and on any element after
    [clear_placement()], the accessor [entry] returns [None]: it raises
    nothing and changes nothing. *)
Theorem C10_entry_of_unplaced_is_None (el : Element) :
  (forall h : list F,
     entry el {| heap := h; self := Patchable__init__ |} =
       ({| heap := h; self := Patchable__init__ |}, Ok None)) /\
  (forall w : World F,
     snd (clear_placement el w) = Ok tt /\
     entry el (fst (clear_placement el w)) =
       (fst (clear_placement el w), Ok None)).
Proof.
  split.
  - intros h. reflexivity.
  - intros w. rewrite clear_placement_run. split; reflexivity.
Qed.


(** *** Access before placement *)

Lemma Patchable_entry_patched_unplaced (w : World F) :
  _entry (self w) = None -> _entry_patched (self w) = None ->
  Patchable_entry_patched w = (w, Raise TypeError).
Proof.
  intros E1 E2. unfold Patchable_entry_patched, Patchable_entry.
  unfold_monad. rewrite E2, E1. reflexivity.
Qed.

Lemma CartesianMagnet_entry_patched_unplaced s (w : World F) :
  _entry (self w) = None -> _entry_patched (self w) = None ->
  CartesianMagnet_entry_patched s w = (w, Raise TypeError).
Proof.
  intros E1 E2. unfold CartesianMagnet_entry_patched, Patchable_entry.
  unfold_monad. rewrite E2, E1. reflexivity.
Qed.

Lemma PolarMagnet_entry_patched_unplaced s (w : World F) :
  _entry (self w) = None -> _entry_patched (self w) = None ->
  PolarMagnet_entry_patched s w = (w, Raise TypeError).
Proof.
  intros E1 E2. unfold PolarMagnet_entry_patched, Patchable_entry.
  unfold_monad. rewrite E2, E1. reflexivity.
Qed.

Lemma entry_patched_unplaced (el : Element) (w : World F) :
  unplaced w -> entry_patched el w = (w, Raise TypeError).
Proof.
  intros (E1 & E2 & _). destruct el; simpl.
  - now apply Patchable_entry_patched_unplaced.
  - now apply CartesianMagnet_entry_patched_unplaced.
  - now apply PolarMagnet_entry_patched_unplaced.
Qed.

Lemma center_unplaced (el : Element) (w : World F) :
  unplaced w -> center el w = (w, Raise TypeError).
Proof.
  intros U. pose proof U as (E1 & E2 & E3 & E4 & E5).
  destruct el as [|s|s]; simpl.
  - unfold Patchable_center, Patchable_entry. unfold_monad.
    rewrite E5, E1. reflexivity.
  - unfold Patchable_center, Patchable_entry. unfold_monad.
    rewrite E5, E1. reflexivity.
  - unfold PolarMagnet_center.
    erewrite bind_Ok by (unfold getattr, gets; reflexivity).
    rewrite E5.
    erewrite bind_Raise; [reflexivity|].
    erewrite bind_Raise; [reflexivity|].
    now apply PolarMagnet_entry_patched_unplaced.
Qed.

Lemma exit_unplaced (el : Element) (w : World F) :
  unplaced w -> exit el w = (w, Raise TypeError).
Proof.
  intros U. pose proof U as (E1 & E2 & E3 & E4 & E5).
  destruct el as [|s|s]; simpl;
    unfold Patchable_exit, CartesianMagnet_exit, PolarMagnet_exit;
    (erewrite bind_Ok by (unfold getattr, gets; reflexivity));
    rewrite E3;
    (erewrite bind_Raise; [reflexivity|]);
    (erewrite bind_Raise; [reflexivity|]).
  - now apply Patchable_entry_patched_unplaced.
  - now apply CartesianMagnet_entry_patched_unplaced.
  - apply (center_unplaced (Polar s)), U.
Qed.

Lemma exit_patched_unplaced (el : Element) (w : World F) :
  unplaced w -> KPOS_supported el ->
  exit_patched el w = (w, Raise TypeError).
Proof.
  intros U K. pose proof U as (E1 & E2 & E3 & E4 & E5).
  destruct el as [|s|s]; simpl;
    unfold Patchable_exit_patched, CartesianMagnet_exit_patched,
      PolarMagnet_exit_patched;
    (erewrite bind_Ok by (unfold getattr, gets; reflexivity));
    rewrite E4;
    (erewrite bind_Raise; [reflexivity|]).
  - erewrite bind_Raise; [reflexivity|].
    apply (exit_unplaced PointLike), U.
  - simpl in K. unfold KPOS_eq, KPOS_in in *.
    destruct (KPOS s) as [k|].
    + destruct K as [K|K]; [|discriminate].
      apply bool_decide_eq_true_1 in K.
      rewrite !elem_of_cons, elem_of_nil in K.
      destruct K as [-> | [-> | [-> | [-> | []]]]]; simpl.
      * unfold Patchable_entry. unfold_monad. rewrite E1. reflexivity.
      * erewrite bind_Raise; [reflexivity|].
        apply (exit_unplaced (Cartesian s)), U.
      * unfold Patchable_entry. unfold_monad. rewrite E1. reflexivity.
      * erewrite bind_Raise; [reflexivity|].
        apply (exit_unplaced (Cartesian s)), U.
    + erewrite bind_Raise; [reflexivity|].
      apply (exit_unplaced (Cartesian s)), U.
  - erewrite bind_Raise; [reflexivity|].
    apply (exit_unplaced (Polar s)), U.
Qed.

(** C2 (amended). An element is unplaced when it was just instantiated or
    after [clear_placement()].  On an unplaced element whose alignment mode,
    for a Cartesian element, is unset or one of 0..3, each of the accessors
    [entry_patched], [center], [exit], [exit_patched] raises a [TypeError]
    (the constructor call [None.__class__(None)]), returns no value and
    leaves the element unchanged. *)
Theorem C2_access_before_place_raises_TypeError (el : Element)
    (w : World F) :
  unplaced w -> KPOS_supported el ->
  forall acc : Element -> M (World F) (option loc),
    In acc [entry_patched; center; exit; exit_patched] ->
    acc el w = (w, Raise TypeError).
Proof.
  intros U K acc Hacc. simpl in Hacc.
  destruct Hacc as [<-|[<-|[<-|[<-|[]]]]].
  - now apply entry_patched_unplaced.
  - now apply center_unplaced.
  - now apply exit_unplaced.
  - now apply exit_patched_unplaced.
Qed.

(** *** The Cartesian chain *)

Lemma py_or_0 (x : option R) : py_or x 0 = val x.
Proof.
  destruct x as [v|]; simpl; [|reflexivity].
  destruct (Req_dec_T v 0) as [->|]; reflexivity.
Qed.

Lemma KPOS_in_eq (s : CartesianMagnet) (k : Z) (ks : list Z) :
  KPOS s = Some k -> KPOS_in s ks = bool_decide (k ∈ ks).
Proof. intros E. unfold KPOS_in. now rewrite E. Qed.

Ltac run_accessor :=
  unfold_accessors; unfold_monad; simpl.

Lemma CartesianMagnet_entry_patched_KPOS012 (s : CartesianMagnet)
    (w : World F) (l : loc) (v : F) :
  KPOS_in s [0; 1; 2]%Z = true ->
  _entry (self w) = Some l -> heap w !! l = Some v ->
  _entry_patched (self w) = None ->
  entry_patched (Cartesian s) w =
    ({| heap := heap w ++
          [rotate_z (- val (ALE s))
             (translate_y (val (YCE s))
                (translate_x (val (XCE s))
                   (translate_x (- val (X_E s)) v)))];
        self := with_entry_patched (Some (length (heap w))) (self w) |},
     Ok (Some (length (heap w)))).
Proof.
  intros K E Hv C.
  run_accessor. rewrite C, E, Hv. simpl. rewrite K.
  unfold_monad; simpl. rewrite !alter_last.
  unfold CartesianMagnet_rotation, CartesianMagnet_x_offset,
    CartesianMagnet_y_offset. rewrite !py_or_0. reflexivity.
Qed.

(** C3. On a placed Cartesian element with [KPOS] in {0, 1, 2} whose
    [entry_patched] is not cached yet, [entry_patched] is a new frame: the
    entry frame moved by [translate_x(-X_E)], then [translate_x(x_offset)]
    and [translate_y(y_offset)], then [rotate_z(-rotation)]; it is cached,
    and the next access returns the cached frame unchanged.  (In the spec's
    vocabulary [rotate_z] is the rotation about the longitudinal axis and
    the plane of the two offsets is the one transverse to that axis.) *)
Theorem C3_Cartesian_entry_patched (s : CartesianMagnet) (w : World F)
    (l : loc) (v : F) :
  KPOS_in s [0; 1; 2]%Z = true ->
  _entry (self w) = Some l -> heap w !! l = Some v ->
  _entry_patched (self w) = None ->
  let w' :=
    {| heap := heap w ++
         [rotate_z (- val (ALE s))
            (translate_y (val (YCE s))
               (translate_x (val (XCE s))
                  (translate_x (- val (X_E s)) v)))];
       self := with_entry_patched (Some (length (heap w))) (self w) |} in
  entry_patched (Cartesian s) w = (w', Ok (Some (length (heap w)))) /\
  entry_patched (Cartesian s) w' = (w', Ok (Some (length (heap w)))).
Proof.
  intros K E Hv C w'. split.
  - now apply (CartesianMagnet_entry_patched_KPOS012 s w l v).
  - reflexivity.
Qed.

Lemma CartesianMagnet_exit_run (s : CartesianMagnet) (w w1 : World F)
    (L : R) (lep : loc) (vep : F) :
  XL s = Some L ->
  _exit (self w) = None ->
  entry_patched (Cartesian s) w = (w1, Ok (Some lep)) ->
  heap w1 !! lep = Some vep ->
  exit (Cartesian s) w =
    ({| heap := heap w1 ++ [translate_x (L + val (X_E s)) vep];
        self := with_exit (Some (length (heap w1))) (self w1) |},
     Ok (Some (length (heap w1)))).
Proof.
  intros HL C Hep Hv. simpl in *.
  unfold CartesianMagnet_exit, getattr, setattr, gets, modify, bind.
  simpl. rewrite C, Hep. unfold construct. rewrite Hv. simpl.
  unfold CartesianMagnet_length. rewrite HL. simpl.
  rewrite alter_last, py_or_0. reflexivity.
Qed.

Lemma CartesianMagnet_exit_patched_KPOS1 (s : CartesianMagnet)
    (w w1 : World F) (lx : loc) (vx : F) :
  KPOS s = Some 1%Z \/ KPOS s = None ->
  _exit_patched (self w) = None ->
  exit (Cartesian s) w = (w1, Ok (Some lx)) ->
  heap w1 !! lx = Some vx ->
  exit_patched (Cartesian s) w =
    ({| heap := heap w1 ++ [translate_x (- val (X_S s)) vx];
        self := with_exit_patched (Some (length (heap w1))) (self w1) |},
     Ok (Some (length (heap w1)))).
Proof.
  intros K C Hx Hv. simpl in *.
  unfold CartesianMagnet_exit_patched, getattr, setattr, gets, modify, bind.
  simpl. rewrite C.
  assert (Hk : match KPOS s with None => true | Some _ => KPOS_eq s 1 end
               = true).
  { unfold KPOS_eq, KPOS_in. destruct K as [-> | ->]; reflexivity. }
  rewrite Hk, Hx. unfold construct. rewrite Hv. simpl.
  rewrite alter_last, py_or_0. reflexivity.
Qed.

Lemma CartesianMagnet_exit_patched_KPOS02 (s : CartesianMagnet)
    (w : World F) (l : loc) (v : F) :
  KPOS s = Some 0%Z \/ KPOS s = Some 2%Z ->
  _exit_patched (self w) = None ->
  _entry (self w) = Some l -> heap w !! l = Some v ->
  exit_patched (Cartesian s) w =
    ({| heap := heap w ++
          [translate_x (- val (X_S s)) (translate_x (val (XL s)) v)];
        self := with_exit_patched (Some (length (heap w))) (self w) |},
     Ok (Some (length (heap w)))).
Proof.
  intros K C E Hv. simpl.
  unfold CartesianMagnet_exit_patched, Patchable_entry, getattr, setattr,
    gets, modify, bind.
  simpl. rewrite C.
  unfold KPOS_eq, KPOS_in.
  destruct K as [-> | ->]; simpl; rewrite E; unfold construct; rewrite Hv;
    simpl; rewrite !alter_last, !py_or_0; reflexivity.
Qed.

(** C4. On a Cartesian element with length [L]:
    - [exit], when not cached, is a new frame, the frame returned by
      [entry_patched] moved by [translate_x(L + X_E)];
    - with [KPOS = 1] (or [KPOS] unset), [exit_patched], when not cached, is
      a new frame, the frame returned by [exit] moved by
      [translate_x(-X_S)];
    - with [KPOS] in {0, 2}, [exit_patched], when not cached, is a new
      frame, the entry frame itself moved by [translate_x(L)] then
      [translate_x(-X_S)]: neither [entry_patched] nor [exit] is read or
      computed, and the entrance parameters do not occur. *)
Theorem C4_Cartesian_exit_frames (s : CartesianMagnet) (L : R) :
  XL s = Some L ->
  (forall (w w1 : World F) (lep : loc) (vep : F),
     _exit (self w) = None ->
     entry_patched (Cartesian s) w = (w1, Ok (Some lep)) ->
     heap w1 !! lep = Some vep ->
     exit (Cartesian s) w =
       ({| heap := heap w1 ++ [translate_x (L + val (X_E s)) vep];
           self := with_exit (Some (length (heap w1))) (self w1) |},
        Ok (Some (length (heap w1))))) /\
  (forall (w w1 : World F) (lx : loc) (vx : F),
     KPOS s = Some 1%Z \/ KPOS s = None ->
     _exit_patched (self w) = None ->
     exit (Cartesian s) w = (w1, Ok (Some lx)) ->
     heap w1 !! lx = Some vx ->
     exit_patched (Cartesian s) w =
       ({| heap := heap w1 ++ [translate_x (- val (X_S s)) vx];
           self := with_exit_patched (Some (length (heap w1))) (self w1) |},
        Ok (Some (length (heap w1))))) /\
  (forall (w : World F) (l : loc) (v : F),
     KPOS s = Some 0%Z \/ KPOS s = Some 2%Z ->
     _exit_patched (self w) = None ->
     _entry (self w) = Some l -> heap w !! l = Some v ->
     exit_patched (Cartesian s) w =
       ({| heap := heap w ++
             [translate_x (- val (X_S s)) (translate_x L v)];
           self := with_exit_patched (Some (length (heap w))) (self w) |},
        Ok (Some (length (heap w))))).
Proof.
  intros HL. split; [|split].
  - intros w w1 lep vep. now apply CartesianMagnet_exit_run.
  - intros w w1 lx vx. apply CartesianMagnet_exit_patched_KPOS1.
  - intros w l v K C E Hv.
    rewrite (CartesianMagnet_exit_patched_KPOS02 s w l v K C E Hv).
    rewrite HL. reflexivity.
Qed.

(** *** The polar chain *)

Lemma neg_TE_or_0_Some (s : PolarMagnet) (te : R) :
  TE s = Some te -> neg_TE_or_0 s = Ok (- te).
Proof.
  intros E. unfold neg_TE_or_0. rewrite E.
  change (py_neg (Some te)) with (Ok (- te)).
  cbv iota beta. now rewrite py_or_0.
Qed.

Lemma PolarMagnet_entry_patched_run (s : PolarMagnet) (w : World F)
    (l : loc) (v : F) (te : R) :
  TE s = Some te ->
  _entry_patched (self w) = None ->
  _entry (self w) = Some l -> heap w !! l = Some v ->
  entry_patched (Polar s) w =
    ({| heap := heap w ++
          [rotate_z (- te) (translate_y (val (RM s) - val (RE s)) v)];
        self := with_entry_patched (Some (length (heap w))) (self w) |},
     Ok (Some (length (heap w)))).
Proof.
  intros HT C E Hv. simpl.
  unfold PolarMagnet_entry_patched, Patchable_entry, getattr, setattr, gets,
    modify, bind.
  simpl. rewrite C, E. unfold construct. rewrite Hv. simpl.
  rewrite (neg_TE_or_0_Some s te HT). unfold PolarMagnet_radius. simpl.
  rewrite !alter_last, !py_or_0. reflexivity.
Qed.

Lemma PolarMagnet_center_run (s : PolarMagnet) (w w1 : World F)
    (lep : loc) (vep : F) :
  _center (self w) = None ->
  entry_patched (Polar s) w = (w1, Ok (Some lep)) ->
  heap w1 !! lep = Some vep ->
  center (Polar s) w =
    ({| heap := heap w1 ++ [translate_y (- val (RM s)) vep];
        self := with_center (Some (length (heap w1))) (self w1) |},
     Ok (Some (length (heap w1)))).
Proof.
  intros C Hep Hv. simpl in *.
  unfold PolarMagnet_center, getattr, setattr, gets, modify, bind.
  simpl. rewrite C, Hep. unfold construct. rewrite Hv. simpl.
  unfold PolarMagnet_radius. rewrite alter_last, py_or_0. reflexivity.
Qed.

Lemma PolarMagnet_exit_run (s : PolarMagnet) (w w1 : World F)
    (lc : loc) (vc : F) :
  _exit (self w) = None ->
  center (Polar s) w = (w1, Ok (Some lc)) ->
  heap w1 !! lc = Some vc ->
  exit (Polar s) w =
    ({| heap := heap w1 ++
          [rotate_z (- val (AT s)) (translate_y (val (RM s)) vc)];
        self := with_exit (Some (length (heap w1))) (self w1) |},
     Ok (Some (length (heap w1)))).
Proof.
  intros C Hc Hv. simpl in *.
  unfold PolarMagnet_exit, getattr, setattr, gets, modify, bind.
  simpl. rewrite C, Hc. unfold construct. rewrite Hv. simpl.
  unfold PolarMagnet_radius, PolarMagnet_angular_opening.
  rewrite !alter_last, !py_or_0. reflexivity.
Qed.

Lemma PolarMagnet_exit_patched_run (s : PolarMagnet) (w w1 : World F)
    (lx : loc) (vx : F) :
  _exit_patched (self w) = None ->
  exit (Polar s) w = (w1, Ok (Some lx)) ->
  heap w1 !! lx = Some vx ->
  exit_patched (Polar s) w =
    ({| heap := heap w1 ++
          [rotate_z (val (TS s))
             (translate_y (val (RS s) - val (RM s)) vx)];
        self := with_exit_patched (Some (length (heap w1))) (self w1) |},
     Ok (Some (length (heap w1)))).
Proof.
  intros C Hx Hv. simpl in *.
  unfold PolarMagnet_exit_patched, getattr, setattr, gets, modify, bind.
  simpl. rewrite C, Hx. unfold construct. rewrite Hv. simpl.
  unfold PolarMagnet_radius.
  rewrite !alter_last, !py_or_0. reflexivity.
Qed.

(** C5. On a polar element with entrance angle [TE]:
    - [entry_patched], when not cached on a placed element, is a new frame,
      the entry frame moved by [translate_y(RM - RE)] then [rotate_z(-TE)];
    - [center], when not cached, is a new frame, the frame returned by
      [entry_patched] moved by [translate_y(-RM)];
    - [exit], when not cached, is a new frame, the frame returned by
      [center] moved by [translate_y(RM)] then [rotate_z(-AT)];
    - [exit_patched], when not cached, is a new frame, the frame returned by
      [exit] moved by [translate_y(RS - RM)] then [rotate_z(TS)];
    - [length] is [AT] (in radians) times [RM]. *)
Theorem C5_Polar_frame_chain (s : PolarMagnet) (te : R) :
  TE s = Some te ->
  (forall (w : World F) (l : loc) (v : F),
     _entry_patched (self w) = None ->
     _entry (self w) = Some l -> heap w !! l = Some v ->
     entry_patched (Polar s) w =
       ({| heap := heap w ++
             [rotate_z (- te) (translate_y (val (RM s) - val (RE s)) v)];
           self := with_entry_patched (Some (length (heap w))) (self w) |},
        Ok (Some (length (heap w))))) /\
  (forall (w w1 : World F) (lep : loc) (vep : F),
     _center (self w) = None ->
     entry_patched (Polar s) w = (w1, Ok (Some lep)) ->
     heap w1 !! lep = Some vep ->
     center (Polar s) w =
       ({| heap := heap w1 ++ [translate_y (- val (RM s)) vep];
           self := with_center (Some (length (heap w1))) (self w1) |},
        Ok (Some (length (heap w1))))) /\
  (forall (w w1 : World F) (lc : loc) (vc : F),
     _exit (self w) = None ->
     center (Polar s) w = (w1, Ok (Some lc)) ->
     heap w1 !! lc = Some vc ->
     exit (Polar s) w =
       ({| heap := heap w1 ++
             [rotate_z (- val (AT s)) (translate_y (val (RM s)) vc)];
           self := with_exit (Some (length (heap w1))) (self w1) |},
        Ok (Some (length (heap w1))))) /\
  (forall (w w1 : World F) (lx : loc) (vx : F),
     _exit_patched (self w) = None ->
     exit (Polar s) w = (w1, Ok (Some lx)) ->
     heap w1 !! lx = Some vx ->
     exit_patched (Polar s) w =
       ({| heap := heap w1 ++
             [rotate_z (val (TS s))
                (translate_y (val (RS s) - val (RM s)) vx)];
           self := with_exit_patched (Some (length (heap w1))) (self w1) |},
        Ok (Some (length (heap w1))))) /\
  PolarMagnet_length s = val (AT s) * val (RM s).
Proof.
  intros HT. repeat split.
  - intros w l v. now apply PolarMagnet_entry_patched_run.
  - intros w w1 lep vep. apply PolarMagnet_center_run.
  - intros w w1 lc vc. apply PolarMagnet_exit_run.
  - intros w w1 lx vx. apply PolarMagnet_exit_patched_run.
  - unfold PolarMagnet_length, PolarMagnet_angular_opening,
      PolarMagnet_radius. now rewrite !py_or_0.
Qed.

(** *** Cartesian [KPOS = 3] *)







(** With any other alignment mode no branch of [exit_patched] is taken:
    the accessor returns [None], placed or not. *)
Lemma CartesianMagnet_exit_patched_unsupported (s : CartesianMagnet)
    (w : World F) (k : Z) :
  KPOS s = Some k -> k ∉ [0; 1; 2; 3]%Z ->
  _exit_patched (self w) = None ->
  exit_patched (Cartesian s) w = (w, Ok None).
Proof.
  intros K Hk C. simpl.
  unfold CartesianMagnet_exit_patched, getattr, gets, bind, ret. simpl.
  rewrite C. unfold KPOS_eq, KPOS_in. rewrite K.
  rewrite !elem_of_cons, elem_of_nil in Hk.
  rewrite !bool_decide_eq_false_2 by (rewrite list_elem_of_singleton; tauto).
  simpl. rewrite C. reflexivity.
Qed.

End Properties.

(** ** The frames in every state reached after [place] *)

Section Reachable.

Context {F : Type} `{Frame F}.

Lemma holds_None (x : F) (h : list F) : holds None x h.
Proof. intros l E. discriminate E. Qed.

Lemma holds_app (o : option loc) (x y : F) (h : list F) :
  holds o x h -> holds o x (h ++ [y]).
Proof.
  intros Ho l E. apply lookup_app_l_Some. now apply Ho.
Qed.

Lemma holds_new (x : F) (h : list F) :
  holds (Some (length h)) x (h ++ [x]).
Proof. intros l E. injection E as <-. apply lookup_last. Qed.

Lemma consistent_placed (el : Element) (w : World F) (f : loc) (v : F) :
  heap w !! f = Some v ->
  consistent el v (fst (place el (Some f) w)).
Proof.
  intros Hf. rewrite (place_run el w f v Hf). simpl.
  split; [|repeat split; apply holds_None].
  eexists. split; [reflexivity|]. apply lookup_last.
Qed.


(** A frame that is cached is returned as it is. *)
Lemma access_cached (a : Accessor) (el : Element) (w : World F) (l : loc) :
  match a with
  | A_entry_patched => _entry_patched (self w)
  | A_center => _center (self w)
  | A_exit => _exit (self w)
  | A_exit_patched => _exit_patched (self w)
  end = Some l ->
  access a el w = (w, Ok (Some l)).
Proof.
  intros E.
  destruct a, el; simpl; unfold_accessors; unfold_monad; simpl;
    rewrite E; simpl; rewrite E; reflexivity.
Qed.

Lemma entry_kept (v x : F) (w : World F) :
  (exists l : loc, _entry (self w) = Some l /\ heap w !! l = Some v) ->
  exists l : loc, _entry (self w) = Some l /\ (heap w ++ [x]) !! l = Some v.
Proof.
  intros (l & E & Hv). exists l.
  split; [exact E|]. now apply lookup_app_l_Some.
Qed.

Lemma consistent_new_entry_patched (el : Element) (v : F) (w : World F) :
  consistent el v w ->
  consistent el v
    {| heap := heap w ++ [exp_entry_patched (expected el v)];
       self := with_entry_patched (Some (length (heap w))) (self w) |}.
Proof.
  intros (He & H1 & H2 & H3 & H4). unfold consistent. simpl.
  split; [now apply entry_kept|].
  repeat split; first [apply holds_new | now apply holds_app].
Qed.

Lemma consistent_new_center (el : Element) (v : F) (w : World F) :
  consistent el v w ->
  consistent el v
    {| heap := heap w ++ [exp_center (expected el v)];
       self := with_center (Some (length (heap w))) (self w) |}.
Proof.
  intros (He & H1 & H2 & H3 & H4). unfold consistent. simpl.
  split; [now apply entry_kept|].
  repeat split; first [apply holds_new | now apply holds_app].
Qed.

Lemma consistent_new_exit (el : Element) (v : F) (w : World F) :
  consistent el v w ->
  consistent el v
    {| heap := heap w ++ [exp_exit (expected el v)];
       self := with_exit (Some (length (heap w))) (self w) |}.
Proof.
  intros (He & H1 & H2 & H3 & H4). unfold consistent. simpl.
  split; [now apply entry_kept|].
  repeat split; first [apply holds_new | now apply holds_app].
Qed.

Lemma consistent_new_exit_patched (el : Element) (v : F) (w : World F) :
  consistent el v w ->
  consistent el v
    {| heap := heap w ++ [exp_exit_patched (expected el v)];
       self := with_exit_patched (Some (length (heap w))) (self w) |}.
Proof.
  intros (He & H1 & H2 & H3 & H4). unfold consistent. simpl.
  split; [now apply entry_kept|].
  repeat split; first [apply holds_new | now apply holds_app].
Qed.

(** What an access establishes: the accessor returns a frame of the
    expected value and leaves the element consistent. *)
Definition access_ok (a : Accessor) (el : Element) (v : F) (w : World F)
  : Prop :=
  exists (w' : World F) (l : loc),
    access a el w = (w', Ok (Some l)) /\
    heap w' !! l = Some (expected_of a (expected el v)) /\
    consistent el v w'.

Lemma access_ok_cached (a : Accessor) (el : Element) (v : F) (w : World F)
    (l : loc) :
  consistent el v w ->
  match a with
  | A_entry_patched => _entry_patched (self w)
  | A_center => _center (self w)
  | A_exit => _exit (self w)
  | A_exit_patched => _exit_patched (self w)
  end = Some l ->
  access_ok a el v w.
Proof.
  intros C E. exists w, l. split; [now apply access_cached|].
  split; [|exact C].
  destruct C as (_ & H1 & H2 & H3 & H4).
  destruct a; simpl in *; auto.
Qed.

Lemma entry_patched_ok (el : Element) (v : F) (w : World F) :
  regular el -> consistent el v w -> access_ok A_entry_patched el v w.
Proof.
  intros R C.
  destruct (_entry_patched (self w)) as [l|] eqn:E.
  { now apply (access_ok_cached A_entry_patched el v w l). }
  pose proof C as ((le & Ee & Hv) & _).
  exists {| heap := heap w ++ [exp_entry_patched (expected el v)];
            self := with_entry_patched (Some (length (heap w))) (self w) |},
         (length (heap w)).
  split; [|split; [apply lookup_last | now apply consistent_new_entry_patched]].
  destruct el as [|s|s]; simpl in *.
  - unfold_accessors; unfold_monad; simpl. rewrite E, Ee, Hv. reflexivity.
  - destruct R as [_ [K|K]].
    + unfold_accessors; unfold_monad; simpl. rewrite E, Ee, Hv. simpl.
      unfold KPOS_eq, KPOS_in; rewrite K. reflexivity.
    + rewrite K. now apply (CartesianMagnet_entry_patched_KPOS012 s w le v).
  - destruct (TE s) as [te|] eqn:HT; [|contradiction].
    apply (PolarMagnet_entry_patched_run s w le v te HT E Ee Hv).
Qed.

Lemma Patchable_center_run (w : World F) (l : loc) (v : F) :
  _center (self w) = None ->
  _entry (self w) = Some l -> heap w !! l = Some v ->
  Patchable_center w =
    ({| heap := heap w ++ [v];
        self := with_center (Some (length (heap w))) (self w) |},
     Ok (Some (length (heap w)))).
Proof.
  intros C E Hv. unfold Patchable_center, Patchable_entry. unfold_monad.
  simpl. rewrite C, E, Hv. reflexivity.
Qed.

Lemma Patchable_exit_run (w w1 : World F) (lep : loc) (vep : F) :
  _exit (self w) = None ->
  Patchable_entry_patched w = (w1, Ok (Some lep)) ->
  heap w1 !! lep = Some vep ->
  Patchable_exit w =
    ({| heap := heap w1 ++ [vep];
        self := with_exit (Some (length (heap w1))) (self w1) |},
     Ok (Some (length (heap w1)))).
Proof.
  intros C Hep Hv.
  unfold Patchable_exit, getattr, setattr, gets, modify, bind.
  simpl. rewrite C, Hep. unfold construct. rewrite Hv. reflexivity.
Qed.

Lemma Patchable_exit_patched_run (w w1 : World F) (lx : loc) (vx : F) :
  _exit_patched (self w) = None ->
  Patchable_exit w = (w1, Ok (Some lx)) ->
  heap w1 !! lx = Some vx ->
  Patchable_exit_patched w =
    ({| heap := heap w1 ++ [vx];
        self := with_exit_patched (Some (length (heap w1))) (self w1) |},
     Ok (Some (length (heap w1)))).
Proof.
  intros C Hx Hv.
  unfold Patchable_exit_patched, getattr, setattr, gets, modify, bind.
  simpl. rewrite C, Hx. unfold construct. rewrite Hv. reflexivity.
Qed.

Lemma center_ok (el : Element) (v : F) (w : World F) :
  regular el -> consistent el v w -> access_ok A_center el v w.
Proof.
  intros R C.
  destruct (_center (self w)) as [l|] eqn:E.
  { now apply (access_ok_cached A_center el v w l). }
  destruct el as [|s|s].
  - pose proof C as ((le & Ee & Hv) & _).
    exists {| heap := heap w ++ [exp_center (expected PointLike v)];
              self := with_center (Some (length (heap w))) (self w) |},
           (length (heap w)).
    split; [|split; [apply lookup_last | now apply consistent_new_center]].
    now apply (Patchable_center_run w le v).
  - pose proof C as ((le & Ee & Hv) & _).
    exists {| heap := heap w ++ [exp_center (expected (Cartesian s) v)];
              self := with_center (Some (length (heap w))) (self w) |},
           (length (heap w)).
    split; [|split; [apply lookup_last | now apply consistent_new_center]].
    now apply (Patchable_center_run w le v).
  - destruct (entry_patched_ok (Polar s) v w R C)
      as (w1 & lep & Hep & Hvep & C1).
    exists {| heap := heap w1 ++ [exp_center (expected (Polar s) v)];
              self := with_center (Some (length (heap w1))) (self w1) |},
           (length (heap w1)).
    split; [|split; [apply lookup_last | now apply consistent_new_center]].
    exact (PolarMagnet_center_run s w w1 lep _ E Hep Hvep).
Qed.

Lemma exit_ok (el : Element) (v : F) (w : World F) :
  regular el -> consistent el v w -> access_ok A_exit el v w.
Proof.
  intros R C.
  destruct (_exit (self w)) as [l|] eqn:E.
  { now apply (access_ok_cached A_exit el v w l). }
  destruct el as [|s|s].
  - destruct (entry_patched_ok PointLike v w R C)
      as (w1 & lep & Hep & Hvep & C1).
    exists {| heap := heap w1 ++ [exp_exit (expected PointLike v)];
              self := with_exit (Some (length (heap w1))) (self w1) |},
           (length (heap w1)).
    split; [|split; [apply lookup_last | now apply consistent_new_exit]].
    exact (Patchable_exit_run w w1 lep _ E Hep Hvep).
  - destruct (entry_patched_ok (Cartesian s) v w R C)
      as (w1 & lep & Hep & Hvep & C1).
    exists {| heap := heap w1 ++ [exp_exit (expected (Cartesian s) v)];
              self := with_exit (Some (length (heap w1))) (self w1) |},
           (length (heap w1)).
    split; [|split; [apply lookup_last | now apply consistent_new_exit]].
    destruct R as [HL _]. destruct (XL s) as [L|] eqn:EL; [|contradiction].
    pose proof (CartesianMagnet_exit_run s w w1 L lep _ EL E Hep Hvep)
      as Hx.
    simpl in Hx |- *. rewrite EL. exact Hx.
  - destruct (center_ok (Polar s) v w R C) as (w1 & lc & Hc & Hvc & C1).
    exists {| heap := heap w1 ++ [exp_exit (expected (Polar s) v)];
              self := with_exit (Some (length (heap w1))) (self w1) |},
           (length (heap w1)).
    split; [|split; [apply lookup_last | now apply consistent_new_exit]].
    exact (PolarMagnet_exit_run s w w1 lc _ E Hc Hvc).
Qed.

Lemma exit_patched_ok (el : Element) (v : F) (w : World F) :
  regular el -> consistent el v w -> access_ok A_exit_patched el v w.
Proof.
  intros R C.
  destruct (_exit_patched (self w)) as [l|] eqn:E.
  { now apply (access_ok_cached A_exit_patched el v w l). }
  destruct el as [|s|s].
  - destruct (exit_ok PointLike v w R C) as (w1 & lx & Hx & Hvx & C1).
    exists {| heap := heap w1 ++ [exp_exit_patched (expected PointLike v)];
              self := with_exit_patched (Some (length (heap w1)))
                        (self w1) |},
           (length (heap w1)).
    split;
      [|split; [apply lookup_last | now apply consistent_new_exit_patched]].
    exact (Patchable_exit_patched_run w w1 lx _ E Hx Hvx).
  - assert (K : (KPOS_in s [0; 2]%Z = false /\
                 (KPOS s = Some 1%Z \/ KPOS s = None)) \/
                (KPOS_in s [0; 2]%Z = true /\
                 (KPOS s = Some 0%Z \/ KPOS s = Some 2%Z))).
    { destruct R as [_ [K|K]]; unfold KPOS_in in *.
      - rewrite K. auto.
      - destruct (KPOS s) as [k|]; [|discriminate].
        apply bool_decide_eq_true_1 in K.
        rewrite !elem_of_cons, elem_of_nil in K.
        destruct K as [-> | [-> | [-> | []]]]; auto. }
    destruct K as [[K2 K]|[K2 K]].
    + destruct (exit_ok (Cartesian s) v w R C)
        as (w1 & lx & Hx & Hvx & C1).
      exists {| heap := heap w1 ++
                  [exp_exit_patched (expected (Cartesian s) v)];
                self := with_exit_patched (Some (length (heap w1)))
                          (self w1) |},
             (length (heap w1)).
      split;
        [|split; [apply lookup_last | now apply consistent_new_exit_patched]].
      pose proof (CartesianMagnet_exit_patched_KPOS1 s w w1 lx _ K E Hx Hvx)
        as Hxp.
      simpl in Hxp |- *. rewrite K2. exact Hxp.
    + pose proof C as ((le & Ee & Hv) & _).
      exists {| heap := heap w ++
                  [exp_exit_patched (expected (Cartesian s) v)];
                self := with_exit_patched (Some (length (heap w)))
                          (self w) |},
             (length (heap w)).
      split;
        [|split; [apply lookup_last | now apply consistent_new_exit_patched]].
      pose proof (CartesianMagnet_exit_patched_KPOS02 s w le v K E Ee Hv)
        as Hxp.
      simpl in Hxp |- *. rewrite K2. exact Hxp.
  - destruct (exit_ok (Polar s) v w R C) as (w1 & lx & Hx & Hvx & C1).
    exists {| heap := heap w1 ++ [exp_exit_patched (expected (Polar s) v)];
              self := with_exit_patched (Some (length (heap w1)))
                        (self w1) |},
           (length (heap w1)).
    split;
      [|split; [apply lookup_last | now apply consistent_new_exit_patched]].
    exact (PolarMagnet_exit_patched_run s w w1 lx _ E Hx Hvx).
Qed.

Lemma access_consistent (a : Accessor) (el : Element) (v : F)
    (w : World F) :
  regular el -> consistent el v w -> access_ok a el v w.
Proof.
  destruct a.
  - apply entry_patched_ok.
  - apply center_ok.
  - apply exit_ok.
  - apply exit_patched_ok.
Qed.

Lemma reachable_consistent (el : Element) (v : F) (w0 w : World F) :
  regular el -> consistent el v w0 -> reachable el w0 w ->
  consistent el v w.
Proof.
  intros R C0 Hr. induction Hr as [|w a Hr IH]; [exact C0|].
  destruct (access_consistent a el v w R IH) as (w' & l & E & _ & C').
  rewrite E. exact C'.
Qed.

(** X1. In every state reached after [place(f)] by reading derived frames, each
    derived-frame accessor returns a frame whose value is the one the spec
    gives, computed from the value of [f]. *)
Theorem frames_of_placed_element (el : Element) (w0 w : World F) (f : loc)
    (v : F) (a : Accessor) :
  regular el ->
  heap w0 !! f = Some v ->
  reachable el (fst (place el (Some f) w0)) w ->
  exists (w' : World F) (l : loc),
    access a el w = (w', Ok (Some l)) /\
    heap w' !! l = Some (expected_of a (expected el v)).
Proof.
  intros R Hf Hr.
  pose proof (consistent_placed el w0 f v Hf) as C0.
  pose proof (reachable_consistent el v _ w R C0 Hr) as C.
  destruct (access_consistent a el v w R C) as (w' & l & E & Hv & _).
  eauto.
Qed.

End Reachable.

(** ** Defaults of the multi-dipole commands *)

Section PostInit.

Import PolarMulti.

Lemma FFAG_post_init_is_Dipoles_post_init :
  FFAG_post_init = Dipoles_post_init.
Proof. reflexivity. Qed.

Lemma for_each_app {S A : Type} (xs ys : list A) (body : A -> M S unit)
    (s : S) :
  for_each (xs ++ ys) body s =
    bind (for_each xs body) (fun _ => for_each ys body) s.
Proof.
  revert s. induction xs as [|x xs IH]; intros s; simpl.
  - reflexivity.
  - unfold bind. destruct (body x s) as [s1 [[]|e]]; [|reflexivity].
    rewrite IH. reflexivity.
Qed.

Lemma for_each_seq_invariant {S : Type} (body : nat -> M S unit)
    (Inv : nat -> S -> Prop) (k a : nat) (s : S) :
  (forall i s0, (a <= i < a + k)%nat -> Inv i s0 ->
     exists s1, body i s0 = (s1, Ok tt) /\ Inv (Datatypes.S i) s1) ->
  Inv a s ->
  exists s', for_each (seq a k) body s = (s', Ok tt) /\ Inv (a + k)%nat s'.
Proof.
  revert a s. induction k as [|k IH]; intros a s Hbody Ha; simpl.
  - exists s. rewrite Nat.add_0_r. auto.
  - destruct (Hbody a s ltac:(lia) Ha) as (s1 & E1 & H1).
    destruct (IH (Datatypes.S a) s1) as (s' & E' & H').
    + intros i s0 Hi. apply Hbody. lia.
    + exact H1.
    + exists s'. rewrite (bind_Ok _ _ _ _ _ E1).
      replace (a + Datatypes.S k)%nat with (Datatypes.S a + k)%nat by lia.
      auto.
Qed.

Lemma ACN_slot_done (d : PolarMulti.t) (acn : list R) (i : nat) (xa : R) :
  (forall j : nat,
     acn !! j =
       if bool_decide (j < i)%nat then defaulted d j <$> ACN d !! j
       else ACN d !! j) ->
  acn !! i = Some xa ->
  forall j : nat,
    (if Req_dec_T xa 0 then <[i := slot_azimuth d i]> acn else acn) !! j =
      if bool_decide (j < Datatypes.S i)%nat
      then defaulted d j <$> ACN d !! j
      else ACN d !! j.
Proof.
  intros Hacn Hi j.
  assert (Hd : ACN d !! i = Some xa).
  { rewrite <- Hi, Hacn. rewrite bool_decide_eq_false_2 by lia. reflexivity. }
  destruct (decide (j = i)) as [->|Hne].
  - rewrite bool_decide_eq_true_2 by lia. rewrite Hd. simpl.
    unfold defaulted. destruct (Req_dec_T xa 0).
    + apply list_lookup_insert_eq. eapply lookup_lt_Some; eauto.
    + exact Hi.
  - assert (Hj : (if Req_dec_T xa 0 then <[i := slot_azimuth d i]> acn
                  else acn) !! j = acn !! j).
    { destruct (Req_dec_T xa 0); [|reflexivity].
      now apply list_lookup_insert_ne. }
    rewrite Hj, Hacn.
    destruct (decide (j < i)%nat).
    + rewrite !bool_decide_eq_true_2 by lia. reflexivity.
    + rewrite !bool_decide_eq_false_2 by lia. reflexivity.
Qed.

Lemma slot_Ok (d d0 : PolarMulti.t) (i : nat) :
  slots_done d i d0 ->
  (i < length (OMEGA_E d))%nat -> (i < length (OMEGA_S d))%nat ->
  (i < length (ACN d))%nat ->
  exists d1, Dipoles_post_init_slot i d0 = (d1, Ok tt) /\
             slots_done d (Datatypes.S i) d1.
Proof.
  intros (HN & HA & LE & LS & LA & HD & HACN) IE IS IA.
  destruct (lookup_lt_is_Some_2 (OMEGA_E d0) i ltac:(lia)) as [xe He].
  destruct (lookup_lt_is_Some_2 (OMEGA_S d0) i ltac:(lia)) as [xs Hs].
  destruct (lookup_lt_is_Some_2 (ACN d0) i ltac:(lia)) as [xa Hxa].
  pose proof (ACN_slot_done d (ACN d0) i xa HACN Hxa) as Hstep.
  unfold Dipoles_post_init_slot, bind, gets, lift, getitem, modify, ret.
  rewrite He.
  destruct (Req_dec_T xe 0); simpl; rewrite Hs;
    destruct (Req_dec_T xs 0); simpl; rewrite Hxa;
    destruct (Req_dec_T xa 0); simpl;
    destruct (Req_dec_T (RE d0) 0); simpl;
    destruct (Req_dec_T (RS d0) 0); simpl;
    (eexists; split; [reflexivity|]);
    unfold slots_done; simpl; rewrite ?length_insert;
    unfold slot_azimuth in Hstep |- *; simpl; rewrite ?HN, ?HA;
    auto 10.
Qed.

Lemma slots_done_init (d : PolarMulti.t) : slots_done d 0 d.
Proof. unfold slots_done. auto 10. Qed.

(** With arrays at least [N] long, [post_init] raises nothing and sets
    every unset [ACN[i]], [i < N], to its default. *)
Lemma post_init_Ok (d : PolarMulti.t) :
  (Z.to_nat (N d) <= length (OMEGA_E d))%nat ->
  (Z.to_nat (N d) <= length (OMEGA_S d))%nat ->
  (Z.to_nat (N d) <= length (ACN d))%nat ->
  exists d', Dipoles_post_init d = (d', Ok tt) /\
             slots_done d (Z.to_nat (N d)) d'.
Proof.
  intros LE LS LA. unfold Dipoles_post_init.
  rewrite (bind_Ok _ _ d d (N d)) by reflexivity. unfold range.
  apply (for_each_seq_invariant Dipoles_post_init_slot (slots_done d)
           (Z.to_nat (N d)) 0 d).
  - intros i d0 Hi Inv. apply slot_Ok; [exact Inv|lia..].
  - apply slots_done_init.
Qed.

Lemma slot_IndexError (d0 : PolarMulti.t) (i : nat) :
  (length (OMEGA_E d0) <= i)%nat \/ (length (OMEGA_S d0) <= i)%nat \/
  (length (ACN d0) <= i)%nat ->
  snd (Dipoles_post_init_slot i d0) = Raise IndexError.
Proof.
  intros Hshort.
  unfold Dipoles_post_init_slot, bind, gets, lift, getitem, modify, ret.
  destruct (OMEGA_E d0 !! i) as [xe|] eqn:He; [|reflexivity].
  destruct (Req_dec_T xe 0); simpl.
  all: destruct (OMEGA_S d0 !! i) as [xs|] eqn:Hs; [|reflexivity].
  all: destruct (Req_dec_T xs 0); simpl.
  all: destruct (ACN d0 !! i) as [xa|] eqn:Hxa; [|reflexivity].
  all: apply lookup_lt_Some in He, Hs, Hxa; lia.
Qed.

(** With [OMEGA_E], [OMEGA_S] or [ACN] shorter than [N], the loop raises an
    [IndexError] at the first missing slot. *)
Lemma post_init_IndexError (d : PolarMulti.t) :
  (length (OMEGA_E d) < Z.to_nat (N d))%nat \/
  (length (OMEGA_S d) < Z.to_nat (N d))%nat \/
  (length (ACN d) < Z.to_nat (N d))%nat ->
  snd (Dipoles_post_init d) = Raise IndexError.
Proof.
  intros Hshort.
  set (m := Nat.min (length (OMEGA_E d))
              (Nat.min (length (OMEGA_S d)) (length (ACN d)))).
  assert (Hm : (m < Z.to_nat (N d))%nat) by (unfold m; lia).
  unfold Dipoles_post_init.
  rewrite (bind_Ok _ _ d d (N d)) by reflexivity. unfold range.
  replace (Z.to_nat (N d)) with (m + (Z.to_nat (N d) - m))%nat by lia.
  rewrite seq_app, for_each_app.
  destruct (for_each_seq_invariant Dipoles_post_init_slot (slots_done d)
              m 0 d) as (d1 & E1 & Inv).
  - intros i d0 Hi Inv. apply slot_Ok; [exact Inv|unfold m in Hi; lia..].
  - apply slots_done_init.
  - rewrite (bind_Ok _ _ _ _ _ E1).
    destruct (Z.to_nat (N d) - m)%nat as [|k] eqn:Hk; [lia|].
    simpl. unfold bind.
    destruct Inv as (_ & _ & LE & LS & LA & _).
    pose proof (slot_IndexError d1 m) as Hr.
    rewrite LE, LS, LA in Hr. specialize (Hr ltac:(unfold m; lia)).
    destruct (Dipoles_post_init_slot m d1) as [d2 r]. simpl in Hr.
    now rewrite Hr.
Qed.



End PostInit.




(** ** Re-projection of the tracks *)

Lemma set_rows_map (label : option string) (c : string)
    (f : DataFrame.Row -> option R) (g : DataFrame.Row -> DataFrame.Row)
    (rs : list DataFrame.Row) :
  (forall r, DataFrame.LABEL1 (g r) = DataFrame.LABEL1 r) ->
  DataFrame.set_rows
    (map (fun r => bool_decide (Some (DataFrame.LABEL1 r) = label))
       (map g rs))
    c (map f rs) (map g rs)
  = map (assigned label c f g) rs.
Proof.
  intros Hg. induction rs as [|r rs IH]; simpl; [reflexivity|].
  rewrite IH. unfold assigned at 2. rewrite Hg. reflexivity.
Qed.

Lemma assign_map (label : option string) (c : string)
    (f : DataFrame.Row -> option R) (g : DataFrame.Row -> DataFrame.Row)
    (cols : list string) (rs : list DataFrame.Row) :
  (forall r, DataFrame.LABEL1 (g r) = DataFrame.LABEL1 r) ->
  assign label c (Ok (map f rs))
    {| DataFrame.columns := cols; DataFrame.rows := map g rs |} =
    ({| DataFrame.columns := DataFrame.add_column c cols;
        DataFrame.rows := map (assigned label c f g) rs |}, Ok tt).
Proof.
  intros Hg.
  unfold assign, bind, lift, gets, modify, DataFrame.mask, DataFrame.loc_set.
  cbn [DataFrame.rows DataFrame.columns]. now rewrite set_rows_map.
Qed.

Lemma assign_bind_map {B : Type} (label : option string) (c : string)
    (f : DataFrame.Row -> option R) (g : DataFrame.Row -> DataFrame.Row)
    (cols : list string) (rs : list DataFrame.Row)
    (k : unit -> M DataFrame.t B) :
  (forall r, DataFrame.LABEL1 (g r) = DataFrame.LABEL1 r) ->
  bind (assign label c (Ok (map f rs))) k
       {| DataFrame.columns := cols; DataFrame.rows := map g rs |} =
    k tt {| DataFrame.columns := DataFrame.add_column c cols;
            DataFrame.rows := map (assigned label c f g) rs |}.
Proof. intros Hg. apply bind_Ok. now apply assign_map. Qed.

Lemma assigned_LABEL1 label c f g r :
  DataFrame.LABEL1 (g r) = DataFrame.LABEL1 r ->
  DataFrame.LABEL1 (assigned label c f g r) = DataFrame.LABEL1 r.
Proof. intros Hg. unfold assigned. now destruct (bool_decide _). Qed.

Lemma getitem_Ok (df : DataFrame.t) (c : string) :
  c ∈ DataFrame.columns df ->
  DataFrame.getitem df c =
    Ok (map (fun r => DataFrame.cells r !! c) (DataFrame.rows df)).
Proof.
  intros Hc. unfold DataFrame.getitem. now rewrite bool_decide_eq_true_2.
Qed.

Lemma smap_map (h : R -> R) (f : DataFrame.Row -> option R)
    (rs : list DataFrame.Row) :
  DataFrame.smap h (map f rs) = map (fun r => h <$> f r) rs.
Proof. unfold DataFrame.smap. now rewrite map_map. Qed.

Lemma sadd_map (k : option R) (f : DataFrame.Row -> option R)
    (rs : list DataFrame.Row) :
  DataFrame.sadd (map f rs) k = map (fun r => lift2 Rplus (f r) k) rs.
Proof. unfold DataFrame.sadd. now rewrite map_map. Qed.

Lemma szip_map (h : R -> R -> R) (f1 f2 : DataFrame.Row -> option R)
    (rs : list DataFrame.Row) :
  DataFrame.szip h (map f1 rs) (map f2 rs) =
    map (fun r => lift2 h (f1 r) (f2 r)) rs.
Proof.
  unfold DataFrame.szip. induction rs as [|r rs IH]; simpl; [reflexivity|].
  now rewrite IH.
Qed.

Lemma lookup_set_cell (c c' : string) (v : option R) (r : DataFrame.Row) :
  DataFrame.cells (DataFrame.set_cell c v r) !! c' =
    if decide (c = c') then v else DataFrame.cells r !! c'.
Proof.
  unfold DataFrame.set_cell. simpl. destruct v as [x|].
  - destruct (decide (c = c')) as [->|Hne].
    + apply lookup_insert_eq.
    + now apply lookup_insert_ne.
  - destruct (decide (c = c')) as [->|Hne].
    + apply lookup_delete_eq.
    + now apply lookup_delete_ne.
Qed.

Lemma lookup_map {A B : Type} (f : A -> B) (l : list A) (i : nat) :
  map f l !! i = f <$> l !! i.
Proof.
  revert i. induction l as [|a l IH]; intros [|i]; simpl; auto.
Qed.

Ltac label_kept :=
  repeat match goal with
         | |- DataFrame.LABEL1 (assigned _ _ _ _ _) = _ =>
             apply assigned_LABEL1
         end;
  reflexivity.

Ltac assign_step :=
  rewrite assign_bind_map; [|intros ?; label_kept].

Ltac lookup_cell :=
  repeat (rewrite lookup_set_cell;
          first [ rewrite decide_True by reflexivity
                | rewrite decide_False by discriminate ]).


(** ** The code on the sample inputs *)

Lemma place_World0 (el : Element) :
  place el (Some 0%nat) World0 = (Placed0, Ok tt).
Proof. reflexivity. Qed.


(** C2, as stated, fails: on the element that was just instantiated,
    [entry_patched] raises a [TypeError], which is not the library's
    configuration error. *)
Lemma C2_counterexample :
  unplaced World0 /\
  snd (entry_patched PointLike World0) = Raise TypeError /\
  snd (entry_patched PointLike World0) <> Raise ZgoubidooException.
Proof.
  assert (U : unplaced World0) by (repeat split).
  split; [exact U|].
  rewrite (entry_patched_unplaced PointLike World0 U). simpl.
  split; [reflexivity | discriminate].
Qed.

Lemma C2_witness :
  unplaced World0 /\
  KPOS_supported (Cartesian bend_without_kinematics) /\
  exit_patched (Cartesian bend_without_kinematics) World0 =
    (World0, Raise TypeError).
Proof.
  assert (U : unplaced World0) by (repeat split).
  assert (K : KPOS_supported (Cartesian bend_without_kinematics))
    by (left; reflexivity).
  split; [exact U|]. split; [exact K|].
  apply (C2_access_before_place_raises_TypeError
           (Cartesian bend_without_kinematics) World0 U K exit_patched).
  simpl. tauto.
Defined.

(** An alignment mode outside 0..3: [exit_patched] of the unplaced element
    returns [None] and raises nothing. *)
Lemma exit_patched_KPOS5 :
  unplaced World0 /\
  exit_patched (Cartesian sample_KPOS5) World0 = (World0, Ok None).
Proof.
  split; [repeat split|].
  apply (CartesianMagnet_exit_patched_unsupported sample_KPOS5 World0 5);
    [reflexivity | | reflexivity].
  rewrite !elem_of_cons, elem_of_nil. lia.
Qed.

Lemma C3_witness :
  KPOS_in sample_quadrupole [0; 1; 2]%Z = true /\
  entry_patched (Cartesian sample_quadrupole) Placed0 =
    ({| heap := [[]; [];
                 [TranslateX (- 1); TranslateX 0; TranslateY 0;
                  RotateZ (- 0)]];
        self := with_entry_patched (Some 2%nat) (self Placed0) |},
     Ok (Some 2%nat)).
Proof.
  split; [reflexivity|].
  exact (proj1 (C3_Cartesian_entry_patched sample_quadrupole Placed0 1%nat []
                  eq_refl eq_refl eq_refl eq_refl)).
Defined.

Lemma C4_witness :
  XL sample_quadrupole = Some 2 /\
  (exists w2 : World Moves,
     exit_patched (Cartesian sample_quadrupole) Placed0 =
       (w2, Ok (Some 4%nat)) /\
     heap w2 !! 4%nat =
       Some [TranslateX (- 1); TranslateX 0; TranslateY 0; RotateZ (- 0);
             TranslateX (2 + 1); TranslateX (- 1)]) /\
  (exists w1 : World Moves,
     exit_patched (Cartesian sample_bend) Placed0 = (w1, Ok (Some 2%nat)) /\
     heap w1 !! 2%nat = Some [TranslateX 2; TranslateX (- 1)]).
Proof.
  split; [reflexivity|].
  destruct (C4_Cartesian_exit_frames (F := Moves) sample_quadrupole 2
              eq_refl) as (Ha & Hb & _).
  destruct (C4_Cartesian_exit_frames (F := Moves) sample_bend 2 eq_refl)
    as (_ & _ & Hc).
  pose proof (CartesianMagnet_entry_patched_KPOS012 sample_quadrupole
                Placed0 1%nat [] eq_refl eq_refl eq_refl eq_refl) as Hep.
  pose proof (Ha Placed0 _ _ _ eq_refl Hep eq_refl) as Hx.
  pose proof (Hb Placed0 _ _ _ (or_introl eq_refl) eq_refl Hx eq_refl) as Hxp.
  pose proof (Hc Placed0 1%nat [] (or_intror eq_refl) eq_refl eq_refl
                eq_refl) as Hxp2.
  split.
  - eexists. split; [exact Hxp | reflexivity].
  - eexists. split; [exact Hxp2 | reflexivity].
Defined.

Lemma C5_witness :
  TE sample_dipole = Some 4 /\
  (exists w4 : World Moves,
     exit_patched (Polar sample_dipole) Placed0 = (w4, Ok (Some 5%nat)) /\
     heap w4 !! 2%nat = Some [TranslateY (2 - 3); RotateZ (- 4)] /\
     heap w4 !! 3%nat =
       Some [TranslateY (2 - 3); RotateZ (- 4); TranslateY (- 2)] /\
     heap w4 !! 4%nat =
       Some [TranslateY (2 - 3); RotateZ (- 4); TranslateY (- 2);
             TranslateY 2; RotateZ (- 1)] /\
     heap w4 !! 5%nat =
       Some [TranslateY (2 - 3); RotateZ (- 4); TranslateY (- 2);
             TranslateY 2; RotateZ (- 1); TranslateY (5 - 2); RotateZ 6]) /\
  PolarMagnet_length sample_dipole = 1 * 2.
Proof.
  split; [reflexivity|].
  destruct (C5_Polar_frame_chain (F := Moves) sample_dipole 4 eq_refl)
    as (H1 & H2 & H3 & H4 & H5).
  pose proof (H1 Placed0 1%nat [] eq_refl eq_refl eq_refl) as Hep.
  pose proof (H2 Placed0 _ _ _ eq_refl Hep eq_refl) as Hc.
  pose proof (H3 Placed0 _ _ _ eq_refl Hc eq_refl) as Hx.
  pose proof (H4 Placed0 _ _ _ eq_refl Hx eq_refl) as Hxp.
  split; [|exact H5].
  eexists. split; [exact Hxp|]. repeat split.
Defined.



(** ** What reading a frame keeps *)

Section Frames.

Context {F : Type} `{Frame F}.

Lemma extends_refl (w : World F) : extends w w.
Proof. split; [exists []; now rewrite app_nil_r | reflexivity]. Qed.

Lemma extends_trans (w1 w2 w3 : World F) :
  extends w1 w2 -> extends w2 w3 -> extends w1 w3.
Proof.
  intros [[e1 H1] E1] [[e2 H2] E2]. split.
  - exists (e1 ++ e2). now rewrite H2, H1, app_assoc.
  - now rewrite E2.
Qed.

Lemma top_extends (base w : World F) (f : Patchable -> option loc) :
  top base f w -> extends base w.
Proof. intros ((x & Hx) & _ & He). split; [now exists [x] | exact He]. Qed.

Lemma extending_ret {A : Type} (a : A) : extending (ret (S := World F) a).
Proof. intros w. apply extends_refl. Qed.

Lemma extending_getattr {A : Type} (f : Patchable -> A) :
  extending (getattr (F := F) f).
Proof. intros w. apply extends_refl. Qed.

Lemma extending_if {A : Type} (b : bool) (m1 m2 : M (World F) A) :
  extending m1 -> extending m2 -> extending (if b then m1 else m2).
Proof. now destruct b. Qed.

Lemma extending_lazy (f : Patchable -> option loc)
    (body : M (World F) unit) :
  extending body ->
  extending
    (do c <- getattr f;
     run (match c with None => body | Some _ => ret tt end);
     getattr f).
Proof.
  intros Hb w. unfold bind, getattr, gets. simpl.
  destruct (f (self w)).
  - simpl. apply extends_refl.
  - specialize (Hb w). destruct (body w) as [w1 [[]|e]]; exact Hb.
Qed.

Lemma keeps_top_ret {A : Type} (f : Patchable -> option loc) (a : A) :
  keeps_top f (ret (S := World F) a).
Proof. intros base w T. exact T. Qed.

Lemma keeps_top_if {A : Type} (f : Patchable -> option loc) (b : bool)
    (m1 m2 : M (World F) A) :
  keeps_top f m1 -> keeps_top f m2 -> keeps_top f (if b then m1 else m2).
Proof. now destruct b. Qed.

Lemma call_top (f : Patchable -> option loc) (base w : World F)
    (move : R -> F -> F) (arg : result R) :
  top base f w -> top base f (fst (call (f (self w)) move arg w)).
Proof.
  intros ((x & Hx) & Hf & He). rewrite Hf. unfold call, bind, lift, modify.
  destruct arg as [d|e]; simpl.
  - rewrite Hx, alter_last. repeat split; eauto.
  - repeat split; eauto.
Qed.

Lemma keeps_top_call_last (f : Patchable -> option loc)
    (move : R -> F -> F) (arg : result R) :
  keeps_top f (do o <- getattr f; call o move arg).
Proof.
  intros base w T. unfold bind at 1. unfold getattr, gets.
  now apply call_top.
Qed.

Lemma keeps_top_call {A : Type} (f : Patchable -> option loc)
    (move : R -> F -> F) (arg : result R) (rest : M (World F) A) :
  keeps_top f rest ->
  keeps_top f (do o <- getattr f; run call o move arg; rest).
Proof.
  intros Hr base w T. unfold bind at 1. unfold getattr, gets.
  pose proof (call_top f base w move arg T) as T1.
  unfold bind. destruct (call (f (self w)) move arg w) as [w1 [[]|e]].
  - now apply Hr.
  - exact T1.
Qed.

Lemma construct_extends (x : option loc) (w : World F) :
  match construct x w with
  | (w', Ok l) =>
      (exists v : F, heap w' = heap w ++ [v]) /\ l = length (heap w) /\
      self w' = self w
  | (w', Raise _) => w' = w
  end.
Proof.
  unfold construct. destruct x as [l|]; [|reflexivity].
  destruct (heap w !! l); simpl; eauto.
Qed.

Lemma extending_build (f : Patchable -> option loc)
    (g : option loc -> Patchable -> Patchable)
    (up : M (World F) (option loc)) (moves : M (World F) unit) :
  slot_setter f g -> extending up -> keeps_top f moves ->
  extending
    (do e <- up;
     do l <- construct e;
     run setattr (g (Some l));
     moves).
Proof.
  intros Hfg Hup Hm w. unfold bind at 1.
  specialize (Hup w). destruct (up w) as [w1 [e|err]]; [|exact Hup].
  apply (extends_trans _ w1); [exact Hup|]. simpl in Hup.
  unfold bind at 1. pose proof (construct_extends e w1) as Hc.
  destruct (construct e w1) as [w2 [l|err]].
  - destruct Hc as ((v & Hv) & -> & Hs).
    unfold bind, setattr, modify.
    apply (top_extends w1 _ f). apply Hm.
    destruct (Hfg (@Some loc (length (heap w1))) (self w2)) as [Hf He].
    repeat split; simpl; [eauto | exact Hf | congruence].
  - subst w2. apply extends_refl.
Qed.

Lemma extending_build0 (f : Patchable -> option loc)
    (g : option loc -> Patchable -> Patchable)
    (up : M (World F) (option loc)) :
  slot_setter f g -> extending up ->
  extending
    (do e <- up;
     do l <- construct e;
     setattr (g (Some l))).
Proof.
  intros Hfg Hup w. unfold bind at 1.
  specialize (Hup w). destruct (up w) as [w1 [e|err]]; [|exact Hup].
  apply (extends_trans _ w1); [exact Hup|]. simpl in Hup.
  unfold bind. pose proof (construct_extends e w1) as Hc.
  destruct (construct e w1) as [w2 [l|err]].
  - destruct Hc as ((v & Hv) & -> & Hs).
    unfold setattr, modify. simpl. split; simpl; [eauto|].
    destruct (Hfg (@Some loc (length (heap w1))) (self w2)) as [_ He].
    congruence.
  - subst w2. apply extends_refl.
Qed.

Lemma slot_setter_entry_patched : slot_setter _entry_patched with_entry_patched.
Proof. intros v p. split; reflexivity. Qed.

Lemma slot_setter_center : slot_setter _center with_center.
Proof. intros v p. split; reflexivity. Qed.

Lemma slot_setter_exit : slot_setter _exit with_exit.
Proof. intros v p. split; reflexivity. Qed.

Lemma slot_setter_exit_patched : slot_setter _exit_patched with_exit_patched.
Proof. intros v p. split; reflexivity. Qed.

Lemma slot_setter_frenet : slot_setter _frenet with_frenet.
Proof. intros v p. split; reflexivity. Qed.

Ltac extending_step :=
  match goal with
  | |- extending (bind (getattr _) (fun _ => bind (match _ with _ => _ end) _)) =>
      apply extending_lazy
  | |- extending (if _ then _ else _) => apply extending_if
  | |- extending (ret _) => apply extending_ret
  | |- extending (getattr _) => apply extending_getattr
  | |- extending Patchable_entry => apply extending_getattr
  | |- extending (bind _ (fun _ => bind (construct _) (fun _ => setattr _))) =>
      eapply extending_build0
  | |- extending (bind _ (fun _ => bind (construct _) _)) =>
      eapply extending_build
  | |- slot_setter _ with_entry_patched => apply slot_setter_entry_patched
  | |- slot_setter _ with_center => apply slot_setter_center
  | |- slot_setter _ with_exit => apply slot_setter_exit
  | |- slot_setter _ with_exit_patched => apply slot_setter_exit_patched
  | |- slot_setter _ with_frenet => apply slot_setter_frenet
  | |- keeps_top _ (if _ then _ else _) => apply keeps_top_if
  | |- keeps_top _ (ret _) => apply keeps_top_ret
  | |- keeps_top _ (bind (getattr _) (fun _ => call _ _ _)) =>
      apply keeps_top_call_last
  | |- keeps_top _ (bind (getattr _) (fun _ => bind (call _ _ _) _)) =>
      apply keeps_top_call
  end.

Lemma entry_patched_extending (el : Element) :
  extending (entry_patched (F := F) el).
Proof.
  destruct el as [|s|s]; simpl;
    unfold Patchable_entry_patched, CartesianMagnet_entry_patched,
      PolarMagnet_entry_patched;
    repeat extending_step.
Qed.

Lemma center_extending (el : Element) : extending (center (F := F) el).
Proof.
  destruct el as [|s|s]; simpl; unfold Patchable_center, PolarMagnet_center;
    repeat first
      [ apply (entry_patched_extending (Polar s)) | extending_step ].
Qed.

Lemma exit_extending (el : Element) : extending (exit (F := F) el).
Proof.
  destruct el as [|s|s]; simpl;
    unfold Patchable_exit, CartesianMagnet_exit, PolarMagnet_exit;
    repeat first
      [ apply (entry_patched_extending PointLike)
      | apply (entry_patched_extending (Cartesian s))
      | apply (center_extending (Polar s))
      | extending_step ].
Qed.

Lemma exit_patched_extending (el : Element) :
  extending (exit_patched (F := F) el).
Proof.
  destruct el as [|s|s]; simpl;
    unfold Patchable_exit_patched, CartesianMagnet_exit_patched,
      PolarMagnet_exit_patched;
    repeat first
      [ apply (exit_extending PointLike)
      | apply (exit_extending (Cartesian s))
      | apply (exit_extending (Polar s))
      | extending_step ].
Qed.

Lemma frenet_orientation_extending (el : Element) :
  extending (frenet_orientation (F := F) el).
Proof.
  unfold frenet_orientation.
  repeat first [ apply entry_patched_extending | extending_step ].
Qed.

Lemma access_extending (a : Accessor) (el : Element) :
  extending (access (F := F) a el).
Proof.
  destruct a; simpl.
  - apply entry_patched_extending.
  - apply center_extending.
  - apply exit_extending.
  - apply exit_patched_extending.
Qed.

(** X2. Reading a derived frame never changes a frame object that exists
    already, nor the entry slot: whatever the element, its parameters and
    its state, and whether the accessor returns or raises, the frames after
    the call are those before it followed by the new ones. *)
Theorem reading_only_adds_frames (a : Accessor) (el : Element)
    (w : World F) :
  (exists extra : list F,
     heap (fst (access a el w)) = heap w ++ extra) /\
  _entry (self (fst (access a el w))) = _entry (self w).
Proof. apply access_extending. Qed.

Lemma lazy_result (f : Patchable -> option loc)
    (body : option loc -> M (World F) unit) (w w' : World F)
    (r : option loc) :
  (do c <- getattr f; run body c; getattr f) w = (w', Ok r) ->
  f (self w') = r.
Proof.
  unfold bind, getattr, gets. simpl.
  destruct (body (f (self w)) w) as [w1 [[]|e]]; intros E.
  - injection E as <- <-. reflexivity.
  - discriminate E.
Qed.

Lemma access_result (a : Accessor) (el : Element) (w w' : World F)
    (r : option loc) :
  access a el w = (w', Ok r) -> slot_of a (self w') = r.
Proof.
  destruct a, el as [|s|s]; simpl; intros E;
    unfold Patchable_entry_patched, CartesianMagnet_entry_patched,
      PolarMagnet_entry_patched, Patchable_center, PolarMagnet_center,
      Patchable_exit, CartesianMagnet_exit, PolarMagnet_exit,
      Patchable_exit_patched, CartesianMagnet_exit_patched,
      PolarMagnet_exit_patched in E;
    apply lazy_result in E; exact E.
Qed.

(** X3. A derived frame that an accessor has returned is cached: reading
    it again returns the same object and changes nothing, also when the
    parameters of the element were changed in between; only [place] and
    [clear_placement] reset it. *)
Theorem returned_frame_is_cached (a : Accessor) (el el' : Element)
    (w w' : World F) (l : loc) :
  access a el w = (w', Ok (Some l)) ->
  access a el' w' = (w', Ok (Some l)).
Proof.
  intros E. apply access_cached. apply access_result in E.
  destruct a; exact E.
Qed.

Lemma frenet_orientation_cached (el : Element) (w : World F) (l : loc) :
  _frenet (self w) = Some l ->
  frenet_orientation el w = (w, Ok (Some l)).
Proof.
  intros E. unfold frenet_orientation, bind, getattr, gets, ret. simpl.
  rewrite E. simpl. rewrite E. reflexivity.
Qed.

(** Reading [entry_patched] of a placed element leaves the slot of the
    Frenet frame as it is. *)
Lemma entry_patched_ok_frenet (el : Element) (v : F) (w : World F) :
  regular el -> consistent el v w ->
  exists (w' : World F) (l : loc),
    entry_patched el w = (w', Ok (Some l)) /\
    heap w' !! l = Some (exp_entry_patched (expected el v)) /\
    _frenet (self w') = _frenet (self w).
Proof.
  intros R C.
  destruct (_entry_patched (self w)) as [l|] eqn:E.
  { exists w, l. split; [exact (access_cached A_entry_patched el w l E)|].
    split; [|reflexivity].
    destruct C as (_ & H1 & _). now apply H1. }
  pose proof C as ((le & Ee & Hv) & _).
  exists {| heap := heap w ++ [exp_entry_patched (expected el v)];
            self := with_entry_patched (Some (length (heap w))) (self w) |},
         (length (heap w)).
  split; [|split; [apply lookup_last | reflexivity]].
  destruct el as [|s|s]; simpl in *.
  - unfold_accessors; unfold_monad; simpl. rewrite E, Ee, Hv. reflexivity.
  - destruct R as [_ [K|K]].
    + unfold_accessors; unfold_monad; simpl. rewrite E, Ee, Hv. simpl.
      unfold KPOS_eq, KPOS_in; rewrite K. reflexivity.
    + rewrite K. now apply (CartesianMagnet_entry_patched_KPOS012 s w le v).
  - destruct (TE s) as [te|] eqn:HT; [|contradiction].
    apply (PolarMagnet_entry_patched_run s w le v te HT E Ee Hv).
Qed.

(** X4. The Frenet frame is computed once, as a copy of the patched
    entrance frame of the placement in force when it is first read, and
    neither [clear_placement] nor [place] resets it: after the element is
    placed again on another frame, [frenet_orientation] still returns the
    frame of the first placement, while [entry_patched] follows the new
    one. *)
Theorem frenet_orientation_outlives_placement (el : Element)
    (w0 : World F) (f : loc) (v : F) :
  regular el ->
  heap w0 !! f = Some v ->
  _frenet (self w0) = None ->
  exists (w1 : World F) (l : loc),
    frenet_orientation el (fst (place el (Some f) w0)) =
      (w1, Ok (Some l)) /\
    heap w1 !! l = Some (exp_entry_patched (expected el v)) /\
    forall (f2 : loc) (v2 : F),
      heap w1 !! f2 = Some v2 ->
      frenet_orientation el (fst (place el (Some f2) w1)) =
        (fst (place el (Some f2) w1), Ok (Some l)) /\
      heap (fst (place el (Some f2) w1)) !! l =
        Some (exp_entry_patched (expected el v)) /\
      exists (w3 : World F) (l3 : loc),
        entry_patched el (fst (place el (Some f2) w1)) =
          (w3, Ok (Some l3)) /\
        heap w3 !! l3 = Some (exp_entry_patched (expected el v2)).
Proof.
  intros R Hf Hn.
  pose proof (consistent_placed el w0 f v Hf) as C0.
  assert (F0 : _frenet (self (fst (place el (Some f) w0))) = None).
  { rewrite (place_run el w0 f v Hf). exact Hn. }
  remember (fst (place el (Some f) w0)) as w0' eqn:Hw0.
  destruct (entry_patched_ok_frenet el v _ R C0) as (wa & la & Ea & Hva & Fa).
  rewrite F0 in Fa.
  exists {| heap := heap wa ++ [exp_entry_patched (expected el v)];
            self := with_frenet (Some (length (heap wa))) (self wa) |},
         (length (heap wa)).
  split; [|split; [apply lookup_last|]].
  - unfold frenet_orientation, bind, getattr, gets, setattr, modify.
    cbn [fst snd]. rewrite F0, Ea.
    rewrite (construct_Some _ _ _ Hva). reflexivity.
  - intros f2 v2 Hf2.
    rewrite (place_run el _ f2 v2 Hf2). simpl.
    split; [|split].
    + apply frenet_orientation_cached. reflexivity.
    + apply lookup_app_l_Some. apply lookup_last.
    + pose proof (consistent_placed el _ f2 v2 Hf2) as C2.
      rewrite (place_run el _ f2 v2 Hf2) in C2. simpl in C2.
      destruct (entry_patched_ok_frenet el v2 _ R C2)
        as (w3 & l3 & E3 & Hv3 & _).
      exists w3, l3. split; [exact E3 | exact Hv3].
Qed.

End Frames.

Lemma frames_of_placed_element_witness :
  regular (Cartesian sample_quadrupole) /\
  exists (w' : World Moves) (l : loc),
    exit (Cartesian sample_quadrupole) Placed0 = (w', Ok (Some l)) /\
    heap w' !! l =
      Some [TranslateX (- 1); TranslateX 0; TranslateY 0; RotateZ (- 0);
            TranslateX (2 + 1)].
Proof.
  assert (Hr : regular (Cartesian sample_quadrupole))
    by (split; [discriminate | right; reflexivity]).
  split; [exact Hr|].
  exact (frames_of_placed_element (Cartesian sample_quadrupole) World0
           Placed0 0%nat [] A_exit Hr eq_refl (reachable_start _ _)).
Defined.

Lemma returned_frame_is_cached_witness :
  center PointLike Placed0 =
    ({| heap := [[]; []; []];
        self := with_center (Some 2%nat) (self Placed0) |},
     Ok (Some 2%nat)) /\
  center (Polar sample_dipole)
    {| heap := [[]; []; []];
       self := with_center (Some 2%nat) (self Placed0) |} =
    ({| heap := [[]; []; []];
        self := with_center (Some 2%nat) (self Placed0) |},
     Ok (Some 2%nat)).
Proof.
  split; [reflexivity|].
  exact (returned_frame_is_cached A_center PointLike (Polar sample_dipole)
           Placed0 _ 2%nat eq_refl).
Defined.

Lemma frenet_orientation_outlives_placement_witness :
  exists (w1 : World Moves) (l : loc),
    frenet_orientation (Polar sample_dipole) Placed0 = (w1, Ok (Some l)) /\
    heap w1 !! l = Some [TranslateY (2 - 3); RotateZ (- 4)] /\
    forall (f2 : loc) (v2 : Moves),
      heap w1 !! f2 = Some v2 ->
      frenet_orientation (Polar sample_dipole)
        (fst (place (Polar sample_dipole) (Some f2) w1)) =
        (fst (place (Polar sample_dipole) (Some f2) w1), Ok (Some l)) /\
      heap (fst (place (Polar sample_dipole) (Some f2) w1)) !! l =
        Some [TranslateY (2 - 3); RotateZ (- 4)] /\
      exists (w3 : World Moves) (l3 : loc),
        entry_patched (Polar sample_dipole)
          (fst (place (Polar sample_dipole) (Some f2) w1)) =
          (w3, Ok (Some l3)) /\
        heap w3 !! l3 =
          Some ((v2 ++ [TranslateY (2 - 3)]) ++ [RotateZ (- 4)]).
Proof.
  exact (frenet_orientation_outlives_placement (Polar sample_dipole) World0
           0%nat [] ltac:(discriminate) eq_refl eq_refl).
Defined.

(** ** The block of an element in the result file *)

Lemma find_labeled_output_loop_body (label : option string)
    (out data : list string) :
  data <> [] ->
  find_labeled_output_loop label out data = data ++ block_body label out.
Proof.
  revert data. induction out as [|l out IH]; intros data Hd; simpl.
  - now rewrite app_nil_r.
  - destruct (is_header label l) eqn:Hh; simpl.
    + rewrite IH by (now destruct data).
      now rewrite <- app_assoc.
    + rewrite bool_decide_eq_true_2
        by (destruct data; [congruence | simpl; lia]).
      destruct (contains "****" l); simpl.
      * now rewrite app_nil_r.
      * rewrite IH by (now destruct data).
        now rewrite <- app_assoc.
Qed.

Lemma find_labeled_output_loop_block (label : option string)
    (out : list string) :
  find_labeled_output_loop label out [] = block label out.
Proof.
  induction out as [|l out IH]; simpl; [reflexivity|].
  destruct (is_header label l) eqn:Hh.
  - now rewrite find_labeled_output_loop_body.
  - exact IH.
Qed.

(** X5. [find_labeled_output] returns the block of the element without
    its empty lines: the lines from the first header of the element (a line
    holding the label and ['Keyword']) up to the first later line that
    holds ['****'] and is not itself a header of the element. *)
Theorem find_labeled_output_is_block (out : list string)
    (label : option string) :
  find_labeled_output out label =
    List.filter (fun l => negb (String.length l =? 0)%nat)
      (block label out).
Proof.
  unfold find_labeled_output.
  now rewrite find_labeled_output_loop_block.
Qed.

Lemma block_body_sublist (label : option string) (out : list string) :
  sublist (block_body label out) out.
Proof.
  induction out as [|l out IH]; simpl; [constructor|].
  destruct (is_header label l || negb (contains "****" l)).
  - now constructor.
  - apply sublist_nil_l.
Qed.

Lemma block_sublist (label : option string) (out : list string) :
  sublist (block label out) out.
Proof.
  induction out as [|l out IH]; simpl; [constructor|].
  destruct (is_header label l).
  - constructor. apply block_body_sublist.
  - now constructor.
Qed.

Lemma filter_sublist {A : Type} (f : A -> bool) (xs : list A) :
  sublist (List.filter f xs) xs.
Proof.
  induction xs as [|x xs IH]; simpl; [constructor|].
  destruct (f x); now constructor.
Qed.

Lemma block_body_Forall (label : option string) (out : list string) :
  Forall (fun l => is_header label l = true \/ contains "****" l = false)
    (block_body label out).
Proof.
  induction out as [|l out IH]; simpl; [constructor|].
  destruct (is_header label l) eqn:Hh; simpl.
  - constructor; [now left | exact IH].
  - destruct (contains "****" l) eqn:Hs; simpl; constructor;
      [now right | exact IH].
Qed.

Lemma block_Forall (label : option string) (out : list string) :
  Forall (fun l => is_header label l = true \/ contains "****" l = false)
    (block label out).
Proof.
  induction out as [|l out IH]; simpl; [constructor|].
  destruct (is_header label l) eqn:Hh; [|exact IH].
  constructor; [now left | apply block_body_Forall].
Qed.

Lemma header_nonempty (label : option string) (l : string) :
  is_header label l = true -> negb (String.length l =? 0)%nat = true.
Proof.
  unfold is_header. intros Hh.
  apply andb_true_iff in Hh as [_ Hk].
  destruct l; [discriminate Hk | reflexivity].
Qed.

Lemma block_head (label : option string) (out : list string) :
  match block label out with
  | [] => Forall (fun l => is_header label l = false) out
  | h :: _ => is_header label h = true
  end.
Proof.
  induction out as [|l out IH]; simpl; [constructor|].
  destruct (is_header label l) eqn:Hh; [exact Hh|].
  destruct (block label out); [now constructor | exact IH].
Qed.

(** X6. What [find_labeled_output] returns is made of lines of the
    output, in their order; none of them is empty; none but a header of
    the element holds ['****']; the first one is a header of the element;
    and nothing is returned exactly when the output holds no header of the
    element. *)
Theorem find_labeled_output_lines (out : list string)
    (label : option string) :
  sublist (find_labeled_output out label) out /\
  Forall (fun l => l <> EmptyString /\
                   (is_header label l = true \/ contains "****" l = false))
    (find_labeled_output out label) /\
  match find_labeled_output out label with
  | [] => Forall (fun l => is_header label l = false) out
  | h :: _ =>
      is_header label h = true /\
      Exists (fun l => is_header label l = true) out
  end.
Proof.
  unfold find_labeled_output. rewrite find_labeled_output_loop_block.
  split; [|split].
  - etransitivity; [apply filter_sublist | apply block_sublist].
  - apply Forall_forall. intros l Hl.
    apply list_elem_of_In, filter_In in Hl as [Hl Hn].
    split.
    + intros ->. discriminate Hn.
    + pose proof (block_Forall label out) as Hb.
      rewrite Forall_forall in Hb. apply Hb.
      now apply list_elem_of_In.
  - pose proof (block_head label out) as Hh.
    pose proof (block_sublist label out) as Hs.
    destruct (block label out) as [|h rest]; [exact Hh|].
    simpl. rewrite (header_nonempty label h Hh).
    split; [exact Hh|].
    apply Exists_exists. exists h. split; [|exact Hh].
    apply (elem_of_sublist (h :: rest) out h); [now left | exact Hs].
Qed.

(** ** All the defaults of the multi-dipole commands *)

Section PostInitDefaults.

Import PolarMulti.

Lemma upto_lookup (i : nat) (g : nat -> R -> R) (a : list R) (j : nat) :
  upto i g a !! j =
    (fun x => if bool_decide (j < i)%nat then g j x else x) <$> a !! j.
Proof. unfold upto. apply list_lookup_imap. Qed.

Lemma upto_0 (g : nat -> R -> R) (a : list R) : upto 0 g a = a.
Proof.
  apply list_eq. intros j. rewrite upto_lookup.
  rewrite bool_decide_eq_false_2 by lia. now destruct (a !! j).
Qed.

Lemma upto_length (i : nat) (g : nat -> R -> R) (a : list R) :
  length (upto i g a) = length a.
Proof. unfold upto. apply length_imap. Qed.

Lemma upto_step (i : nat) (g : nat -> R -> R) (a : list R) (x : R) :
  a !! i = Some x ->
  <[i := g i x]> (upto i g a) = upto (S i) g a.
Proof.
  intros Hi. apply list_eq. intros j.
  destruct (decide (j = i)) as [->|Hne].
  - rewrite list_lookup_insert_eq
      by (rewrite upto_length; eapply lookup_lt_Some; eauto).
    rewrite upto_lookup, Hi. simpl.
    now rewrite bool_decide_eq_true_2 by lia.
  - rewrite list_lookup_insert_ne by congruence.
    rewrite !upto_lookup. destruct (a !! j); [simpl|reflexivity].
    destruct (decide (j < i)%nat).
    + now rewrite !bool_decide_eq_true_2 by lia.
    + now rewrite !bool_decide_eq_false_2 by lia.
Qed.

Lemma upto_current (i : nat) (g : nat -> R -> R) (a : list R) :
  upto i g a !! i = a !! i.
Proof.
  rewrite upto_lookup, bool_decide_eq_false_2 by lia.
  now destruct (a !! i).
Qed.

Lemma upto_keep (i : nat) (g : nat -> R -> R) (a : list R) (x : R) :
  a !! i = Some x -> g i x = x -> upto i g a = upto (S i) g a.
Proof.
  intros Hi Hg. rewrite <- (upto_step i g a x Hi), Hg.
  symmetry. apply list_insert_id. now rewrite upto_current.
Qed.

Lemma defaulted_radius_step (d : PolarMulti.t) (i : nat) (x : R) :
  (if Req_dec_T
        (if bool_decide (0 < i)%nat then defaulted_radius d x else x) 0
   then RM d
   else if bool_decide (0 < i)%nat then defaulted_radius d x else x) =
  defaulted_radius d x.
Proof.
  unfold defaulted_radius.
  destruct (bool_decide (0 < i)%nat); [|reflexivity].
  destruct (Req_dec_T x 0) as [Hx|Hx].
  - destruct (Req_dec_T (RM d) 0); reflexivity.
  - destruct (Req_dec_T x 0); [contradiction|reflexivity].
Qed.

Lemma t_eq (a b : PolarMulti.t) :
  N a = N b -> AT a = AT b -> RM a = RM b -> ACN a = ACN b ->
  DRM a = DRM b -> OMEGA_E a = OMEGA_E b -> OMEGA_S a = OMEGA_S b ->
  RE a = RE b -> RS a = RS b -> a = b.
Proof. destruct a, b; simpl; intros; subst; reflexivity. Qed.

Lemma slot_defaults (d : PolarMulti.t) (i : nat) :
  (i < length (OMEGA_E d))%nat -> (i < length (OMEGA_S d))%nat ->
  (i < length (ACN d))%nat ->
  Dipoles_post_init_slot i (defaults_upto d i) =
    (defaults_upto d (S i), Ok tt).
Proof.
  intros IE IS IA.
  destruct (lookup_lt_is_Some_2 (OMEGA_E d) i IE) as [xe He].
  destruct (lookup_lt_is_Some_2 (OMEGA_S d) i IS) as [xs Hs].
  destruct (lookup_lt_is_Some_2 (ACN d) i IA) as [xa Hxa].
  pose proof (defaulted_radius_step d i (RE d)) as HRE.
  pose proof (defaulted_radius_step d i (RS d)) as HRS.
  assert (HE : (if Req_dec_T xe 0
                then <[i := slot_azimuth d i]> (upto i (defaulted d) (OMEGA_E d))
                else upto i (defaulted d) (OMEGA_E d)) =
               upto (S i) (defaulted d) (OMEGA_E d)).
  { destruct (Req_dec_T xe 0) as [Hz|Hz].
    - rewrite <- (upto_step i (defaulted d) _ xe He). unfold defaulted.
      now destruct (Req_dec_T xe 0).
    - apply (upto_keep i (defaulted d) _ xe He). unfold defaulted.
      now destruct (Req_dec_T xe 0). }
  assert (HA : (if Req_dec_T xa 0
                then <[i := slot_azimuth d i]> (upto i (defaulted d) (ACN d))
                else upto i (defaulted d) (ACN d)) =
               upto (S i) (defaulted d) (ACN d)).
  { destruct (Req_dec_T xa 0) as [Hz|Hz].
    - rewrite <- (upto_step i (defaulted d) _ xa Hxa). unfold defaulted.
      now destruct (Req_dec_T xa 0).
    - apply (upto_keep i (defaulted d) _ xa Hxa). unfold defaulted.
      now destruct (Req_dec_T xa 0). }
  assert (HS : (if Req_dec_T xs 0
                then <[i := xs - slot_complement d i]>
                       (upto i (defaulted_exit d) (OMEGA_S d))
                else upto i (defaulted_exit d) (OMEGA_S d)) =
               upto (S i) (defaulted_exit d) (OMEGA_S d)).
  { destruct (Req_dec_T xs 0) as [Hz|Hz].
    - rewrite <- (upto_step i (defaulted_exit d) _ xs Hs).
      unfold defaulted_exit. destruct (Req_dec_T xs 0); [|contradiction].
      f_equal. unfold slot_complement, slot_azimuth. rewrite Hz. lra.
    - apply (upto_keep i (defaulted_exit d) _ xs Hs). unfold defaulted_exit.
      now destruct (Req_dec_T xs 0). }
  unfold Dipoles_post_init_slot, bind, gets, lift, getitem, modify, ret.
  cbn [OMEGA_E defaults_upto]. rewrite upto_current, He.
  destruct (Req_dec_T xe 0); cbn [OMEGA_S with_OMEGA_E defaults_upto];
    rewrite upto_current, Hs;
    destruct (Req_dec_T xs 0);
    cbn [ACN with_OMEGA_S with_OMEGA_E defaults_upto OMEGA_S];
    rewrite upto_current, Hxa;
    destruct (Req_dec_T xa 0); cbn -[upto];
    (destruct (Req_dec_T _ 0) in HRE |- *; cbn -[upto];
     destruct (Req_dec_T _ 0) in HRS |- *; cbn -[upto];
     f_equal; apply t_eq; cbn -[upto];
     rewrite ?bool_decide_eq_true_2 by lia; auto).
Qed.

Lemma defaults_upto_0 (d : PolarMulti.t) : defaults_upto d 0 = d.
Proof.
  apply t_eq; cbn -[upto]; rewrite ?upto_0; reflexivity.
Qed.

(** With arrays at least [N] long, [post_init] returns the element with
    the first [N] slots defaulted. *)
Lemma post_init_defaults_upto (d : PolarMulti.t) :
  (Z.to_nat (N d) <= length (OMEGA_E d))%nat ->
  (Z.to_nat (N d) <= length (OMEGA_S d))%nat ->
  (Z.to_nat (N d) <= length (ACN d))%nat ->
  Dipoles_post_init d = (defaults_upto d (Z.to_nat (N d)), Ok tt).
Proof.
  intros LE LS LA. unfold Dipoles_post_init.
  rewrite (bind_Ok _ _ d d (N d)) by reflexivity. unfold range.
  destruct (for_each_seq_invariant Dipoles_post_init_slot
              (fun i s => s = defaults_upto d i) (Z.to_nat (N d)) 0 d)
    as (d' & E & ->).
  - intros i d0 Hi ->. eexists. split; [|reflexivity].
    apply slot_defaults; lia.
  - symmetry. apply defaults_upto_0.
  - exact E.
Qed.

Lemma defaulted_twice (d d' : PolarMulti.t) (j : nat) (x : R) :
  N d' = N d -> AT d' = AT d ->
  defaulted d' j (defaulted d j x) = defaulted d j x.
Proof.
  intros HN HA. unfold defaulted, slot_azimuth. rewrite HN, HA.
  destruct (Req_dec_T x 0) as [Hx|Hx].
  - destruct (Req_dec_T _ 0); reflexivity.
  - destruct (Req_dec_T x 0); [contradiction|reflexivity].
Qed.

Lemma defaulted_exit_twice (d d' : PolarMulti.t) (j : nat) (x : R) :
  N d' = N d -> AT d' = AT d ->
  defaulted_exit d' j (defaulted_exit d j x) = defaulted_exit d j x.
Proof.
  intros HN HA. unfold defaulted_exit, slot_azimuth. rewrite HN, HA.
  destruct (Req_dec_T x 0) as [Hx|Hx].
  - destruct (Req_dec_T _ 0); reflexivity.
  - destruct (Req_dec_T x 0); [contradiction|reflexivity].
Qed.

Lemma defaulted_radius_twice (d d' : PolarMulti.t) (x : R) :
  RM d' = RM d ->
  defaulted_radius d' (defaulted_radius d x) = defaulted_radius d x.
Proof.
  intros HR. unfold defaulted_radius. rewrite HR.
  destruct (Req_dec_T x 0) as [Hx|Hx].
  - destruct (Req_dec_T _ 0); reflexivity.
  - destruct (Req_dec_T x 0); [contradiction|reflexivity].
Qed.

Lemma upto_twice (i : nat) (g g' : nat -> R -> R) (a : list R) :
  (forall j x, g' j (g j x) = g j x) ->
  upto i g' (upto i g a) = upto i g a.
Proof.
  intros Hg. apply list_eq. intros j. rewrite !upto_lookup.
  destruct (a !! j); [simpl|reflexivity].
  destruct (bool_decide (j < i)%nat); [now rewrite Hg | reflexivity].
Qed.

Lemma defaults_upto_twice (d : PolarMulti.t) (i : nat) :
  defaults_upto (defaults_upto d i) i = defaults_upto d i.
Proof.
  apply t_eq; cbn -[upto]; try reflexivity.
  - apply upto_twice. intros. now apply defaulted_twice.
  - apply upto_twice. intros. now apply defaulted_twice.
  - apply upto_twice. intros. now apply defaulted_exit_twice.
  - destruct (bool_decide (0 < i)%nat); [|reflexivity].
    now apply defaulted_radius_twice.
  - destruct (bool_decide (0 < i)%nat); [|reflexivity].
    now apply defaulted_radius_twice.
Qed.

(** X7. All the defaults of [Dipoles.post_init] and [FFAG.post_init]: with
    arrays of at least [N] entries, [post_init] raises nothing; for every
    slot [i < N] an [OMEGA_E[i]] or [ACN[i]] that is zero becomes the
    azimuth [AT/(2N) + i*AT/N] of the slot, an [OMEGA_S[i]] that is zero
    becomes that azimuth minus [AT], and a non-zero entry is kept; the
    entries from [N] on, and [N], [AT], [RM] and [DRM], are kept; [RE] and
    [RS] become [RM] when they are zero and there is at least one slot;
    and with no slot at all nothing changes. *)
Theorem post_init_defaults (d : PolarMulti.t) :
  (Z.to_nat (N d) <= length (OMEGA_E d))%nat ->
  (Z.to_nat (N d) <= length (OMEGA_S d))%nat ->
  (Z.to_nat (N d) <= length (ACN d))%nat ->
  exists d' : PolarMulti.t,
    Dipoles_post_init d = (d', Ok tt) /\
    FFAG_post_init d = (d', Ok tt) /\
    (N d' = N d /\ AT d' = AT d /\ RM d' = RM d /\ DRM d' = DRM d) /\
    (forall (i : nat) (x : R), (i < Z.to_nat (N d))%nat ->
       (OMEGA_E d !! i = Some x ->
        OMEGA_E d' !! i =
          Some (if Req_dec_T x 0 then slot_azimuth d i else x)) /\
       (ACN d !! i = Some x ->
        ACN d' !! i =
          Some (if Req_dec_T x 0 then slot_azimuth d i else x)) /\
       (OMEGA_S d !! i = Some x ->
        OMEGA_S d' !! i =
          Some (if Req_dec_T x 0 then slot_azimuth d i - AT d else x))) /\
    (forall i : nat, (Z.to_nat (N d) <= i)%nat ->
       OMEGA_E d' !! i = OMEGA_E d !! i /\
       ACN d' !! i = ACN d !! i /\
       OMEGA_S d' !! i = OMEGA_S d !! i) /\
    ((0 < N d)%Z ->
     RE d' = (if Req_dec_T (RE d) 0 then RM d else RE d) /\
     RS d' = (if Req_dec_T (RS d) 0 then RM d else RS d)) /\
    ((N d <= 0)%Z -> d' = d).
Proof.
  intros LE LS LA.
  exists (defaults_upto d (Z.to_nat (N d))).
  split; [now apply post_init_defaults_upto|].
  split; [rewrite FFAG_post_init_is_Dipoles_post_init;
          now apply post_init_defaults_upto|].
  split; [repeat split|].
  split; [|split; [|split]].
  - intros i x Hi. cbn -[upto]. rewrite !upto_lookup.
    rewrite !bool_decide_eq_true_2 by exact Hi.
    repeat split; intros ->; reflexivity.
  - intros i Hi. cbn -[upto]. rewrite !upto_lookup.
    rewrite !bool_decide_eq_false_2 by lia.
    repeat split.
    + now destruct (OMEGA_E d !! i).
    + now destruct (ACN d !! i).
    + now destruct (OMEGA_S d !! i).
  - intros HN. cbn -[upto].
    rewrite !bool_decide_eq_true_2 by lia. split; reflexivity.
  - intros HN. replace (Z.to_nat (N d)) with 0%nat by lia.
    apply defaults_upto_0.
Qed.

(** X8. [post_init] of a multi-dipole element is idempotent: when it has
    returned, running it again raises nothing and changes nothing. *)
Theorem post_init_idempotent (d d' : PolarMulti.t) :
  Dipoles_post_init d = (d', Ok tt) ->
  Dipoles_post_init d' = (d', Ok tt) /\ FFAG_post_init d' = (d', Ok tt).
Proof.
  intros E. rewrite FFAG_post_init_is_Dipoles_post_init.
  assert (Hlen : (Z.to_nat (N d) <= length (OMEGA_E d))%nat /\
                 (Z.to_nat (N d) <= length (OMEGA_S d))%nat /\
                 (Z.to_nat (N d) <= length (ACN d))%nat).
  { destruct (le_lt_dec (Z.to_nat (N d)) (length (OMEGA_E d)));
      destruct (le_lt_dec (Z.to_nat (N d)) (length (OMEGA_S d)));
      destruct (le_lt_dec (Z.to_nat (N d)) (length (ACN d)));
      try (split; [assumption | split; assumption]);
      exfalso;
      pose proof (post_init_IndexError d ltac:(lia)) as Hr;
      rewrite E in Hr; discriminate Hr. }
  destruct Hlen as (LE & LS & LA).
  rewrite (post_init_defaults_upto d LE LS LA) in E.
  injection E as <-.
  assert (R : Dipoles_post_init (defaults_upto d (Z.to_nat (N d))) =
              (defaults_upto d (Z.to_nat (N d)), Ok tt)).
  { rewrite post_init_defaults_upto; cbn -[upto];
      rewrite ?upto_length; try assumption.
    now rewrite defaults_upto_twice. }
  split; exact R.
Qed.

Ltac dipole_fields :=
  cbn [Dipole.AT Dipole.RM Dipole.ACENT Dipole.OMEGA_E Dipole.OMEGA_S
       Dipole.RE Dipole.RS Dipole.with_OMEGA_E Dipole.with_OMEGA_S
       Dipole.with_ACENT Dipole.with_RE Dipole.with_RS].

Lemma one_dipole_defaults (d : Dipole.t) :
  defaults_upto (one_dipole d) 1 = one_dipole (Dipole_post_init d).
Proof.
  destruct d as [at_ rm acent oe os re rs].
  unfold Dipole_post_init. dipole_fields.
  destruct (Req_dec_T oe 0) as [He|He]; dipole_fields;
    (destruct (Req_dec_T os 0) as [Hs|Hs]; dipole_fields;
     (destruct (Req_dec_T acent 0) as [Ha|Ha]; dipole_fields;
      (destruct (Req_dec_T re 0) as [Hre|Hre]; dipole_fields;
       (destruct (Req_dec_T rs 0) as [Hrs|Hrs]; dipole_fields;
        apply t_eq;
        cbn [one_dipole defaults_upto N AT RM ACN DRM OMEGA_E OMEGA_S RE RS
             upto imap];
        dipole_fields;
        rewrite ?bool_decide_eq_true_2 by lia;
        unfold defaulted, defaulted_exit, defaulted_radius, slot_azimuth;
        cbn [one_dipole N AT RM INR]; dipole_fields;
        repeat (destruct (Req_dec_T _ 0); try contradiction);
        try reflexivity; f_equal; subst; field)))).
Qed.

(** X9. [Dipole.post_init] gives a dipole the defaults that
    [Dipoles.post_init] gives to a [Dipoles] of one magnet: [AT/2] for a
    zero [OMEGA_E] or [ACENT], [-AT/2] for a zero [OMEGA_S], and [RM] for a
    zero [RE] or [RS]. *)
Theorem Dipole_post_init_is_one_slot (d : Dipole.t) :
  Dipoles_post_init (one_dipole d) =
    (one_dipole (Dipole_post_init d), Ok tt).
Proof.
  rewrite post_init_defaults_upto by (simpl; lia).
  change (Z.to_nat (N (one_dipole d))) with 1%nat.
  now rewrite one_dipole_defaults.
Qed.

End PostInitDefaults.

Lemma post_init_defaults_witness :
  exists d' : PolarMulti.t,
    Dipoles_post_init three_slots_defaults = (d', Ok tt) /\
    PolarMulti.OMEGA_S d' !! 1%nat =
      Some (if Req_dec_T 0 0
            then PolarMulti.slot_azimuth three_slots_defaults 1 - 1
            else 0) /\
    PolarMulti.RE d' = (if Req_dec_T 0 0 then 1 else 0).
Proof.
  destruct (post_init_defaults three_slots_defaults)
    as (d' & E & _ & _ & Hlt & _ & Hr & _); [simpl; lia..|].
  exists d'. split; [exact E|]. split.
  - apply (Hlt 1%nat 0); [simpl; lia | reflexivity].
  - apply Hr. reflexivity.
Defined.

Lemma post_init_idempotent_witness :
  exists d' : PolarMulti.t,
    Dipoles_post_init three_slots_defaults = (d', Ok tt) /\
    Dipoles_post_init d' = (d', Ok tt).
Proof.
  destruct (post_init_Ok three_slots_defaults) as (d' & E & _);
    [simpl; lia..|].
  exists d'. split; [exact E|].
  exact (proj1 (post_init_idempotent three_slots_defaults d' E)).
Defined.

(** ** Lengths, gradients and the geometry of polar magnets *)

Lemma Rabs_sin_le (x : R) : Rabs (sin x) <= Rabs x.
Proof.
  assert (Hpos : forall y : R, 0 < y -> Rabs (sin y) <= y).
  { intros y Hy. pose proof (sin_lt_x y Hy) as Hlt.
    apply Rabs_le. split; [|lra].
    destruct (Rlt_dec y 2) as [H2|H2].
    - pose proof (sin_pos_tech y (conj Hy H2)). lra.
    - pose proof (SIN_bound y). lra. }
  destruct (Rtotal_order x 0) as [Hx|[->|Hx]].
  - rewrite <- (Ropp_involutive x) at 1.
    rewrite sin_neg, Rabs_Ropp, (Rabs_left x Hx). apply Hpos. lra.
  - rewrite sin_0. lra.
  - rewrite (Rabs_right x) by lra. now apply Hpos.
Qed.

(** X10. [CartesianMagnet.post_init] with [LENGTH_IS_ARC_LENGTH]: given
    [KINEMATICS], a length and a non-zero field and rigidity, it replaces
    the length [XL], read as an arc of radius [rho = brho / field], by the
    chord [2 * rho * sin (XL / rho / 2)] of that arc, which is never longer
    than the arc, and keeps every other parameter. *)
Theorem CartesianMagnet_post_init_chord (s : CartesianMagnet)
    (k : Kinematics) (xl b : R) :
  LENGTH_IS_ARC_LENGTH s = true ->
  KINEMATICS s = Some k ->
  XL s = Some xl ->
  match B1 s with None => B0 s | Some b1 => Some b1 end = Some b ->
  b <> 0 -> brho k <> 0 ->
  exists s' : CartesianMagnet,
    CartesianMagnet_post_init s = Ok s' /\
    XL s' = Some (2 * (brho k / b) * sin (xl / (brho k / b) / 2)) /\
    Rabs (2 * (brho k / b) * sin (xl / (brho k / b) / 2)) <= Rabs xl /\
    KPOS s' = KPOS s /\ X_E s' = X_E s /\ X_S s' = X_S s /\
    XCE s' = XCE s /\ YCE s' = YCE s /\ ALE s' = ALE s /\
    B0 s' = B0 s /\ B1 s' = B1 s /\ KINEMATICS s' = KINEMATICS s /\
    LENGTH_IS_ARC_LENGTH s' = LENGTH_IS_ARC_LENGTH s.
Proof.
  intros Harc Hk Hxl Hb Hb0 Hr0.
  unfold CartesianMagnet_post_init. rewrite Harc, Hk, Hxl, Hb. simpl.
  eexists. split; [reflexivity|]. simpl.
  split; [reflexivity|]. split; [|repeat split; assumption].
  set (rho := brho k / b).
  assert (Hrho : rho <> 0).
  { unfold rho. intros H0. apply Hr0.
    replace (brho k) with (brho k / b * b) by (field; exact Hb0).
    rewrite H0. lra. }
  rewrite !Rabs_mult.
  replace (Rabs xl) with (Rabs 2 * Rabs rho * Rabs (xl / rho / 2)).
  - apply Rmult_le_compat_l; [|apply Rabs_sin_le].
    apply Rmult_le_pos; apply Rabs_pos.
  - rewrite <- !Rabs_mult. f_equal. field. exact Hrho.
Qed.

Ltac quadrupole_fields :=
  cbn [Quadrupole.R0 Quadrupole.B0 Quadrupole.X_E Quadrupole.LAM_E
       Quadrupole.X_S Quadrupole.LAM_S Quadrupole.with_X_E
       Quadrupole.with_X_S Quadrupole.with_B0].

Ltac quadrupole_cases :=
  repeat (match goal with
          | |- context [Req_dec_T ?x 0] =>
              destruct (Req_dec_T x 0);
              try contradiction; try (exfalso; lra); quadrupole_fields
          end).

Lemma Quadrupole_post_init_keeps (q : Quadrupole.t) :
  Quadrupole.R0 (Quadrupole_post_init q) = Quadrupole.R0 q /\
  Quadrupole.B0 (Quadrupole_post_init q) = Quadrupole.B0 q.
Proof.
  destruct q as [r0 b0 xe le xs ls].
  unfold Quadrupole_post_init. quadrupole_fields. quadrupole_cases.
  all: split; reflexivity.
Qed.

Lemma Quadrupole_post_init_twice (q : Quadrupole.t) :
  Quadrupole_post_init (Quadrupole_post_init q) = Quadrupole_post_init q.
Proof.
  destruct q as [r0 b0 xe le xs ls].
  unfold Quadrupole_post_init at 2. quadrupole_fields. quadrupole_cases.
  all: unfold Quadrupole_post_init; quadrupole_fields; quadrupole_cases.
  all: reflexivity.
Qed.

(** X11. The gradient of a quadrupole or octupole with a non-zero bore
    radius: reading [gradient] after setting it to [g] gives [g]; setting
    it to the value read changes nothing; and [post_init], which is
    idempotent, does not change it. *)
Theorem Quadrupole_gradient_round_trip (q : Quadrupole.t) (g : R) :
  Quadrupole.R0 q <> 0 ->
  Quadrupole_gradient (Quadrupole_set_gradient g q) = Some g /\
  (exists g0 : R,
     Quadrupole_gradient q = Some g0 /\ Quadrupole_set_gradient g0 q = q) /\
  Quadrupole_gradient (Quadrupole_post_init q) = Quadrupole_gradient q /\
  Quadrupole_post_init (Quadrupole_post_init q) = Quadrupole_post_init q.
Proof.
  intros HR. split; [|split; [|split]].
  - unfold Quadrupole_gradient, Quadrupole_set_gradient. quadrupole_fields.
    destruct (Req_dec_T (Quadrupole.R0 q) 0); [contradiction|].
    f_equal. field. exact HR.
  - unfold Quadrupole_gradient, Quadrupole_set_gradient.
    destruct (Req_dec_T (Quadrupole.R0 q) 0); [contradiction|].
    eexists. split; [reflexivity|].
    destruct q as [r0 b0 xe le xs ls]. unfold Quadrupole.with_B0.
    quadrupole_fields. f_equal. simpl in HR. field. exact HR.
  - unfold Quadrupole_gradient.
    destruct (Quadrupole_post_init_keeps q) as [-> ->]. reflexivity.
  - apply Quadrupole_post_init_twice.
Qed.

(** X12. The entrance face of a polar magnet whose poles span less than
    the field map: the offset of the face, the reference radius and the
    length of the drift are the sides of a right triangle, and the drift
    length is the offset times the sine of the half difference of the two
    angles, whose opposite is the angle of the face. *)
Theorem polar_efb_triangle (radius magnet_angle poles_angle : R) :
  cos ((magnet_angle - poles_angle) / 2) <> 0 ->
  (efb_offset_from_polar radius magnet_angle poles_angle)² =
    radius² + (drift_length_from_polar radius magnet_angle poles_angle)² /\
  drift_length_from_polar radius magnet_angle poles_angle =
    efb_offset_from_polar radius magnet_angle poles_angle *
    sin (- efb_angle_from_polar magnet_angle poles_angle).
Proof.
  intros Hc.
  unfold efb_offset_from_polar, drift_length_from_polar,
    efb_angle_from_polar, tan, Rsqr.
  replace (- (- (magnet_angle - poles_angle) / 2))
    with ((magnet_angle - poles_angle) / 2) by field.
  set (a := (magnet_angle - poles_angle) / 2) in *.
  pose proof (sin2_cos2 a) as Hsc. unfold Rsqr in Hsc.
  split; [|field; exact Hc].
  replace (radius * radius + radius * (sin a / cos a) *
                              (radius * (sin a / cos a)))
    with (radius * radius * (sin a * sin a + cos a * cos a) /
          (cos a * cos a)) by (field; exact Hc).
  rewrite Hsc. field. exact Hc.
Qed.

Lemma CartesianMagnet_post_init_chord_witness :
  exists s' : CartesianMagnet,
    CartesianMagnet_post_init sample_arc_bend = Ok s' /\
    XL s' = Some (2 * (1 / 1) * sin (1 / (1 / 1) / 2)) /\
    Rabs (2 * (1 / 1) * sin (1 / (1 / 1) / 2)) <= Rabs 1.
Proof.
  destruct (CartesianMagnet_post_init_chord sample_arc_bend
              {| brho := 1 |} 1 1 eq_refl eq_refl eq_refl eq_refl
              R1_neq_R0 R1_neq_R0)
    as (s' & E & Hxl & Hle & _).
  exists s'. split; [exact E|]. split; [exact Hxl | exact Hle].
Defined.

Lemma Quadrupole_gradient_round_trip_witness :
  Quadrupole_gradient (Quadrupole_set_gradient 3 sample_Q) = Some 3.
Proof.
  exact (proj1 (Quadrupole_gradient_round_trip sample_Q 3 R1_neq_R0)).
Defined.

Lemma polar_efb_triangle_witness :
  (efb_offset_from_polar 2 1 1)² =
    2² + (drift_length_from_polar 2 1 1)².
Proof.
  apply (polar_efb_triangle 2 1 1).
  replace ((1 - 1) / 2) with 0 by field. rewrite cos_0. exact R1_neq_R0.
Defined.

(** ** Path lengths along the reference trajectory *)

Lemma fold_right_Rmin_spec (x : R) (xs : list R) :
  (fold_right Rmin x xs = x \/ fold_right Rmin x xs ∈ xs) /\
  fold_right Rmin x xs <= x /\
  forall y : R, y ∈ xs -> fold_right Rmin x xs <= y.
Proof.
  induction xs as [|a xs (Hin & Hle & Hall)]; simpl.
  - split; [now left|]. split; [lra|]. intros y Hy. inversion Hy.
  - split; [|split].
    + destruct (Rle_dec a (fold_right Rmin x xs)).
      * rewrite Rmin_left by assumption. right. now left.
      * rewrite Rmin_right by lra.
        destruct Hin as [Hin|Hin]; [now left|]. right. now right.
    + pose proof (Rmin_r a (fold_right Rmin x xs)). lra.
    + intros y Hy. apply elem_of_cons in Hy as [->|Hy].
      * apply Rmin_l.
      * pose proof (Rmin_r a (fold_right Rmin x xs)).
        pose proof (Hall y Hy). lra.
Qed.



(** X14. [Drift.entry_s] steps back from the first sample by the first
    step of the trajectory: on a trajectory of at least two samples whose
    first sample is the smallest, it returns [S[0] - (S[1] - S[0])], where
    the accessor of the base class returns [S[0]]; on a trajectory of
    fewer than two samples it raises an [IndexError], where the base class
    returns the sample or [NaN]. *)
Theorem Drift_entry_s_steps_back (p : Patchable) (col : list R) :
  _reference_trajectory p = Some col ->
  ((length col < 2)%nat -> Drift_entry_s p = Raise IndexError) /\
  (forall s0 s1 : R,
     col !! 0%nat = Some s0 -> col !! 1%nat = Some s1 ->
     (forall s : R, s ∈ col -> s0 <= s) ->
     Patchable_entry_s p = Some s0 /\
     Drift_entry_s p = Ok (Some (s0 - (s1 - s0)))).
Proof.
  intros Hp. unfold Drift_entry_s, Patchable_entry_s, iloc. rewrite Hp.
  split.
  - intros Hl. destruct col as [|x [|y col]]; simpl in *;
      [reflexivity | reflexivity | lia].
  - intros s0 s1 H0 H1 Hmin. rewrite H1, H0.
    destruct col as [|x xs]; [discriminate H0|].
    simpl in H0. injection H0 as ->. simpl.
    destruct (fold_right_Rmin_spec s0 xs) as (Hin & Hle & _).
    assert (E : fold_right Rmin s0 xs = s0).
    { destruct Hin as [E|Hin]; [exact E|].
      assert (Hs : fold_right Rmin s0 xs ∈ s0 :: xs) by now right.
      pose proof (Hmin _ Hs). lra. }
    rewrite E. split; reflexivity.
Qed.


Lemma Drift_entry_s_steps_back_witness :
  Patchable_entry_s sample_drift = Some 1 /\
  Drift_entry_s sample_drift = Ok (Some (1 - (3 - 1))).
Proof.
  apply (proj2 (Drift_entry_s_steps_back sample_drift [1; 3; 2] eq_refl)
           1 3 eq_refl eq_refl).
  intros s Hs. rewrite !elem_of_cons, elem_of_nil in Hs.
  destruct Hs as [-> | [-> | [-> | []]]]; lra.
Defined.

(** ** Tracks in a point-like element and in a drift *)

Lemma try_except_assign_Ok {B : Type} (label : option string) (c : string)
    (s : DataFrame.Series) (e : exn) (h : M DataFrame.t unit)
    (k : unit -> M DataFrame.t B) (st : DataFrame.t) :
  bind (try_except (assign label c (Ok s)) e h) k st =
  bind (assign label c (Ok s)) k st.
Proof. reflexivity. Qed.

Lemma try_except_assign_KeyError {B : Type} (label : option string)
    (c : string) (k : unit -> M DataFrame.t B) (st : DataFrame.t) :
  bind (try_except (assign label c (Raise KeyError)) KeyError (ret tt)) k st
  = k tt st.
Proof. reflexivity. Qed.

Lemma try_except_assign_Ok_last (label : option string) (c : string)
    (s : DataFrame.Series) (e : exn) (h : M DataFrame.t unit)
    (st : DataFrame.t) :
  try_except (assign label c (Ok s)) e h st = assign label c (Ok s) st.
Proof. reflexivity. Qed.

Lemma try_except_assign_KeyError_last (label : option string) (c : string)
    (st : DataFrame.t) :
  try_except (assign label c (Raise KeyError)) KeyError (ret tt) st
  = (st, Ok tt).
Proof. reflexivity. Qed.

Lemma getitem_KeyError (df : DataFrame.t) (c : string) :
  c ∉ DataFrame.columns df -> DataFrame.getitem df c = Raise KeyError.
Proof.
  intros Hc. unfold DataFrame.getitem. now rewrite bool_decide_eq_false_2.
Qed.

Ltac lookup_cell_in c :=
  repeat (rewrite lookup_set_cell;
          first [ rewrite decide_True by reflexivity
                | rewrite decide_False by discriminate ]).

(** X15. [Patchable.adjust_tracks_variables] on a table holding the
    columns [X], [Y] and [Z] raises nothing, whether the columns [Yo] and
    [Zo] exist or not; it keeps the number and the labels of the rows, and
    the rows of other elements; in a row of the element it sets
    [SREF = X + entry_s], [YT = Y], [ZT = Z], and [YT0 = Yo], [ZT0 = Zo]
    when these columns exist; the coordinates [X], [Y], [Z], [Yo] and
    [Zo] themselves are kept. *)
Theorem Patchable_adjust_tracks_variables_rows (p : Patchable)
    (tracks : DataFrame.t) :
  (forall c : string,
     c ∈ ["X"; "Y"; "Z"] -> c ∈ DataFrame.columns tracks) ->
  exists tracks' : DataFrame.t,
    Patchable_adjust_tracks_variables p tracks = (tracks', Ok tt) /\
    length (DataFrame.rows tracks') = length (DataFrame.rows tracks) /\
    forall (i : nat) (r : DataFrame.Row),
      DataFrame.rows tracks !! i = Some r ->
      exists r' : DataFrame.Row,
        DataFrame.rows tracks' !! i = Some r' /\
        DataFrame.LABEL1 r' = DataFrame.LABEL1 r /\
        (Some (DataFrame.LABEL1 r) <> LABEL1 p -> r' = r) /\
        (Some (DataFrame.LABEL1 r) = LABEL1 p ->
         DataFrame.cells r' !! "SREF" =
           lift2 Rplus (DataFrame.cells r !! "X") (Patchable_entry_s p) /\
         DataFrame.cells r' !! "YT" = DataFrame.cells r !! "Y" /\
         DataFrame.cells r' !! "ZT" = DataFrame.cells r !! "Z" /\
         DataFrame.cells r' !! "YT0" =
           (if bool_decide ("Yo" ∈ DataFrame.columns tracks)
            then DataFrame.cells r !! "Yo"
            else DataFrame.cells r !! "YT0") /\
         DataFrame.cells r' !! "ZT0" =
           (if bool_decide ("Zo" ∈ DataFrame.columns tracks)
            then DataFrame.cells r !! "Zo"
            else DataFrame.cells r !! "ZT0") /\
         forall c : string,
           c ∈ ["X"; "Y"; "Z"; "Yo"; "Zo"] ->
           DataFrame.cells r' !! c = DataFrame.cells r !! c).
Proof.
  intros Hcols.
  destruct tracks as [cols rs]. simpl in Hcols.
  unfold Patchable_adjust_tracks_variables.
  erewrite bind_Ok by (unfold gets; reflexivity).
  rewrite !(getitem_Ok _ "X"), !(getitem_Ok _ "Y"), !(getitem_Ok _ "Z")
    by (apply Hcols; rewrite !elem_of_cons; auto 10).
  destruct (decide ("Yo" ∈ cols)) as [Hy|Hy];
    destruct (decide ("Zo" ∈ cols)) as [Hz|Hz].
  all: rewrite ?(bool_decide_eq_true_2 _ Hy), ?(bool_decide_eq_true_2 _ Hz),
         ?(bool_decide_eq_false_2 _ Hy), ?(bool_decide_eq_false_2 _ Hz).
  all: first [ rewrite (getitem_Ok _ "Yo") by exact Hy
             | rewrite (getitem_KeyError _ "Yo") by exact Hy ].
  all: first [ rewrite (getitem_Ok _ "Zo") by exact Hz
             | rewrite (getitem_KeyError _ "Zo") by exact Hz ].
  all: cbn [on_series DataFrame.rows DataFrame.columns].
  all: rewrite !sadd_map.
  all: replace {| DataFrame.columns := cols; DataFrame.rows := rs |}
         with {| DataFrame.columns := cols;
                 DataFrame.rows := map (fun r : DataFrame.Row => r) rs |}
         by now rewrite map_id.
  all: do 2 assign_step.
  all: first [ rewrite try_except_assign_Ok; assign_step
             | rewrite try_except_assign_KeyError ].
  all: assign_step.
  all: first [ rewrite try_except_assign_Ok_last
             | rewrite try_except_assign_KeyError_last ].
  all: eexists; (split;
         [first [ apply assign_map; intros ?; label_kept | reflexivity ]|]).
  all: cbn [DataFrame.rows]; (split; [now rewrite !length_map|]).
  all: intros i r Hi; rewrite !lookup_map, Hi;
       cbn [fmap option_fmap option_map];
       eexists; (split; [reflexivity|]); (split; [label_kept|]); split.
  all: try (intros Hne; unfold assigned;
            rewrite ?bool_decide_eq_false_2 by exact Hne; reflexivity).
  all: intros Heq; unfold assigned;
       rewrite ?bool_decide_eq_true_2 by exact Heq.
  all: repeat split; try (lookup_cell; reflexivity).
  all: intros c Hc; rewrite !elem_of_cons, elem_of_nil in Hc;
       destruct Hc as [-> | [-> | [-> | [-> | [-> | []]]]]];
       lookup_cell; reflexivity.
Qed.

Lemma assign_scalar_map (label : option string) (c : string)
    (v : R) (g : DataFrame.Row -> DataFrame.Row)
    (cols : list string) (rs : list DataFrame.Row) :
  (forall r, DataFrame.LABEL1 (g r) = DataFrame.LABEL1 r) ->
  assign_scalar label c v
       {| DataFrame.columns := cols; DataFrame.rows := map g rs |} =
    ({| DataFrame.columns := DataFrame.add_column c cols;
        DataFrame.rows :=
          map (assigned label c (fun _ => Some v) g) rs |}, Ok tt).
Proof.
  intros Hg.
  unfold assign_scalar, bind, gets, modify, DataFrame.mask,
    DataFrame.loc_set.
  cbn [DataFrame.rows DataFrame.columns].
  replace (map (fun _ : bool => Some v)
             (map (fun r => bool_decide (Some (DataFrame.LABEL1 r) = label))
                (map g rs)))
    with (map (fun _ : DataFrame.Row => Some v) rs)
    by now rewrite !map_map.
  now rewrite (set_rows_map label c (fun _ => Some v) g rs Hg).
Qed.

Lemma assign_scalar_bind_map {B : Type} (label : option string) (c : string)
    (v : R) (g : DataFrame.Row -> DataFrame.Row)
    (cols : list string) (rs : list DataFrame.Row)
    (k : unit -> M DataFrame.t B) :
  (forall r, DataFrame.LABEL1 (g r) = DataFrame.LABEL1 r) ->
  bind (assign_scalar label c v) k
       {| DataFrame.columns := cols; DataFrame.rows := map g rs |} =
    k tt {| DataFrame.columns := DataFrame.add_column c cols;
            DataFrame.rows :=
              map (assigned label c (fun _ => Some v) g) rs |}.
Proof. intros Hg. apply bind_Ok. now apply assign_scalar_map. Qed.

Ltac assign_scalar_step :=
  rewrite assign_scalar_bind_map; [|intros ?; label_kept].

(** X16. [Drift.adjust_tracks_variables] on a table holding the columns
    [X], [Y], [Z], [Yo] and [Zo], for a drift whose [entry_s] is defined:
    it raises nothing and keeps the number and the labels of the rows, and
    the rows of other elements; in a row of the drift it sets
    [SREF = X + entry_s] with the [entry_s] of the drift, [YT = Y],
    [YT0 = Yo], [ZT = Z], [ZT0 = Zo], and the six field components
    [BX], [BY], [BZ], [EX], [EY], [EZ] to zero. *)
Theorem Drift_adjust_tracks_variables_rows (p : Patchable)
    (tracks : DataFrame.t) (s0 : option R) :
  Drift_entry_s p = Ok s0 ->
  (forall c : string,
     c ∈ ["X"; "Y"; "Z"; "Yo"; "Zo"] -> c ∈ DataFrame.columns tracks) ->
  exists tracks' : DataFrame.t,
    Drift_adjust_tracks_variables p tracks = (tracks', Ok tt) /\
    length (DataFrame.rows tracks') = length (DataFrame.rows tracks) /\
    forall (i : nat) (r : DataFrame.Row),
      DataFrame.rows tracks !! i = Some r ->
      exists r' : DataFrame.Row,
        DataFrame.rows tracks' !! i = Some r' /\
        DataFrame.LABEL1 r' = DataFrame.LABEL1 r /\
        (Some (DataFrame.LABEL1 r) <> LABEL1 p -> r' = r) /\
        (Some (DataFrame.LABEL1 r) = LABEL1 p ->
         DataFrame.cells r' !! "SREF" =
           lift2 Rplus (DataFrame.cells r !! "X") s0 /\
         DataFrame.cells r' !! "YT" = DataFrame.cells r !! "Y" /\
         DataFrame.cells r' !! "YT0" = DataFrame.cells r !! "Yo" /\
         DataFrame.cells r' !! "ZT" = DataFrame.cells r !! "Z" /\
         DataFrame.cells r' !! "ZT0" = DataFrame.cells r !! "Zo" /\
         forall c : string,
           c ∈ ["BX"; "BY"; "BZ"; "EX"; "EY"; "EZ"] ->
           DataFrame.cells r' !! c = Some 0).
Proof.
  intros Hs Hcols.
  destruct tracks as [cols rs]. simpl in Hcols.
  unfold Drift_adjust_tracks_variables.
  erewrite bind_Ok by (unfold gets; reflexivity).
  rewrite !getitem_Ok
    by (apply Hcols; rewrite !elem_of_cons; auto 10).
  rewrite Hs. cbn [DataFrame.rows]. rewrite !sadd_map.
  replace {| DataFrame.columns := cols; DataFrame.rows := rs |}
    with {| DataFrame.columns := cols;
            DataFrame.rows := map (fun r : DataFrame.Row => r) rs |}
    by now rewrite map_id.
  do 5 assign_step. do 5 assign_scalar_step.
  eexists. split.
  { apply assign_scalar_map. intros ?. label_kept. }
  cbn [DataFrame.rows]. split; [now rewrite !length_map|].
  intros i r Hi. rewrite !lookup_map, Hi. cbn [fmap option_fmap option_map].
  eexists. split; [reflexivity|].
  split; [label_kept|].
  split.
  - intros Hne. unfold assigned.
    rewrite bool_decide_eq_false_2 by exact Hne. reflexivity.
  - intros Heq. unfold assigned.
    rewrite bool_decide_eq_true_2 by exact Heq.
    repeat split; try (lookup_cell; reflexivity).
    intros c Hc; rewrite !elem_of_cons, elem_of_nil in Hc;
      destruct Hc as [-> | [-> | [-> | [-> | [-> | [-> | []]]]]]];
      lookup_cell; reflexivity.
Qed.

Lemma Patchable_adjust_tracks_variables_Ok (p : Patchable)
    (tracks : DataFrame.t) :
  (forall c : string,
     c ∈ ["X"; "Y"; "Z"] -> c ∈ DataFrame.columns tracks) ->
  snd (Patchable_adjust_tracks_variables p tracks) = Ok tt.
Proof.
  intros Hcols.
  unfold Patchable_adjust_tracks_variables.
  erewrite bind_Ok by (unfold gets; reflexivity).
  rewrite !(getitem_Ok _ "X"), !(getitem_Ok _ "Y"), !(getitem_Ok _ "Z")
    by (apply Hcols; rewrite !elem_of_cons; auto 10).
  unfold DataFrame.getitem.
  destruct (bool_decide ("Yo" ∈ DataFrame.columns tracks));
    destruct (bool_decide ("Zo" ∈ DataFrame.columns tracks));
    reflexivity.
Qed.

Lemma PolarMagnet_adjust_tracks_variables_KeyError (p : Patchable)
    (s : PolarMagnet) (tracks : DataFrame.t) (rm : R) :
  RM s = Some rm ->
  (forall c : string,
     c ∈ ["X"; "Y"; "Z"] -> c ∈ DataFrame.columns tracks) ->
  "Yo" ∉ DataFrame.columns tracks \/ "Zo" ∉ DataFrame.columns tracks ->
  snd (PolarMagnet_adjust_tracks_variables p s tracks) = Raise KeyError.
Proof.
  intros HRM Hcols Hmiss.
  destruct tracks as [cols rs]. simpl in Hcols, Hmiss.
  unfold PolarMagnet_adjust_tracks_variables.
  erewrite bind_Ok by (unfold gets; reflexivity). rewrite HRM.
  erewrite bind_Ok by (unfold lift; reflexivity).
  rewrite !(getitem_Ok _ "X"), !(getitem_Ok _ "Y"), !(getitem_Ok _ "Z")
    by (apply Hcols; rewrite !elem_of_cons; auto 10).
  destruct (decide ("Yo" ∈ cols)) as [Hy|Hy].
  - destruct Hmiss as [Hm|Hz]; [contradiction|].
    rewrite !(getitem_Ok _ "Yo") by exact Hy.
    rewrite !(getitem_KeyError _ "Zo") by exact Hz.
    cbn [on_series on_series2 DataFrame.rows].
    rewrite !smap_map, !szip_map, !smap_map, !sadd_map.
    replace {| DataFrame.columns := cols; DataFrame.rows := rs |}
      with {| DataFrame.columns := cols;
              DataFrame.rows := map (fun r : DataFrame.Row => r) rs |}
      by now rewrite map_id.
    do 7 assign_step. reflexivity.
  - rewrite !(getitem_KeyError _ "Yo") by exact Hy.
    cbn [on_series on_series2 DataFrame.rows].
    rewrite !smap_map, ?szip_map, ?smap_map, ?sadd_map.
    replace {| DataFrame.columns := cols; DataFrame.rows := rs |}
      with {| DataFrame.columns := cols;
              DataFrame.rows := map (fun r : DataFrame.Row => r) rs |}
      by now rewrite map_id.
    do 2 assign_step. reflexivity.
Qed.

Lemma FFAGSpirale_adjust_tracks_variables_KeyError (p : Patchable)
    (d : PolarMulti.t) (tracks : DataFrame.t) :
  (forall c : string,
     c ∈ ["X"; "Y"; "Z"] -> c ∈ DataFrame.columns tracks) ->
  "Yo" ∉ DataFrame.columns tracks \/ "Zo" ∉ DataFrame.columns tracks ->
  snd (FFAGSpirale_adjust_tracks_variables p d tracks) = Raise KeyError.
Proof.
  intros Hcols Hmiss.
  destruct tracks as [cols rs]. simpl in Hcols, Hmiss.
  unfold FFAGSpirale_adjust_tracks_variables.
  erewrite bind_Ok by (unfold gets; reflexivity).
  rewrite !(getitem_Ok _ "X"), !(getitem_Ok _ "Y"), !(getitem_Ok _ "Z")
    by (apply Hcols; rewrite !elem_of_cons; auto 10).
  destruct (decide ("Yo" ∈ cols)) as [Hy|Hy].
  - destruct Hmiss as [Hm|Hz]; [contradiction|].
    rewrite !(getitem_Ok _ "Yo") by exact Hy.
    rewrite !(getitem_KeyError _ "Zo") by exact Hz.
    cbn [on_series on_series2 DataFrame.rows].
    rewrite !smap_map, !szip_map, !smap_map, !sadd_map.
    replace {| DataFrame.columns := cols; DataFrame.rows := rs |}
      with {| DataFrame.columns := cols;
              DataFrame.rows := map (fun r : DataFrame.Row => r) rs |}
      by now rewrite map_id.
    do 7 assign_step. reflexivity.
  - rewrite !(getitem_KeyError _ "Yo") by exact Hy.
    cbn [on_series on_series2 DataFrame.rows].
    rewrite !smap_map, ?szip_map, ?smap_map, ?sadd_map.
    replace {| DataFrame.columns := cols; DataFrame.rows := rs |}
      with {| DataFrame.columns := cols;
              DataFrame.rows := map (fun r : DataFrame.Row => r) rs |}
      by now rewrite map_id.
    do 2 assign_step. reflexivity.
Qed.

(** X17. A table of tracks that lacks the initial coordinates: where
    [Yo] or [Zo] is missing from a table holding [X], [Y] and [Z], the
    method of the base class returns normally, and its overrides in
    [Drift], [PolarMagnet] and [FFAGSpirale], which do not catch the
    error, raise a [KeyError]. *)
Theorem overrides_need_initial_coordinates (p : Patchable)
    (tracks : DataFrame.t) (s0 : option R) :
  Drift_entry_s p = Ok s0 ->
  (forall c : string,
     c ∈ ["X"; "Y"; "Z"] -> c ∈ DataFrame.columns tracks) ->
  "Yo" ∉ DataFrame.columns tracks \/ "Zo" ∉ DataFrame.columns tracks ->
  snd (Patchable_adjust_tracks_variables p tracks) = Ok tt /\
  snd (Drift_adjust_tracks_variables p tracks) = Raise KeyError /\
  (forall (s : PolarMagnet) (rm : R),
     RM s = Some rm ->
     snd (PolarMagnet_adjust_tracks_variables p s tracks) =
       Raise KeyError) /\
  (forall d : PolarMulti.t,
     snd (FFAGSpirale_adjust_tracks_variables p d tracks) =
       Raise KeyError).
Proof.
  intros Hs Hcols Hmiss.
  split; [now apply Patchable_adjust_tracks_variables_Ok|].
  split; [|split].
  - unfold Drift_adjust_tracks_variables.
    erewrite bind_Ok by (unfold gets; reflexivity).
    rewrite !(getitem_Ok _ "X"), !(getitem_Ok _ "Y"), !(getitem_Ok _ "Z")
      by (apply Hcols; rewrite !elem_of_cons; auto 10).
    rewrite Hs.
    destruct (decide ("Yo" ∈ DataFrame.columns tracks)) as [Hy|Hy].
    + destruct Hmiss as [Hm|Hz]; [contradiction|].
      rewrite (getitem_Ok _ "Yo") by exact Hy.
      rewrite (getitem_KeyError _ "Zo") by exact Hz. reflexivity.
    + rewrite (getitem_KeyError _ "Yo") by exact Hy. reflexivity.
  - intros s rm HRM.
    now apply (PolarMagnet_adjust_tracks_variables_KeyError p s tracks rm).
  - intros d. now apply FFAGSpirale_adjust_tracks_variables_KeyError.
Qed.

(** X18. [FFAGSpirale.adjust_tracks_variables] re-projects the tracks of
    a spiral FFAG like the polar method, the angle being counted from the
    middle of the magnet: on a table holding the columns [X], [Y], [Z],
    [Yo], [Zo] it raises nothing and keeps the rows of other elements; in
    a row of the element with raw coordinates [X = x] and [Y = y]:
    [ANGLE = 100 * x + AT / 2], [SREF = RM * ANGLE + entry_s],
    [X = y * sin(ANGLE)] and [Y = y * cos(ANGLE) - RM]. *)
Theorem FFAGSpirale_track_reprojection (p : Patchable) (d : PolarMulti.t)
    (tracks : DataFrame.t) (s0 : R) :
  Patchable_entry_s p = Some s0 ->
  (forall c : string,
     c ∈ ["X"; "Y"; "Z"; "Yo"; "Zo"] -> c ∈ DataFrame.columns tracks) ->
  exists tracks' : DataFrame.t,
    FFAGSpirale_adjust_tracks_variables p d tracks = (tracks', Ok tt) /\
    length (DataFrame.rows tracks') = length (DataFrame.rows tracks) /\
    forall (i : nat) (r : DataFrame.Row),
      DataFrame.rows tracks !! i = Some r ->
      exists r' : DataFrame.Row,
        DataFrame.rows tracks' !! i = Some r' /\
        DataFrame.LABEL1 r' = DataFrame.LABEL1 r /\
        (Some (DataFrame.LABEL1 r) <> LABEL1 p -> r' = r) /\
        (Some (DataFrame.LABEL1 r) = LABEL1 p ->
         forall x y : R,
           DataFrame.cells r !! "X" = Some x ->
           DataFrame.cells r !! "Y" = Some y ->
           DataFrame.cells r' !! "ANGLE" =
             Some (100 * x + PolarMulti.AT d / 2) /\
           DataFrame.cells r' !! "SREF" =
             Some (PolarMulti.RM d * (100 * x + PolarMulti.AT d / 2) + s0) /\
           DataFrame.cells r' !! "X" =
             Some (y * sin (100 * x + PolarMulti.AT d / 2)) /\
           DataFrame.cells r' !! "Y" =
             Some (y * cos (100 * x + PolarMulti.AT d / 2)
                   - PolarMulti.RM d)).
Proof.
  intros Hs Hcols.
  destruct tracks as [cols rs]. simpl in Hcols.
  unfold FFAGSpirale_adjust_tracks_variables.
  erewrite bind_Ok by (unfold gets; reflexivity).
  rewrite !getitem_Ok
    by (apply Hcols; rewrite !elem_of_cons; auto 10).
  cbn [on_series on_series2 DataFrame.rows].
  rewrite !smap_map, !szip_map, !smap_map, !sadd_map.
  replace {| DataFrame.columns := cols; DataFrame.rows := rs |}
    with {| DataFrame.columns := cols;
            DataFrame.rows := map (fun r : DataFrame.Row => r) rs |}
    by now rewrite map_id.
  do 11 assign_step.
  eexists. split.
  { apply assign_map. intros ?. label_kept. }
  cbn [DataFrame.rows]. split; [now rewrite !length_map|].
  intros i r Hi. rewrite !lookup_map, Hi. cbn [fmap option_fmap option_map].
  eexists. split; [reflexivity|].
  split; [label_kept|].
  split.
  - intros Hne. unfold assigned.
    rewrite bool_decide_eq_false_2 by exact Hne. reflexivity.
  - intros Heq x y Hx Hy. unfold assigned.
    rewrite bool_decide_eq_true_2 by exact Heq.
    repeat split; lookup_cell; rewrite ?Hx, ?Hy, ?Hs; reflexivity.
Qed.

Lemma Patchable_adjust_tracks_variables_rows_witness :
  exists tracks' : DataFrame.t,
    Patchable_adjust_tracks_variables sample_D1 sample_tracks_XYZ =
      (tracks', Ok tt) /\
    (exists r' : DataFrame.Row,
       DataFrame.rows tracks' !! 0%nat = Some r' /\
       DataFrame.cells r' !! "SREF" = Some (1 + 0) /\
       DataFrame.cells r' !! "YT" = Some 2 /\
       DataFrame.cells r' !! "YT0" = None) /\
    DataFrame.rows tracks' !! 1%nat = Some (sample_row "Q1").
Proof.
  destruct (Patchable_adjust_tracks_variables_rows sample_D1
              sample_tracks_XYZ)
    as (tracks' & E & _ & Hrows).
  { intros c Hc. exact Hc. }
  exists tracks'. split; [exact E|]. split.
  - destruct (Hrows 0%nat (sample_row "D1") eq_refl)
      as (r' & Hr' & _ & _ & Hmatch).
    exists r'. split; [exact Hr'|].
    destruct (Hmatch eq_refl) as (H1 & H2 & _ & H4 & _).
    split; [exact H1|]. split; [exact H2|].
    rewrite H4, bool_decide_eq_false_2; [reflexivity|].
    intros H. simpl in H. rewrite !elem_of_cons, elem_of_nil in H.
    destruct H as [H | [H | [H | []]]]; discriminate H.
  - destruct (Hrows 1%nat (sample_row "Q1") eq_refl)
      as (r' & Hr' & _ & Hother & _).
    rewrite Hr'. f_equal. apply Hother. discriminate.
Defined.

Lemma Drift_adjust_tracks_variables_rows_witness :
  exists tracks' : DataFrame.t,
    Drift_adjust_tracks_variables sample_drift sample_tracks =
      (tracks', Ok tt) /\
    (exists r' : DataFrame.Row,
       DataFrame.rows tracks' !! 0%nat = Some r' /\
       DataFrame.cells r' !! "YT0" = Some 2 /\
       DataFrame.cells r' !! "BX" = Some 0 /\
       DataFrame.cells r' !! "EZ" = Some 0) /\
    DataFrame.rows tracks' !! 1%nat = Some (sample_row "Q1").
Proof.
  destruct (Drift_adjust_tracks_variables_rows sample_drift sample_tracks _
              eq_refl)
    as (tracks' & E & _ & Hrows).
  { intros c Hc. exact Hc. }
  exists tracks'. split; [exact E|]. split.
  - destruct (Hrows 0%nat (sample_row "D1") eq_refl)
      as (r' & Hr' & _ & _ & Hmatch).
    exists r'. split; [exact Hr'|].
    destruct (Hmatch eq_refl) as (_ & _ & H3 & _ & _ & HB).
    split; [exact H3|].
    split; apply HB; rewrite !elem_of_cons; auto 10.
  - destruct (Hrows 1%nat (sample_row "Q1") eq_refl)
      as (r' & Hr' & _ & Hother & _).
    rewrite Hr'. f_equal. apply Hother. discriminate.
Defined.

Lemma overrides_need_initial_coordinates_witness :
  snd (Patchable_adjust_tracks_variables sample_drift sample_tracks_XYZ) =
    Ok tt /\
  snd (Drift_adjust_tracks_variables sample_drift sample_tracks_XYZ) =
    Raise KeyError /\
  snd (PolarMagnet_adjust_tracks_variables sample_drift sample_dipole
         sample_tracks_XYZ) = Raise KeyError.
Proof.
  destruct (overrides_need_initial_coordinates sample_drift
              sample_tracks_XYZ _ eq_refl) as (H1 & H2 & H3 & _).
  - intros c Hc. exact Hc.
  - left. intros H. simpl in H. rewrite !elem_of_cons, elem_of_nil in H.
    destruct H as [H | [H | [H | []]]]; discriminate H.
  - split; [exact H1|]. split; [exact H2|].
    exact (H3 sample_dipole 2 eq_refl).
Defined.

Lemma FFAGSpirale_track_reprojection_witness :
  exists tracks' : DataFrame.t,
    FFAGSpirale_adjust_tracks_variables sample_D1 three_slots_defaults
      sample_tracks = (tracks', Ok tt) /\
    (exists r' : DataFrame.Row,
       DataFrame.rows tracks' !! 0%nat = Some r' /\
       DataFrame.cells r' !! "ANGLE" = Some (100 * 1 + 1 / 2) /\
       DataFrame.cells r' !! "X" = Some (2 * sin (100 * 1 + 1 / 2))) /\
    DataFrame.rows tracks' !! 1%nat = Some (sample_row "Q1").
Proof.
  destruct (FFAGSpirale_track_reprojection sample_D1 three_slots_defaults
              sample_tracks 0 eq_refl)
    as (tracks' & E & _ & Hrows).
  { intros c Hc. exact Hc. }
  exists tracks'. split; [exact E|]. split.
  - destruct (Hrows 0%nat (sample_row "D1") eq_refl)
      as (r' & Hr' & _ & _ & Hmatch).
    exists r'. split; [exact Hr'|].
    destruct (Hmatch eq_refl 1 2 eq_refl eq_refl) as (H1 & _ & H3 & _).
    split; [exact H1 | exact H3].
  - destruct (Hrows 1%nat (sample_row "Q1") eq_refl)
      as (r' & Hr' & _ & Hother & _).
    rewrite Hr'. f_equal. apply Hother. discriminate.
Defined.

(** ** A bend aligned on its chord ([KPOS = 3]) *)

Section Chord.

Context {F : Type} `{Frame F}.


End Chord.


(** ** Re-projecting twice *)

Lemma add_column_elem (c c' : string) (cols : list string) :
  c ∈ cols -> c ∈ DataFrame.add_column c' cols.
Proof.
  intros Hc. unfold DataFrame.add_column.
  destruct (bool_decide (c' ∈ cols)); [exact Hc|].
  apply elem_of_app. now left.
Qed.

(** One call of the polar method, with the columns it keeps and every
    cell it writes from [X] and [Y]. *)
Lemma PolarMagnet_adjust_tracks_variables_run (p : Patchable)
    (s : PolarMagnet) (tracks : DataFrame.t) (rm s0 : R) :
  RM s = Some rm ->
  Patchable_entry_s p = Some s0 ->
  (forall c : string,
     c ∈ ["X"; "Y"; "Z"; "Yo"; "Zo"] -> c ∈ DataFrame.columns tracks) ->
  exists tracks' : DataFrame.t,
    PolarMagnet_adjust_tracks_variables p s tracks = (tracks', Ok tt) /\
    (forall c : string,
       c ∈ DataFrame.columns tracks -> c ∈ DataFrame.columns tracks') /\
    forall (i : nat) (r : DataFrame.Row),
      DataFrame.rows tracks !! i = Some r ->
      exists r' : DataFrame.Row,
        DataFrame.rows tracks' !! i = Some r' /\
        DataFrame.LABEL1 r' = DataFrame.LABEL1 r /\
        (Some (DataFrame.LABEL1 r) = LABEL1 p ->
         forall x y : R,
           DataFrame.cells r !! "X" = Some x ->
           DataFrame.cells r !! "Y" = Some y ->
           DataFrame.cells r' !! "ANGLE" = Some (100 * x) /\
           DataFrame.cells r' !! "R" = Some y /\
           DataFrame.cells r' !! "SREF" = Some (rm * (100 * x) + s0) /\
           DataFrame.cells r' !! "YT" = Some (y - rm) /\
           DataFrame.cells r' !! "X" = Some (y * sin (100 * x)) /\
           DataFrame.cells r' !! "Y" = Some (y * cos (100 * x) - rm)).
Proof.
  intros HRM Hs Hcols.
  destruct tracks as [cols rs]. simpl in Hcols.
  unfold PolarMagnet_adjust_tracks_variables.
  erewrite bind_Ok by (unfold gets; reflexivity). rewrite HRM.
  erewrite bind_Ok by (unfold lift; reflexivity).
  rewrite !getitem_Ok
    by (apply Hcols; rewrite !elem_of_cons; auto 10).
  cbn [on_series on_series2 DataFrame.rows].
  rewrite !smap_map, !szip_map, !smap_map, !sadd_map.
  replace {| DataFrame.columns := cols; DataFrame.rows := rs |}
    with {| DataFrame.columns := cols;
            DataFrame.rows := map (fun r : DataFrame.Row => r) rs |}
    by now rewrite map_id.
  do 11 assign_step.
  eexists. split.
  { apply assign_map. intros ?. label_kept. }
  cbn [DataFrame.rows DataFrame.columns]. split.
  { intros c Hc. now repeat apply add_column_elem. }
  intros i r Hi. rewrite !lookup_map, Hi. cbn [fmap option_fmap option_map].
  eexists. split; [reflexivity|].
  split; [label_kept|].
  intros Heq x y Hx Hy. unfold assigned.
  rewrite bool_decide_eq_true_2 by exact Heq.
  repeat split; lookup_cell; rewrite ?Hx, ?Hy, ?Hs; reflexivity.
Qed.

(** X20. [PolarMagnet.adjust_tracks_variables] is not idempotent: it
    overwrites the columns [X] and [Y] it reads, so a second call on the
    same table takes the Cartesian coordinates written by the first one
    for the polar ones.  In a row of the element with raw coordinates
    [X = x] and [Y = y], after two calls [ANGLE] is
    [100 * (y * sin (100 * x))], [R] is [y * cos (100 * x) - RM], and [X]
    is the product of that radius with the sine of that angle. *)
Theorem polar_track_reprojection_twice (p : Patchable) (s : PolarMagnet)
    (tracks : DataFrame.t) (rm s0 : R) :
  RM s = Some rm ->
  Patchable_entry_s p = Some s0 ->
  (forall c : string,
     c ∈ ["X"; "Y"; "Z"; "Yo"; "Zo"] -> c ∈ DataFrame.columns tracks) ->
  exists tracks1 tracks2 : DataFrame.t,
    PolarMagnet_adjust_tracks_variables p s tracks = (tracks1, Ok tt) /\
    PolarMagnet_adjust_tracks_variables p s tracks1 = (tracks2, Ok tt) /\
    forall (i : nat) (r : DataFrame.Row) (x y : R),
      DataFrame.rows tracks !! i = Some r ->
      Some (DataFrame.LABEL1 r) = LABEL1 p ->
      DataFrame.cells r !! "X" = Some x ->
      DataFrame.cells r !! "Y" = Some y ->
      exists r2 : DataFrame.Row,
        DataFrame.rows tracks2 !! i = Some r2 /\
        DataFrame.cells r2 !! "ANGLE" = Some (100 * (y * sin (100 * x))) /\
        DataFrame.cells r2 !! "R" = Some (y * cos (100 * x) - rm) /\
        DataFrame.cells r2 !! "X" =
          Some ((y * cos (100 * x) - rm) *
                sin (100 * (y * sin (100 * x)))).
Proof.
  intros HRM Hs Hcols.
  destruct (PolarMagnet_adjust_tracks_variables_run p s tracks rm s0
              HRM Hs Hcols) as (t1 & E1 & Hc1 & Hr1).
  destruct (PolarMagnet_adjust_tracks_variables_run p s t1 rm s0 HRM Hs)
    as (t2 & E2 & _ & Hr2).
  { intros c Hc. apply Hc1, Hcols, Hc. }
  exists t1, t2. split; [exact E1|]. split; [exact E2|].
  intros i r x y Hi Hl Hx Hy.
  destruct (Hr1 i r Hi) as (r1 & Hi1 & Hl1 & Hm1).
  destruct (Hm1 Hl x y Hx Hy) as (_ & _ & _ & _ & Hx1 & Hy1).
  destruct (Hr2 i r1 Hi1) as (r2 & Hi2 & _ & Hm2).
  rewrite <- Hl1 in Hl.
  destruct (Hm2 Hl _ _ Hx1 Hy1) as (HA & HR & _ & _ & HX & _).
  exists r2. auto.
Qed.

Lemma polar_track_reprojection_twice_witness :
  exists tracks1 tracks2 : DataFrame.t,
    PolarMagnet_adjust_tracks_variables sample_D1 sample_dipole
      sample_tracks = (tracks1, Ok tt) /\
    PolarMagnet_adjust_tracks_variables sample_D1 sample_dipole
      tracks1 = (tracks2, Ok tt) /\
    exists r2 : DataFrame.Row,
      DataFrame.rows tracks2 !! 0%nat = Some r2 /\
      DataFrame.cells r2 !! "ANGLE" = Some (100 * (2 * sin (100 * 1))).
Proof.
  destruct (polar_track_reprojection_twice sample_D1 sample_dipole
              sample_tracks 2 0 eq_refl eq_refl)
    as (t1 & t2 & E1 & E2 & Hrows).
  { intros c Hc. exact Hc. }
  exists t1, t2. split; [exact E1|]. split; [exact E2|].
  destruct (Hrows 0%nat (sample_row "D1") 1 2 eq_refl eq_refl eq_refl
              eq_refl) as (r2 & Hi & HA & _).
  exists r2. split; [exact Hi | exact HA].
Defined.

Lemma add_column_self (c : string) (cols : list string) :
  c ∈ DataFrame.add_column c cols.
Proof.
  unfold DataFrame.add_column.
  destruct (decide (c ∈ cols)) as [Hc|Hc].
  - now rewrite bool_decide_eq_true_2.
  - rewrite bool_decide_eq_false_2 by exact Hc.
    apply elem_of_app. right. now left.
Qed.

Lemma add_column_id (c : string) (cols : list string) :
  c ∈ cols -> DataFrame.add_column c cols = cols.
Proof.
  intros Hc. unfold DataFrame.add_column.
  now rewrite bool_decide_eq_true_2.
Qed.

Lemma add_column_not_elem (c c' : string) (cols : list string) :
  c <> c' -> c ∉ cols -> c ∉ DataFrame.add_column c' cols.
Proof.
  intros Hne Hc. unfold DataFrame.add_column.
  destruct (bool_decide (c' ∈ cols)); [exact Hc|].
  rewrite elem_of_app, list_elem_of_singleton. tauto.
Qed.

Lemma Row_eq (a b : DataFrame.Row) :
  DataFrame.LABEL1 a = DataFrame.LABEL1 b ->
  DataFrame.cells a = DataFrame.cells b -> a = b.
Proof. destruct a, b; simpl; intros -> ->; reflexivity. Qed.

Lemma set_cell_LABEL1 (c : string) (v : option R) (r : DataFrame.Row) :
  DataFrame.LABEL1 (DataFrame.set_cell c v r) = DataFrame.LABEL1 r.
Proof. reflexivity. Qed.

Ltac columns_kept :=
  repeat first [ apply add_column_self | apply add_column_elem ];
  try assumption.

Ltac columns_missing :=
  repeat (apply add_column_not_elem; [discriminate|]); assumption.

(** X21. [Patchable.adjust_tracks_variables] is idempotent: it reads the
    coordinates [X], [Y], [Z], [Yo], [Zo] and writes other columns, so
    on a table holding [X], [Y] and [Z], a second call returns normally
    and leaves the table exactly as the first call left it. *)
Theorem Patchable_adjust_tracks_variables_idempotent (p : Patchable)
    (tracks : DataFrame.t) :
  (forall c : string,
     c ∈ ["X"; "Y"; "Z"] -> c ∈ DataFrame.columns tracks) ->
  exists tracks1 : DataFrame.t,
    Patchable_adjust_tracks_variables p tracks = (tracks1, Ok tt) /\
    Patchable_adjust_tracks_variables p tracks1 = (tracks1, Ok tt).
Proof.
  intros Hcols.
  destruct tracks as [cols rs]. simpl in Hcols.
  assert (HX : "X" ∈ cols) by (apply Hcols; rewrite !elem_of_cons; auto).
  assert (HY : "Y" ∈ cols) by (apply Hcols; rewrite !elem_of_cons; auto).
  assert (HZ : "Z" ∈ cols) by (apply Hcols; rewrite !elem_of_cons; auto).
  unfold Patchable_adjust_tracks_variables at 1.
  erewrite bind_Ok by (unfold gets; reflexivity).
  rewrite !(getitem_Ok _ "X"), !(getitem_Ok _ "Y"), !(getitem_Ok _ "Z")
    by assumption.
  destruct (decide ("Yo" ∈ cols)) as [Hy|Hy];
    destruct (decide ("Zo" ∈ cols)) as [Hz|Hz].
  all: first [ rewrite (getitem_Ok _ "Yo") by exact Hy
             | rewrite (getitem_KeyError _ "Yo") by exact Hy ].
  all: first [ rewrite (getitem_Ok _ "Zo") by exact Hz
             | rewrite (getitem_KeyError _ "Zo") by exact Hz ].
  all: cbn [on_series DataFrame.rows DataFrame.columns].
  all: rewrite !sadd_map.
  all: replace {| DataFrame.columns := cols; DataFrame.rows := rs |}
         with {| DataFrame.columns := cols;
                 DataFrame.rows := map (fun r : DataFrame.Row => r) rs |}
         by now rewrite map_id.
  all: do 2 assign_step.
  all: first [ rewrite try_except_assign_Ok; assign_step
             | rewrite try_except_assign_KeyError ].
  all: assign_step.
  all: first [ rewrite try_except_assign_Ok_last;
               rewrite assign_map by (intros ?; label_kept)
             | rewrite try_except_assign_KeyError_last ].
  all: eexists; (split; [reflexivity|]).
  all: unfold Patchable_adjust_tracks_variables.
  all: erewrite bind_Ok by (unfold gets; reflexivity).
  all: rewrite !(getitem_Ok _ "X"), !(getitem_Ok _ "Y"), !(getitem_Ok _ "Z")
         by (cbn [DataFrame.columns]; columns_kept).
  all: first [ rewrite (getitem_Ok _ "Yo")
                 by (cbn [DataFrame.columns]; columns_kept)
             | rewrite (getitem_KeyError _ "Yo")
                 by (cbn [DataFrame.columns]; columns_missing) ].
  all: first [ rewrite (getitem_Ok _ "Zo")
                 by (cbn [DataFrame.columns]; columns_kept)
             | rewrite (getitem_KeyError _ "Zo")
                 by (cbn [DataFrame.columns]; columns_missing) ].
  all: cbn [on_series DataFrame.rows DataFrame.columns].
  all: rewrite !map_map, !sadd_map.
  all: do 2 assign_step.
  all: first [ rewrite try_except_assign_Ok; assign_step
             | rewrite try_except_assign_KeyError ].
  all: assign_step.
  all: first [ rewrite try_except_assign_Ok_last;
               rewrite assign_map by (intros ?; label_kept)
             | rewrite try_except_assign_KeyError_last ].
  all: f_equal; f_equal.
  all: try (rewrite !add_column_id by columns_kept; reflexivity).
  all: apply map_ext; intros r; unfold assigned.
  all: destruct (bool_decide (Some (DataFrame.LABEL1 r) = LABEL1 p));
         [|reflexivity].
  all: apply Row_eq; [reflexivity|].
  all: apply map_eq; intros k; rewrite !lookup_set_cell.
  all: repeat case_decide; subst; try discriminate; try reflexivity.
Qed.

Lemma Patchable_adjust_tracks_variables_idempotent_witness :
  exists tracks1 : DataFrame.t,
    Patchable_adjust_tracks_variables sample_D1 sample_tracks_XYZ =
      (tracks1, Ok tt) /\
    Patchable_adjust_tracks_variables sample_D1 tracks1 = (tracks1, Ok tt).
Proof.
  apply (Patchable_adjust_tracks_variables_idempotent sample_D1
           sample_tracks_XYZ).
  intros c Hc. exact Hc.
Defined.
